(** * Channel legalization and the serial proc runtime of XLS

    A shallow embedding of the proc/channel IR that
    [xls/passes/channel_legalization_pass_test.cc] builds, of the channel
    legalization pass it runs, and of the serial proc interpreter it drives
    (Tick, TickUntilOutput, channel queues). The pass and the interpreter
    themselves are not part of the sources at hand: their definitions below
    are modelled from the spec and from the expectations that the test file
    states for them. *)

From Stdlib Require Import List String ZArith Bool Arith Lia.
Import ListNotations.

Local Open Scope string_scope.
Set Warnings "-register-all".

(** ** IR data model *)

Inductive ChannelStrictness : Type :=
| kProvenMutuallyExclusive
| kTotalOrder
| kArbitraryStaticOrder
| kRuntimeOrdered
| kRuntimeMutuallyExclusive.

Definition AllStrictnesses : list ChannelStrictness :=
  [kProvenMutuallyExclusive; kRuntimeMutuallyExclusive; kTotalOrder;
   kRuntimeOrdered; kArbitraryStaticOrder].

(** [ops=receive_only] / [ops=send_only]. *)
Inductive ChannelOps : Type := ReceiveOnly | SendOnly.

Definition ChannelOps_eqb (a b : ChannelOps) : bool :=
  match a, b with
  | ReceiveOnly, ReceiveOnly | SendOnly, SendOnly => true
  | _, _ => false
  end.

(** [chan in(bits[32], id=0, kind=streaming, ops=..., strictness=...)]. *)
Record Channel : Type := mkChannel {
  ch_name : string;
  ch_width : Z;
  ch_id : nat;
  ch_ops : ChannelOps;
  ch_strictness : ChannelStrictness
}.

Inductive Value : Type :=
| VBits (width : Z) (v : Z)
| VToken
| VTuple (vs : list Value).

Definition value_bits (v : Value) : Z :=
  match v with VBits _ x => x | _ => 0%Z end.

(** The node kinds of the test IR. Operands are node (or parameter) names. *)
Inductive Op : Type :=
| OLiteral (width : Z) (v : Z)
| OReceive (tok : string) (pred : option string) (ch : nat)
| OSend (tok : string) (data : string) (pred : option string) (ch : nat)
| OTupleIndex (arg : string) (index : nat)
| OAfterAll (toks : list string)
| ONot (arg : string)
| OUgt (a b : string)
| OAdd (a b : string)
| OBitSlice (arg : string) (start width : Z).

Record Node : Type := mkNode { node_name : string; node_op : Op }.

(** [proc p(tok: token, s: T, init={v}) { nodes; next(t, s') }]. *)
Record Proc : Type := mkProc {
  proc_name : string;
  proc_token_param : string;
  proc_state_params : list (string * Value);
  proc_nodes : list Node;
  proc_next_token : string;
  proc_next_state : list string
}.

(** An adapter synthesized by legalization: it owns the real channel
    [ad_channel]; every original operation now talks to it through its own
    internal channel, its port. *)
Record Port : Type := mkPort {
  port_channel : nat;
  port_proc : string;
  port_node : string
}.

Record Adapter : Type := mkAdapter {
  ad_channel : nat;
  ad_strictness : ChannelStrictness;
  ad_ports : list Port;
  (** pairs of port channels whose operations are ordered by tokens *)
  ad_ordered : list (nat * nat)
}.

Record Package : Type := mkPackage {
  pkg_channels : list Channel;
  pkg_procs : list Proc;
  pkg_adapters : list Adapter
}.

Inductive StatusCode : Type := kOk | kInternal | kAborted | kDeadlineExceeded.

Record Status : Type := mkStatus {
  status_code : StatusCode;
  status_message : string
}.

Inductive StatusOr (A : Type) : Type :=
| Ok (a : A)
| Err (st : Status).
Arguments Ok {A} a.
Arguments Err {A} st.

(** [HasSubstr]. *)
Definition HasSubstr (s sub : string) : Prop :=
  exists pre suf, s = pre ++ sub ++ suf.

(** ** Graph queries *)

Definition node_channel (n : Node) : option nat :=
  match node_op n with
  | OReceive _ _ c => Some c
  | OSend _ _ _ c => Some c
  | _ => None
  end.

Definition node_on (cid : nat) (n : Node) : bool :=
  match node_channel n with Some c => Nat.eqb c cid | None => false end.

(** The node with its channel reference erased: what token order sees. *)
Inductive NodeSkel : Type :=
| SkRecv (tok : string) | SkSend (tok : string) | SkAfterAll (toks : list string)
| SkTupleIndex (arg : string) (index : nat) | SkOther.

Definition node_skel (n : Node) : string * NodeSkel :=
  (node_name n,
   match node_op n with
   | OReceive tok _ _ => SkRecv tok
   | OSend tok _ _ _ => SkSend tok
   | OAfterAll ts => SkAfterAll ts
   | OTupleIndex a i => SkTupleIndex a i
   | _ => SkOther
   end).

Definition proc_skel (pr : Proc) : list (string * NodeSkel) :=
  map node_skel (proc_nodes pr).

Fixpoint lookup {A : Type} (k : string) (l : list (string * A)) : option A :=
  match l with
  | [] => None
  | (k', v) :: r => if String.eqb k k' then Some v else lookup k r
  end.

Definition is_receive (sk : list (string * NodeSkel)) (a : string) : bool :=
  match lookup a sk with Some (SkRecv _) => true | _ => false end.

(** Token operands: the token of a send/receive, the operands of
    [after_all], and [tuple_index(recv, index=0)]. *)
Definition token_deps (sk : list (string * NodeSkel)) (n : NodeSkel) : list string :=
  match n with
  | SkRecv tok | SkSend tok => [tok]
  | SkAfterAll ts => ts
  | SkTupleIndex a 0 => if is_receive sk a then [a] else []
  | _ => []
  end.

Definition lookup_list (k : string) (tbl : list (string * list string)) : list string :=
  match lookup k tbl with Some l => l | None => [] end.

(** Token ancestors of every node, computed in one pass over the nodes in
    their (topological) declaration order. *)
Fixpoint token_ancestors_aux (sk : list (string * NodeSkel))
    (ns : list (string * NodeSkel)) (tbl : list (string * list string))
    : list (string * list string) :=
  match ns with
  | [] => tbl
  | (name, n) :: r =>
      let ds := token_deps sk n in
      let anc := (ds ++ flat_map (fun d => lookup_list d tbl) ds)%list in
      token_ancestors_aux sk r ((name, anc) :: tbl)
  end.

Definition token_ancestors (sk : list (string * NodeSkel)) : list (string * list string) :=
  token_ancestors_aux sk sk [].

(** [a] token-precedes [b]: reachability along token edges. *)
Definition token_precedes (sk : list (string * NodeSkel)) (a b : string) : bool :=
  existsb (String.eqb a) (lookup_list b (token_ancestors sk)).

Record OpRef : Type := mkOpRef { op_proc : string; op_node : string }.

(** All operations on a channel, across all procs, in declaration order. *)
Definition channel_op_refs (p : Package) (cid : nat) : list OpRef :=
  flat_map (fun pr =>
      map (fun n => mkOpRef (proc_name pr) (node_name n))
          (filter (node_on cid) (proc_nodes pr)))
    (pkg_procs p).

Definition adapters_on (p : Package) (cid : nat) : list Adapter :=
  filter (fun a => Nat.eqb (ad_channel a) cid) (pkg_adapters p).

Definition op_count (p : Package) (cid : nat) : nat :=
  List.length (channel_op_refs p cid) + List.length (adapters_on p cid).

Fixpoint find_channel (cs : list Channel) (cid : nat) : option Channel :=
  match cs with
  | [] => None
  | c :: r => if Nat.eqb (ch_id c) cid then Some c else find_channel r cid
  end.

Fixpoint find_proc (prs : list Proc) (name : string) : option Proc :=
  match prs with
  | [] => None
  | pr :: r => if String.eqb (proc_name pr) name then Some pr else find_proc r name
  end.

(** Two operations are token-ordered: same proc, one reaches the other. *)
Definition op_ordered (p : Package) (a b : OpRef) : bool :=
  String.eqb (op_proc a) (op_proc b) &&
  match find_proc (pkg_procs p) (op_proc a) with
  | Some pr => let sk := proc_skel pr in
               token_precedes sk (op_node a) (op_node b)
               || token_precedes sk (op_node b) (op_node a)
  | None => false
  end.

Fixpoint pairwise {A : Type} (f : A -> A -> bool) (l : list A) : bool :=
  match l with
  | [] => true
  | x :: r => forallb (f x) r && pairwise f r
  end.

(** ** Channel legalization pass *)

Definition set_channel (n : Node) (c : nat) : Node :=
  mkNode (node_name n)
    match node_op n with
    | OReceive tok pred _ => OReceive tok pred c
    | OSend tok data pred _ => OSend tok data pred c
    | o => o
    end.

(** Rewire the [k]-th operation on [cid] (counting from [k0]) to the
    internal channel [base + k]. *)
Fixpoint rewire_nodes (cid base k : nat) (ns : list Node) : list Node * nat :=
  match ns with
  | [] => ([], k)
  | n :: r =>
      if node_on cid n then
        let '(r', k') := rewire_nodes cid base (S k) r in
        (set_channel n (base + k) :: r', k')
      else
        let '(r', k') := rewire_nodes cid base k r in (n :: r', k')
  end.

Definition rewire_proc (cid base k : nat) (pr : Proc) : Proc * nat :=
  let '(ns, k') := rewire_nodes cid base k (proc_nodes pr) in
  (mkProc (proc_name pr) (proc_token_param pr) (proc_state_params pr) ns
          (proc_next_token pr) (proc_next_state pr), k').

Fixpoint rewire_procs (cid base k : nat) (prs : list Proc) : list Proc :=
  match prs with
  | [] => []
  | pr :: r =>
      let '(pr', k') := rewire_proc cid base k pr in
      pr' :: rewire_procs cid base k' r
  end.

Fixpoint mk_ports (base k : nat) (refs : list OpRef) : list Port :=
  match refs with
  | [] => []
  | r :: rs => mkPort (base + k) (op_proc r) (op_node r) :: mk_ports base (S k) rs
  end.

Definition port_ref (pt : Port) : OpRef := mkOpRef (port_proc pt) (port_node pt).

Definition ordered_pairs (p : Package) (ports : list Port) : list (nat * nat) :=
  flat_map (fun a =>
      map (fun b => (port_channel a, port_channel b))
          (filter (fun b => op_ordered p (port_ref a) (port_ref b)) ports))
    ports.

(** The internal channel of a port: same type and direction as the real
    channel, one operation on each side. *)
Definition port_decl (c : Channel) (pt : Port) : Channel :=
  mkChannel (ch_name c ++ "__" ++ port_proc pt ++ "__" ++ port_node pt) (ch_width c)
            (port_channel pt)
            (ch_ops c) kProvenMutuallyExclusive.

Definition fresh_id (p : Package) : nat := S (list_max (map ch_id (pkg_channels p))).

(** Interpose an adapter between the operations on [c] and [c] itself. *)
Definition insert_adapter (c : Channel) (p : Package) : Package :=
  let base := fresh_id p in
  let ports := mk_ports base 0 (channel_op_refs p (ch_id c)) in
  mkPackage (pkg_channels p ++ map (port_decl c) ports)
            (rewire_procs (ch_id c) base 0 (pkg_procs p))
            (pkg_adapters p ++
             [mkAdapter (ch_id c) (ch_strictness c) ports (ordered_pairs p ports)]).

Definition is_totally_ordered (p : Package) (cid : nat) : bool :=
  pairwise (fun a b => negb (String.eqb (op_proc a) (op_proc b)) || op_ordered p a b)
           (channel_op_refs p cid).

Definition not_totally_ordered_error (c : Channel) : Status :=
  mkStatus kInternal ("Channel " ++ ch_name c ++ " is not totally ordered.").

(** Modelled from the spec: the per-channel dispatch of the channel
    legalization pass (channel_legalization_pass.cc). Channels with fewer than
    two operations and [ProvenMutuallyExclusive] channels are left untouched
    (the test: "channel legalization pass skips them"); [TotalOrder] requires
    the operations of each proc to be ordered by tokens; every other case
    inserts an adapter and reports a change. *)
Definition legalize_channel (c : Channel) (p : Package) : StatusOr (Package * bool) :=
  if Nat.ltb (op_count p (ch_id c)) 2 then Ok (p, false) else
  match ch_strictness c with
  | kProvenMutuallyExclusive => Ok (p, false)
  | kTotalOrder =>
      if is_totally_ordered p (ch_id c) then Ok (insert_adapter c p, true)
      else Err (not_totally_ordered_error c)
  | _ => Ok (insert_adapter c p, true)
  end.

Fixpoint legalize_channels (cs : list Channel) (p : Package) (changed : bool)
    : StatusOr (Package * bool) :=
  match cs with
  | [] => Ok (p, changed)
  | c :: r =>
      match legalize_channel c p with
      | Err st => Err st
      | Ok (p', b) => legalize_channels r p' (changed || b)
      end
  end.

(** Modelled from the spec: [ChannelLegalizationPass::Run], returning
    whether the package changed. *)
Definition ChannelLegalizationPass (p : Package) : StatusOr (Package * bool) :=
  legalize_channels (pkg_channels p) p false.

(** ** IR verification *)

Fixpoint nodup_nat (l : list nat) : bool :=
  match l with
  | [] => true
  | x :: r => negb (existsb (Nat.eqb x) r) && nodup_nat r
  end.

Fixpoint nodup_str (l : list string) : bool :=
  match l with
  | [] => true
  | x :: r => negb (existsb (String.eqb x) r) && nodup_str r
  end.

Definition option_list (o : option string) : list string :=
  match o with Some x => [x] | None => [] end.

Definition node_operands (o : Op) : list string :=
  match o with
  | OLiteral _ _ => []
  | OReceive t pr _ => t :: option_list pr
  | OSend t d pr _ => t :: d :: option_list pr
  | OTupleIndex a _ => [a]
  | OAfterAll ts => ts
  | ONot a => [a]
  | OUgt a b | OAdd a b => [a; b]
  | OBitSlice a _ _ => [a]
  end.

Definition node_sig (n : Node) : string * list string :=
  (node_name n, node_operands (node_op n)).

Definition mem_str (x : string) (l : list string) : bool := existsb (String.eqb x) l.

(** Every operand is defined before its use, every name is defined once. *)
Fixpoint nodes_scoped (defined : list string) (ns : list (string * list string)) : bool :=
  match ns with
  | [] => true
  | (name, args) :: r =>
      forallb (fun x => mem_str x defined) args && negb (mem_str name defined) &&
      nodes_scoped (name :: defined) r
  end.

Definition proc_wellformed (pr : Proc) : bool :=
  let params := proc_token_param pr :: map fst (proc_state_params pr) in
  let sigs := map node_sig (proc_nodes pr) in
  nodes_scoped params sigs &&
  forallb (fun x => mem_str x (params ++ map fst sigs)%list)
          (proc_next_token pr :: proc_next_state pr) &&
  Nat.eqb (List.length (proc_next_state pr)) (List.length (proc_state_params pr)).

(** A send or receive names a declared channel of its direction. *)
Definition node_dir_ok (p : Package) (n : Node) : bool :=
  match node_op n with
  | OReceive _ _ x =>
      match find_channel (pkg_channels p) x with
      | Some c => ChannelOps_eqb (ch_ops c) ReceiveOnly | None => false end
  | OSend _ _ _ x =>
      match find_channel (pkg_channels p) x with
      | Some c => ChannelOps_eqb (ch_ops c) SendOnly | None => false end
  | _ => true
  end.

Definition all_ports (p : Package) : list nat :=
  flat_map (fun a => map port_channel (ad_ports a)) (pkg_adapters p).

Definition opref_eqb (a b : OpRef) : bool :=
  String.eqb (op_proc a) (op_proc b) && String.eqb (op_node a) (op_node b).

(** A port: a declared channel of the adapter's direction, of one adapter
    only, carrying exactly the operation it was created for. *)
Definition port_ok (p : Package) (c : Channel) (pt : Port) : bool :=
  let x := port_channel pt in
  match find_channel (pkg_channels p) x with
  | Some c' => ChannelOps_eqb (ch_ops c') (ch_ops c) | None => false end &&
  match channel_op_refs p x with [r] => opref_eqb r (port_ref pt) | _ => false end &&
  Nat.eqb (List.length (filter (Nat.eqb x) (all_ports p))) 1 &&
  Nat.eqb (List.length (adapters_on p x)) 0.

(** An adapter: its real channel is declared, no proc operation uses it
    directly any more, it has no other adapter and is no port. *)
Definition adapter_ok (p : Package) (a : Adapter) : bool :=
  match find_channel (pkg_channels p) (ad_channel a) with
  | None => false
  | Some c =>
      Nat.eqb (List.length (channel_op_refs p (ad_channel a))) 0 &&
      Nat.eqb (List.length (adapters_on p (ad_channel a))) 1 &&
      negb (existsb (Nat.eqb (ad_channel a)) (all_ports p)) &&
      forallb (port_ok p c) (ad_ports a)
  end.

(** Modelled from the spec: the structural part of [VerifyPackage] on the
    parts of the IR that legalization builds or rewires: unique channel ids
    and proc names, scoping, channel directions, adapters and their ports.
    It leaves out the uniqueness of channel names, which the full verifier
    also checks; the theorems below take it only as a hypothesis. *)
Definition verify_structure (p : Package) : bool :=
  nodup_nat (map ch_id (pkg_channels p)) &&
  nodup_str (map proc_name (pkg_procs p)) &&
  forallb (fun pr => proc_wellformed pr && forallb (node_dir_ok p) (proc_nodes pr))
          (pkg_procs p) &&
  forallb (adapter_ok p) (pkg_adapters p).

(** ** Serial proc runtime *)

Definition Env : Type := list (string * Value).

Record AdapterState : Type := mkAdapterState {
  as_granted : list nat;     (** ports granted in this activation *)
  as_pending : list Value    (** sends to forward at the end of it *)
}.

Definition empty_adapter_state : AdapterState := mkAdapterState [] [].

(** Per proc: its state value and, when stalled, the resume point. *)
Record ProcState : Type := mkProcState {
  ps_state : list Value;
  ps_cont : option (nat * Env)
}.

Record NetState : Type := mkNetState {
  ns_queues : list (nat * list Value);
  ns_written : list (nat * nat);
  ns_adapters : list (nat * AdapterState);
  ns_procs : list ProcState
}.

Fixpoint nlookup {A : Type} (k : nat) (l : list (nat * A)) : option A :=
  match l with
  | [] => None
  | (k', v) :: r => if Nat.eqb k k' then Some v else nlookup k r
  end.

Fixpoint nupdate {A : Type} (k : nat) (v : A) (l : list (nat * A)) : list (nat * A) :=
  match l with
  | [] => [(k, v)]
  | (k', v') :: r => if Nat.eqb k k' then (k, v) :: r else (k', v') :: nupdate k v r
  end.

Definition queue_of (s : NetState) (c : nat) : list Value :=
  match nlookup c (ns_queues s) with Some q => q | None => [] end.

Definition written_count (s : NetState) (c : nat) : nat :=
  match nlookup c (ns_written s) with Some n => n | None => 0 end.

Definition adapter_state (s : NetState) (c : nat) : AdapterState :=
  match nlookup c (ns_adapters s) with Some a => a | None => empty_adapter_state end.

Definition set_queue (s : NetState) (c : nat) (q : list Value) : NetState :=
  mkNetState (nupdate c q (ns_queues s)) (ns_written s) (ns_adapters s) (ns_procs s).

Definition set_adapter_state (s : NetState) (c : nat) (a : AdapterState) : NetState :=
  mkNetState (ns_queues s) (ns_written s) (nupdate c a (ns_adapters s)) (ns_procs s).

(** A value produced on a channel by the network. *)
Definition queue_push (s : NetState) (c : nat) (v : Value) : NetState :=
  mkNetState (nupdate c (queue_of s c ++ [v])%list (ns_queues s))
             (nupdate c (S (written_count s c)) (ns_written s))
             (ns_adapters s) (ns_procs s).

Definition queue_pop (s : NetState) (c : nat) : option (Value * NetState) :=
  match queue_of s c with
  | [] => None
  | v :: q => Some (v, set_queue s c q)
  end.

Definition channel_name (p : Package) (cid : nat) : string :=
  match find_channel (pkg_channels p) cid with Some c => ch_name c | None => "" end.

Definition find_adapter (p : Package) (port : nat) : option Adapter :=
  find (fun a => existsb (fun pt => Nat.eqb (port_channel pt) port) (ad_ports a))
       (pkg_adapters p).

Definition port_of (a : Adapter) (x : nat) : option Port :=
  find (fun pt => Nat.eqb (port_channel pt) x) (ad_ports a).

Definition ports_ordered (a : Adapter) (x y : nat) : bool :=
  existsb (fun '(u, v) => (Nat.eqb u x && Nat.eqb v y) || (Nat.eqb u y && Nat.eqb v x))
          (ad_ordered a).

Definition same_proc_ports (a : Adapter) (x y : nat) : bool :=
  match port_of a x, port_of a y with
  | Some px, Some py => String.eqb (port_proc px) (port_proc py)
  | _, _ => false
  end.

(** Modelled from the spec: the assertion of a synthesized adapter, whether
    port [x] may fire in an activation in which port [y] already fired.
    [RuntimeMutuallyExclusive]: never. [RuntimeOrdered]: only if the two
    operations are ordered by tokens (the test aborts it when two unordered
    receives both fire). [TotalOrder], [ArbitraryStaticOrder]: only within
    one proc (the test: "Adapters assert that only one proc fires on a
    channel per adapter proc tick"). *)
Definition adapter_conflict (a : Adapter) (x y : nat) : bool :=
  match ad_strictness a with
  | kRuntimeMutuallyExclusive => true
  | kRuntimeOrdered => negb (ports_ordered a x y)
  | kTotalOrder | kArbitraryStaticOrder => negb (same_proc_ports a x y)
  | kProvenMutuallyExclusive => false
  end.

Definition not_mutually_exclusive_error (p : Package) (a : Adapter) : Status :=
  mkStatus kAborted
    ("Assertion failure on channel " ++ channel_name p (ad_channel a) ++
     ": predicate was not mutually exclusive.").

Definition malformed : Status := mkStatus kInternal "Malformed IR.".

Inductive NodeResult : Type :=
| NOk (v : Value) (s : NetState)
| NStall
| NFail (st : Status) (s : NetState).

(** A request of port [x] to its adapter [a]: the exclusivity assertion,
    then the grant. *)
Definition adapter_request (p : Package) (a : Adapter) (x : nat) (s : NetState)
    : option Status :=
  if existsb (adapter_conflict a x) (as_granted (adapter_state s (ad_channel a)))
  then Some (not_mutually_exclusive_error p a) else None.

Definition grant (s : NetState) (a : Adapter) (x : nat) (pending : list Value) : NetState :=
  let st := adapter_state s (ad_channel a) in
  set_adapter_state s (ad_channel a)
    (mkAdapterState (as_granted st ++ [x])%list (as_pending st ++ pending)%list).

Definition do_receive (p : Package) (c : nat) (s : NetState) : NodeResult :=
  match find_adapter p c with
  | Some a =>
      match adapter_request p a c s with
      | Some st => NFail st s
      | None =>
          match queue_pop s (ad_channel a) with
          | None => NStall
          | Some (v, s') => NOk (VTuple [VToken; v]) (grant s' a c [])
          end
      end
  | None =>
      match queue_pop s c with
      | None => NStall
      | Some (v, s') => NOk (VTuple [VToken; v]) s'
      end
  end.

(** Sends through an adapter are forwarded to the real channel when the
    adapter's activation completes. *)
Definition do_send (p : Package) (c : nat) (v : Value) (s : NetState) : NodeResult :=
  match find_adapter p c with
  | Some a =>
      match adapter_request p a c s with
      | Some st => NFail st s
      | None => NOk VToken (grant s a c [v])
      end
  | None => NOk VToken (queue_push s c v)
  end.

Definition pred_enabled (env : Env) (pred : option string) : option bool :=
  match pred with
  | None => Some true
  | Some x => match lookup x env with
              | Some (VBits _ v) => Some (negb (Z.eqb v 0))
              | _ => None
              end
  end.

Definition bits_of (env : Env) (x : string) : option (Z * Z) :=
  match lookup x env with Some (VBits w v) => Some (w, v) | _ => None end.

Definition exec_node (p : Package) (env : Env) (n : Node) (s : NetState) : NodeResult :=
  match node_op n with
  | OLiteral w v => NOk (VBits w v) s
  | OTupleIndex a i =>
      match lookup a env with
      | Some (VTuple vs) =>
          match nth_error vs i with Some v => NOk v s | None => NFail malformed s end
      | _ => NFail malformed s
      end
  | OAfterAll _ => NOk VToken s
  | ONot a =>
      match bits_of env a with
      | Some (w, v) => NOk (VBits w (Z.lxor v (Z.ones w))) s
      | None => NFail malformed s
      end
  | OUgt a b =>
      match bits_of env a, bits_of env b with
      | Some (_, va), Some (_, vb) => NOk (VBits 1 (if Z.gtb va vb then 1 else 0)) s
      | _, _ => NFail malformed s
      end
  | OAdd a b =>
      match bits_of env a, bits_of env b with
      | Some (w, va), Some (_, vb) => NOk (VBits w ((va + vb) mod 2 ^ w)) s
      | _, _ => NFail malformed s
      end
  | OBitSlice a start width =>
      match bits_of env a with
      | Some (_, v) => NOk (VBits width (Z.land (Z.shiftr v start) (Z.ones width))) s
      | None => NFail malformed s
      end
  | OReceive _ pred c =>
      match pred_enabled env pred, find_channel (pkg_channels p) c with
      | Some false, Some ch => NOk (VTuple [VToken; VBits (ch_width ch) 0]) s
      | Some true, Some _ => do_receive p c s
      | _, _ => NFail malformed s
      end
  | OSend _ d pred c =>
      match pred_enabled env pred, lookup d env with
      | Some false, Some _ => NOk VToken s
      | Some true, Some v => do_send p c v s
      | _, _ => NFail malformed s
      end
  end.

Inductive RunResult : Type :=
| RDone (env : Env) (s : NetState)
| RStall (pc : nat) (env : Env) (s : NetState)
| RFail (st : Status) (s : NetState).

(** Advance one activation of a proc from node [pc] until it completes or
    stalls on a channel operation. *)
Fixpoint run_nodes (p : Package) (ns : list Node) (pc : nat) (env : Env) (s : NetState)
    : RunResult :=
  match ns with
  | [] => RDone env s
  | n :: r =>
      match exec_node p env n s with
      | NOk v s' => run_nodes p r (S pc) ((node_name n, v) :: env) s'
      | NStall => RStall pc env s
      | NFail st s' => RFail st s'
      end
  end.

Definition init_env (pr : Proc) (ps : ProcState) : Env :=
  (proc_token_param pr, VToken) :: combine (map fst (proc_state_params pr)) (ps_state ps).

Fixpoint lookup_all (env : Env) (xs : list string) : option (list Value) :=
  match xs with
  | [] => Some []
  | x :: r => match lookup x env, lookup_all env r with
              | Some v, Some vs => Some (v :: vs)
              | _, _ => None
              end
  end.

Definition set_proc_state (s : NetState) (i : nat) (ps : ProcState) : NetState :=
  mkNetState (ns_queues s) (ns_written s) (ns_adapters s)
    (firstn i (ns_procs s) ++ ps :: skipn (S i) (ns_procs s))%list.

Definition default_proc_state : ProcState := mkProcState [] None.

Inductive ProcStep : Type :=
| PSDone (s : NetState)
| PSStall (progress : bool) (s : NetState)
| PSFail (st : Status) (s : NetState).

Definition step_proc (p : Package) (i : nat) (pr : Proc) (s : NetState) : ProcStep :=
  let ps := nth i (ns_procs s) default_proc_state in
  let '(pc, env) := match ps_cont ps with
                    | Some k => k
                    | None => (0, init_env pr ps)
                    end in
  match run_nodes p (skipn pc (proc_nodes pr)) pc env s with
  | RDone env' s' =>
      match lookup_all env' (proc_next_state pr) with
      | Some vs => PSDone (set_proc_state s' i (mkProcState vs None))
      | None => PSFail malformed s'
      end
  | RStall pc' env' s' =>
      PSStall (Nat.ltb pc pc') (set_proc_state s' i (mkProcState (ps_state ps) (Some (pc', env'))))
  | RFail st s' => PSFail st s'
  end.

Inductive PassResult : Type :=
| PassOk (done : list bool) (s : NetState) (progress : bool)
| PassFail (st : Status) (s : NetState).

Definition cons_done (d : bool) (r : PassResult) : PassResult :=
  match r with
  | PassOk ds s pg => PassOk (d :: ds) s pg
  | PassFail st s => PassFail st s
  end.

(** One scan over the procs that have not completed their activation in
    this tick. *)
Fixpoint tick_pass (p : Package) (prs : list Proc) (i : nat) (done : list bool)
    (s : NetState) (progress : bool) : PassResult :=
  match prs, done with
  | pr :: prs', d :: done' =>
      if d then cons_done true (tick_pass p prs' (S i) done' s progress)
      else match step_proc p i pr s with
           | PSDone s' => cons_done true (tick_pass p prs' (S i) done' s' true)
           | PSStall pg s' => cons_done false (tick_pass p prs' (S i) done' s' (progress || pg))
           | PSFail st s' => PassFail st s'
           end
  | _, _ => PassOk [] s progress
  end.

Inductive IterResult : Type :=
| IterOk (s : NetState) (progress : bool)
| IterFail (st : Status) (s : NetState).

(** Re-scan the stalled procs until a fixed point. *)
Fixpoint tick_iterate (p : Package) (fuel : nat) (done : list bool) (s : NetState)
    (progress : bool) : IterResult :=
  match fuel with
  | O => IterOk s progress
  | S f =>
      match tick_pass p (pkg_procs p) 0 done s false with
      | PassFail st s' => IterFail st s'
      | PassOk done' s' pg =>
          if pg then tick_iterate p f done' s' true else IterOk s' progress
      end
  end.

Definition tick_fuel (p : Package) : nat :=
  S (fold_right (fun pr n => S (List.length (proc_nodes pr)) + n) 0 (pkg_procs p)).

Definition reset_adapters (p : Package) (s : NetState) : NetState :=
  mkNetState (ns_queues s) (ns_written s)
    (map (fun a => (ad_channel a, empty_adapter_state)) (pkg_adapters p)) (ns_procs s).

(** The end of an adapter activation: the granted sends reach the real
    channel, in grant order. *)
Definition commit_adapter (s : NetState) (a : Adapter) : NetState :=
  fold_left (fun s v => queue_push s (ad_channel a) v)
            (as_pending (adapter_state s (ad_channel a))) s.

Definition commit_adapters (p : Package) (s : NetState) : NetState :=
  reset_adapters p (fold_left commit_adapter (pkg_adapters p) s).

Inductive TickResult : Type :=
| TickOk (progress : bool) (s : NetState)
| TickAbort (st : Status) (s : NetState).

(** Modelled from the spec: [SerialProcRuntime::Tick]: every proc advances
    as far as it can, re-scanning stalled procs to a fixed point; each
    adapter activates once per tick. An assertion failure aborts the tick;
    what the adapters had not yet forwarded is dropped. *)
Definition Tick (p : Package) (s : NetState) : TickResult :=
  match tick_iterate p (tick_fuel p) (map (fun _ => false) (pkg_procs p))
                     (reset_adapters p s) false with
  | IterFail st s' => TickAbort st (reset_adapters p s')
  | IterOk s' pg => TickOk pg (commit_adapters p s')
  end.

Definition blocked_channel (p : Package) (pr : Proc) (ps : ProcState) : list string :=
  match ps_cont ps with
  | Some (pc, _) =>
      match nth_error (proc_nodes pr) pc with
      | Some n =>
          match node_op n with
          | OReceive _ _ c =>
              match find_adapter p c with
              | Some a => [channel_name p (ad_channel a)]
              | None => [channel_name p c]
              end
          | _ => []
          end
      | None => []
      end
  | None => []
  end.

Definition blocked_channels (p : Package) (s : NetState) : list string :=
  flat_map (fun '(pr, ps) => blocked_channel p pr ps) (combine (pkg_procs p) (ns_procs s)).

Definition deadline_prefix : string :=
  "Exceeded limit of ticks of the proc network before expected output produced. ".

Definition deadline_error (p : Package) (s : NetState) : Status :=
  mkStatus kDeadlineExceeded
    (deadline_prefix ++ "Blocked channels: " ++ String.concat ", " (blocked_channels p s)).

Definition targets_met (start : NetState) (targets : list (nat * nat)) (s : NetState) : bool :=
  forallb (fun '(c, n) => Nat.leb n (written_count s c - written_count start c)) targets.

Fixpoint tick_until_loop (p : Package) (start : NetState) (targets : list (nat * nat))
    (remaining : nat) (progress : bool) (s : NetState) : StatusOr bool * NetState :=
  if targets_met start targets s then (Ok progress, s) else
  match remaining with
  | O => (Err (deadline_error p s), s)
  | S r =>
      match Tick p s with
      | TickAbort st s' => (Err st, s')
      | TickOk pg s' => tick_until_loop p start targets r (progress || pg) s'
      end
  end.

(** Modelled from the spec: [TickUntilOutput(targets, max_ticks)]. *)
Definition TickUntilOutput (p : Package) (s : NetState) (targets : list (nat * nat))
    (max_ticks : nat) : StatusOr bool * NetState :=
  tick_until_loop p s targets max_ticks false s.

(** The runtime created for a package: empty queues, initial proc states. *)
Definition CreateRuntime (p : Package) : NetState :=
  mkNetState (map (fun c => (ch_id c, [])) (pkg_channels p))
             (map (fun c => (ch_id c, 0)) (pkg_channels p))
             (map (fun a => (ad_channel a, empty_adapter_state)) (pkg_adapters p))
             (map (fun pr => mkProcState (map snd (proc_state_params pr)) None) (pkg_procs p)).

Fixpoint find_channel_by_name (cs : list Channel) (name : string) : option Channel :=
  match cs with
  | [] => None
  | c :: r => if String.eqb (ch_name c) name then Some c else find_channel_by_name r name
  end.

(** Harness access to a queue between ticks ([GetQueueByName] + [Write]). *)
Definition QueueWrite (p : Package) (name : string) (v : Value) (s : NetState) : NetState :=
  match find_channel_by_name (pkg_channels p) name with
  | Some c => set_queue s (ch_id c) (queue_of s (ch_id c) ++ [v])%list
  | None => s
  end.

Definition QueueContents (p : Package) (name : string) (s : NetState) : list Z :=
  match find_channel_by_name (pkg_channels p) name with
  | Some c => map value_bits (queue_of s (ch_id c))
  | None => []
  end.

(** ** The packages of channel_legalization_pass_test.cc *)

Definition bits32 (i : Z) : Value := VBits 32 i.

Definition chan (name : string) (width : Z) (id : nat) (ops : ChannelOps)
    (s : ChannelStrictness) : Channel :=
  mkChannel name width id ops s.

Definition nd (name : string) (o : Op) : Node := mkNode name o.

(** [SingleProcBackToBackDataSwitchingOps]. *)
Definition SingleProcBackToBackDataSwitchingOps (s : ChannelStrictness) : Package :=
  mkPackage
    [chan "in" 32 0 ReceiveOnly s; chan "out" 32 1 SendOnly s]
    [mkProc "my_proc" "tok" []
       [nd "recv0" (OReceive "tok" None 0);
        nd "recv0_tok" (OTupleIndex "recv0" 0);
        nd "recv0_data" (OTupleIndex "recv0" 1);
        nd "recv1" (OReceive "recv0_tok" None 0);
        nd "recv1_tok" (OTupleIndex "recv1" 0);
        nd "recv1_data" (OTupleIndex "recv1" 1);
        nd "send0" (OSend "recv1_tok" "recv1_data" None 1);
        nd "send1" (OSend "send0" "recv0_data" None 1)]
       "send1" []]
    [].

Definition proc_ab (name : string) (init : Z) : Proc :=
  mkProc name "tok" [("pred", VBits 1 init)]
    [nd "recv" (OReceive "tok" (Some "pred") 0);
     nd "recv_tok" (OTupleIndex "recv" 0);
     nd "recv_data" (OTupleIndex "recv" 1);
     nd "send" (OSend "recv_tok" "recv_data" (Some "pred") 1);
     nd "next_pred" (ONot "pred")]
    "send" ["next_pred"].

(** [TwoProcsMutuallyExclusive]. *)
Definition TwoProcsMutuallyExclusive (s : ChannelStrictness) : Package :=
  mkPackage
    [chan "in" 32 0 ReceiveOnly s; chan "out" 32 1 SendOnly s]
    [proc_ab "proc_a" 1; proc_ab "proc_b" 0]
    [].

Definition proc_always (name : string) : Proc :=
  mkProc name "tok" []
    [nd "recv" (OReceive "tok" None 0);
     nd "recv_tok" (OTupleIndex "recv" 0);
     nd "recv_data" (OTupleIndex "recv" 1);
     nd "send" (OSend "recv_tok" "recv_data" None 1)]
    "send" [].

(** [TwoProcsAlwaysFiringCausesError]. *)
Definition TwoProcsAlwaysFiringCausesError (s : ChannelStrictness) : Package :=
  mkPackage
    [chan "in" 32 0 ReceiveOnly s; chan "out" 32 1 SendOnly s]
    [proc_always "proc_a"; proc_always "proc_b"]
    [].

(** [SingleProcWithPartialOrder]. *)
Definition SingleProcWithPartialOrder (s : ChannelStrictness) : Package :=
  mkPackage
    [chan "in" 32 0 ReceiveOnly s; chan "out" 32 1 SendOnly s;
     chan "pred" 2 2 ReceiveOnly s]
    [mkProc "my_proc" "tok" []
       [nd "pred_recv" (OReceive "tok" None 2);
        nd "pred_token" (OTupleIndex "pred_recv" 0);
        nd "pred_data" (OTupleIndex "pred_recv" 1);
        nd "pred0" (OBitSlice "pred_data" 0 1);
        nd "pred1" (OBitSlice "pred_data" 1 1);
        nd "recv0" (OReceive "pred_token" None 0);
        nd "recv0_tok" (OTupleIndex "recv0" 0);
        nd "recv0_data" (OTupleIndex "recv0" 1);
        nd "recv1" (OReceive "recv0_tok" (Some "pred0") 0);
        nd "recv1_tok" (OTupleIndex "recv1" 0);
        nd "recv1_data" (OTupleIndex "recv1" 1);
        nd "recv2" (OReceive "recv0_tok" (Some "pred1") 0);
        nd "recv2_tok" (OTupleIndex "recv2" 0);
        nd "recv2_data" (OTupleIndex "recv2" 1);
        nd "all_recv_tok" (OAfterAll ["recv0_tok"; "recv1_tok"; "recv2_tok"]);
        nd "send0" (OSend "all_recv_tok" "recv0_data" None 1);
        nd "send1" (OSend "send0" "recv1_data" (Some "pred0") 1);
        nd "send2" (OSend "send0" "recv2_data" (Some "pred1") 1);
        nd "all_send_tok" (OAfterAll ["send0"; "send1"; "send2"])]
       "all_send_tok" []]
    [].

(** [DataDependentReceive]. *)
Definition DataDependentReceive (s : ChannelStrictness) : Package :=
  mkPackage
    [chan "in" 32 1 ReceiveOnly s; chan "out" 32 2 SendOnly s]
    [mkProc "test_proc" "tkn" [("state", VTuple [])]
       [nd "in_recv0" (OReceive "tkn" None 1);
        nd "in_recv0_token" (OTupleIndex "in_recv0" 0);
        nd "in_recv0_data" (OTupleIndex "in_recv0" 1);
        nd "comp_data" (OLiteral 32 5);
        nd "in_recv1_pred" (OUgt "in_recv0_data" "comp_data");
        nd "in_recv1" (OReceive "in_recv0_token" (Some "in_recv1_pred") 1);
        nd "in_recv1_token" (OTupleIndex "in_recv1" 0);
        nd "in_recv1_data" (OTupleIndex "in_recv1" 1);
        nd "data_to_send" (OAdd "in_recv0_data" "in_recv1_data");
        nd "out_send0" (OSend "in_recv1_token" "data_to_send" None 2);
        nd "out_send1" (OSend "out_send0" "data_to_send" (Some "in_recv1_pred") 2)]
       "out_send1" ["state"]]
    [].

(** [PredicateArrivesOutOfOrder]. *)
Definition PredicateArrivesOutOfOrder (s : ChannelStrictness) : Package :=
  mkPackage
    [chan "pred0" 1 0 ReceiveOnly s; chan "pred1" 1 1 ReceiveOnly s;
     chan "out" 32 2 SendOnly s]
    [mkProc "test_proc" "tkn" [("state", VTuple [])]
       [nd "pred1_recv" (OReceive "tkn" None 1);
        nd "pred1_recv_token" (OTupleIndex "pred1_recv" 0);
        nd "pred1_recv_data" (OTupleIndex "pred1_recv" 1);
        nd "pred0_recv" (OReceive "pred1_recv_token" None 0);
        nd "pred0_recv_token" (OTupleIndex "pred0_recv" 0);
        nd "pred0_recv_data" (OTupleIndex "pred0_recv" 1);
        nd "literal0" (OLiteral 32 0);
        nd "literal1" (OLiteral 32 1);
        nd "out_send0" (OSend "pred0_recv_token" "literal0" (Some "pred0_recv_data") 2);
        nd "after_all_tok" (OAfterAll ["out_send0"; "pred1_recv_token"]);
        nd "out_send1" (OSend "after_all_tok" "literal1" (Some "pred1_recv_data") 2)]
       "out_send1" ["state"]]
    [].

Definition is_pme (c : Channel) : bool :=
  match ch_strictness c with kProvenMutuallyExclusive => true | _ => false end.

Definition is_total_order (c : Channel) : bool :=
  match ch_strictness c with kTotalOrder => true | _ => false end.

(** The package the pass returns, as the test's [EvaluatesCorrectly] runs
    it; [None] when the pass fails. *)
Definition legalized (p : Package) : option Package :=
  match ChannelLegalizationPass p with Ok (p', _) => Some p' | Err _ => None end.

Fixpoint write_all (p : Package) (name : string) (vs : list Z) (s : NetState) : NetState :=
  match vs with
  | [] => s
  | v :: r => write_all p name r (QueueWrite p name (bits32 v) s)
  end.

Definition iota32 (n : nat) : list Z := map Z.of_nat (seq 0 n).

(** The evaluation of scenario A / B: write [0..31] to [in], tick until 32
    outputs on [out] (at most [1000] ticks). *)
Definition evaluate_in_out (p : Package) : StatusOr bool * NetState :=
  let s := write_all p "in" (iota32 32) (CreateRuntime p) in
  match find_channel_by_name (pkg_channels p) "out" with
  | Some out => TickUntilOutput p s [(ch_id out, 32)] 1000
  | None => (Err malformed, s)
  end.

Fixpoint swap_pairs (l : list Z) : list Z :=
  match l with
  | a :: b :: r => b :: a :: swap_pairs r
  | _ => l
  end.

Definition is_ok {A} (r : StatusOr A) : bool := match r with Ok _ => true | Err _ => false end.

(** The legalized network of a test package, run as in scenarios A and B:
    the status of [TickUntilOutput] and the values left on [out]. *)
Definition scenario_in_out (p0 : Package) : option (StatusOr bool * list Z) :=
  match legalized p0 with
  | Some p => let '(r, s) := evaluate_in_out p in Some (r, QueueContents p "out" s)
  | None => None
  end.

Fixpoint run_ticks (p : Package) (s : NetState) (n : nat) : option NetState :=
  match n with
  | O => Some s
  | S k => match Tick p s with
           | TickOk _ s' => run_ticks p s' k
           | TickAbort _ _ => None
           end
  end.

(** Scenario C: one tick with no input, then [1] is written to [pred1]. *)
Definition scenarioC_start (p : Package) : NetState :=
  match Tick p (CreateRuntime p) with
  | TickOk _ s => QueueWrite p "pred1" (VBits 1 1) s
  | TickAbort _ s => s
  end.

Definition scenarioC_stuck (p : Package) : NetState :=
  match Tick p (scenarioC_start p) with
  | TickOk _ s => s
  | TickAbort _ s => s
  end.

(** [run_with_pred] of [SingleProcWithPartialOrder]: fresh inputs [0,1,2],
    a predicate word, and ticks until the expected outputs. *)
Definition run_with_pred (p : Package) (fire0 fire1 : bool) (s : NetState)
    : StatusOr bool * NetState :=
  let s := set_queue (set_queue s 0 []) 1 [] in
  let s := write_all p "in" [0; 1; 2]%Z s in
  let s := QueueWrite p "pred" (VBits 2 ((if fire0 then 1 else 0) + (if fire1 then 2 else 0))%Z) s in
  TickUntilOutput p s [(1, 1 + (if fire0 then 1 else 0) + (if fire1 then 1 else 0))] 20.

(** The claim's reading of "totally ordered": every two operations on the
    channel are linearized by the token graph. *)
Definition all_ops_linearized (p : Package) (cid : nat) : bool :=
  pairwise (op_ordered p) (channel_op_refs p cid).

(** The channel whose queue a receive on [x] pops: the real channel of
    its adapter, or [x] itself. *)
Definition receive_target (p : Package) (x : nat) : nat :=
  match find_adapter p x with Some a => ad_channel a | None => x end.

Definition network_receives_from (p : Package) (c : nat) : bool :=
  existsb (fun pr => existsb (fun n =>
      match node_op n with
      | OReceive _ _ x => Nat.eqb (receive_target p x) c
      | _ => false
      end) (proc_nodes pr)) (pkg_procs p).

(** Some send writes [c] directly, not through an adapter. *)
Definition network_sends_directly (p : Package) (c : nat) : bool :=
  existsb (fun pr => existsb (fun n =>
      match node_op n with
      | OSend _ _ _ x =>
          Nat.eqb x c && match find_adapter p x with Some _ => false | None => true end
      | _ => false
      end) (proc_nodes pr)) (pkg_procs p).

Definition keeps (c : nat) (s s' : NetState) : Prop :=
  queue_of s' c = queue_of s c /\ written_count s' c = written_count s c.

(** A node that neither pops nor directly pushes channel [c]. *)
Definition node_safe (p : Package) (c : nat) (n : Node) : Prop :=
  match node_op n with
  | OReceive _ _ x => receive_target p x <> c
  | OSend _ _ _ x => find_adapter p x = None -> x <> c
  | _ => True
  end.

Definition node_result_keeps (c : nat) (s : NetState) (r : NodeResult) : Prop :=
  match r with
  | NOk _ s' | NFail _ s' => keeps c s s'
  | NStall => True
  end.

Definition run_result_keeps (c : nat) (s : NetState) (r : RunResult) : Prop :=
  match r with
  | RDone _ s' | RStall _ _ s' | RFail _ s' => keeps c s s'
  end.

Definition proc_step_keeps (c : nat) (s : NetState) (r : ProcStep) : Prop :=
  match r with
  | PSDone s' | PSStall _ s' | PSFail _ s' => keeps c s s'
  end.

Definition pass_keeps (c : nat) (s : NetState) (r : PassResult) : Prop :=
  match r with
  | PassOk _ s' _ | PassFail _ s' => keeps c s s'
  end.

Definition iter_keeps (c : nat) (s : NetState) (r : IterResult) : Prop :=
  match r with
  | IterOk s' _ | IterFail _ s' => keeps c s s'
  end.

Definition scenarioC_net : Package :=
  match legalized (PredicateArrivesOutOfOrder kTotalOrder) with
  | Some p => p
  | None => PredicateArrivesOutOfOrder kTotalOrder
  end.






(** [TwoProcsAlwaysFiringCausesError] under [TotalOrder], legalized, with
    [0..3] written to [in]. *)
Definition TwoProcsAlwaysFiring_to : Package :=
  match legalized (TwoProcsAlwaysFiringCausesError kTotalOrder) with
  | Some p => p
  | None => TwoProcsAlwaysFiringCausesError kTotalOrder
  end.

Definition TwoProcsAlwaysFiring_start : NetState :=
  write_all TwoProcsAlwaysFiring_to "in" (iota32 4) (CreateRuntime TwoProcsAlwaysFiring_to).

Definition TwoProcsAlwaysFiring_in_adapter : Adapter :=
  nth 0 (pkg_adapters TwoProcsAlwaysFiring_to) (mkAdapter 0 kProvenMutuallyExclusive [] []).




(** *** Views used by the proofs about the pass *)

(** All the nodes of a package, each tagged with the name of its proc. *)
Definition tagged (prs : list Proc) : list (string * Node) :=
  flat_map (fun pr => map (fun n => (proc_name pr, n)) (proc_nodes pr)) prs.

Definition tag_ref (t : string * Node) : OpRef := mkOpRef (fst t) (node_name (snd t)).

Definition tag_on (cid : nat) (t : string * Node) : bool := node_on cid (snd t).

(** [rewire_procs] on the tagged view. *)
Fixpoint rewire_tagged (cid base k : nat) (l : list (string * Node)) : list (string * Node) :=
  match l with
  | [] => []
  | (q, n) :: r =>
      if node_on cid n then (q, set_channel n (base + k)) :: rewire_tagged cid base (S k) r
      else (q, n) :: rewire_tagged cid base k r
  end.

(** A node with its channel reference erased, and a proc with all its
    channel references erased: what rewiring leaves intact. *)
Definition op_erase (o : Op) : Op :=
  match o with
  | OReceive t pr _ => OReceive t pr 0
  | OSend t d pr _ => OSend t d pr 0
  | o => o
  end.

Definition node_erase (n : Node) : Node := mkNode (node_name n) (op_erase (node_op n)).

Definition proc_erase (pr : Proc) : Proc :=
  mkProc (proc_name pr) (proc_token_param pr) (proc_state_params pr)
         (map node_erase (proc_nodes pr)) (proc_next_token pr) (proc_next_state pr).

(** Every channel a node of [l] names is below [b]. *)
Definition channels_below (b : nat) (l : list (string * Node)) : Prop :=
  forall t e, In t l -> node_channel (snd t) = Some e -> e < b.

(** A channel left alone by a second run of the pass. *)
Definition settled (p : Package) (c : Channel) : bool :=
  is_pme c || Nat.ltb (op_count p (ch_id c)) 2.

(** A [TotalOrder] channel on which the pass fails. *)
Definition not_legalizable (p : Package) (c : Channel) : bool :=
  is_total_order c && negb (Nat.ltb (op_count p (ch_id c)) 2) &&
  negb (is_totally_ordered p (ch_id c)).

(** A channel for which the pass inserts an adapter. *)
Definition gets_adapter (p : Package) (c : Channel) : bool :=
  negb (is_pme c) && negb (Nat.ltb (op_count p (ch_id c)) 2).

(** *** The operations a tick attempts

    [tick_trace p s] lists, in execution order, every node the tick of [p]
    from [s] attempts to execute: the proc, the node, the environment and
    the state it runs in. It follows [Tick] step by step: [run_trace]
    follows [run_nodes], [step_trace] [step_proc], [pass_trace]
    [tick_pass] and [iter_trace] [tick_iterate]. *)

Record Event : Type := mkEvent {
  ev_proc : string;
  ev_node : Node;
  ev_env : Env;
  ev_state : NetState
}.

Fixpoint run_trace (p : Package) (q : string) (ns : list Node) (env : Env) (s : NetState)
    : list Event :=
  match ns with
  | [] => []
  | n :: r =>
      mkEvent q n env s ::
      match exec_node p env n s with
      | NOk v s' => run_trace p q r ((node_name n, v) :: env) s'
      | _ => []
      end
  end.

Definition step_trace (p : Package) (i : nat) (pr : Proc) (s : NetState) : list Event :=
  let ps := nth i (ns_procs s) default_proc_state in
  let '(pc, env) := match ps_cont ps with
                    | Some k => k
                    | None => (0, init_env pr ps)
                    end in
  run_trace p (proc_name pr) (skipn pc (proc_nodes pr)) env s.

Fixpoint pass_trace (p : Package) (prs : list Proc) (i : nat) (done : list bool)
    (s : NetState) : list Event :=
  match prs, done with
  | pr :: prs', d :: done' =>
      if d then pass_trace p prs' (S i) done' s
      else (step_trace p i pr s ++
            match step_proc p i pr s with
            | PSDone s' | PSStall _ s' => pass_trace p prs' (S i) done' s'
            | PSFail _ _ => []
            end)%list
  | _, _ => []
  end.

Fixpoint iter_trace (p : Package) (fuel : nat) (done : list bool) (s : NetState)
    : list Event :=
  match fuel with
  | O => []
  | S f =>
      (pass_trace p (pkg_procs p) 0 done s ++
       match tick_pass p (pkg_procs p) 0 done s false with
       | PassFail _ _ => []
       | PassOk done' s' pg => if pg then iter_trace p f done' s' else []
       end)%list
  end.

Definition tick_trace (p : Package) (s : NetState) : list Event :=
  iter_trace p (tick_fuel p) (map (fun _ => false) (pkg_procs p)) (reset_adapters p s).

(** The [k]-th event of a tick (a placeholder past its end). *)
Definition trace_at (p : Package) (s : NetState) (k : nat) : Event :=
  nth k (tick_trace p s) (mkEvent "" (nd "" (OLiteral 0 0)) [] s).

(** A send or receive whose predicate holds (and, for a send, whose data
    is available): an operation that requests its channel. *)
Definition op_enabled (env : Env) (n : Node) : bool :=
  match node_op n with
  | OReceive _ pred _ =>
      match pred_enabled env pred with Some b => b | None => false end
  | OSend _ d pred _ =>
      match pred_enabled env pred, lookup d env with
      | Some b, Some _ => b
      | _, _ => false
      end
  | _ => false
  end.

(** What executing the node of an event gives, and the state after it. *)
Definition ev_result (p : Package) (e : Event) : NodeResult :=
  exec_node p (ev_env e) (ev_node e) (ev_state e).

Definition ev_fires (p : Package) (e : Event) : bool :=
  match ev_result p e with NOk _ _ => true | _ => false end.

Definition ev_post (p : Package) (e : Event) : NetState :=
  match ev_result p e with
  | NOk _ s' | NFail _ s' => s'
  | NStall => ev_state e
  end.

Definition ev_ref (e : Event) : OpRef := mkOpRef (ev_proc e) (node_name (ev_node e)).

(** Along a list of events started from [s] and ending in [s_end], a
    relation [R] holds from each state to the next. *)
Fixpoint ev_chain (R : NetState -> NetState -> Prop) (p : Package) (s : NetState)
    (l : list Event) (s_end : NetState) : Prop :=
  match l with
  | [] => R s s_end
  | e :: r => R s (ev_state e) /\ R (ev_state e) (ev_post p e) /\
              ev_chain R p (ev_post p e) r s_end
  end.

(** The ports an adapter granted can only grow. *)
Definition granted_le (s s' : NetState) : Prop :=
  forall c, exists l, as_granted (adapter_state s' c) = (as_granted (adapter_state s c) ++ l)%list.


Definition run_state (r : RunResult) : NetState :=
  match r with RDone _ s | RStall _ _ s | RFail _ s => s end.

Definition step_state (r : ProcStep) : NetState :=
  match r with PSDone s | PSStall _ s | PSFail _ s => s end.

Definition pass_state (r : PassResult) : NetState :=
  match r with PassOk _ s _ | PassFail _ s => s end.

Definition iter_state (r : IterResult) : NetState :=
  match r with IterOk s _ | IterFail _ s => s end.

(** ** The test harness of channel_legalization_pass_test.cc *)

(** [RespectsTokenOrder]. Its [pred_recv] channel declares no strictness
    and gets the parser's default one, [default_strictness]; the channel
    carries a single receive, so its strictness never matters to the
    pass. *)
Definition RespectsTokenOrder (default_strictness s : ChannelStrictness) : Package :=
  mkPackage
    [chan "pred_recv" 1 0 ReceiveOnly default_strictness; chan "in" 32 1 ReceiveOnly s;
     chan "out" 32 2 SendOnly s]
    [mkProc "test_proc" "tkn" [("state", VTuple [])]
       [nd "data_to_send" (OLiteral 32 5);
        nd "pred_recv" (OReceive "tkn" None 0);
        nd "pred_recv_token" (OTupleIndex "pred_recv" 0);
        nd "pred_recv_data" (OTupleIndex "pred_recv" 1);
        nd "in_recv0" (OReceive "pred_recv_token" (Some "pred_recv_data") 1);
        nd "in_recv0_token" (OTupleIndex "in_recv0" 0);
        nd "in_recv1" (OReceive "in_recv0_token" (Some "pred_recv_data") 1);
        nd "in_recv1_token" (OTupleIndex "in_recv1" 0);
        nd "out_send0" (OSend "in_recv1_token" "data_to_send" None 2);
        nd "out_send1" (OSend "out_send0" "data_to_send" None 2)]
       "out_send1" ["state"]]
    [].

(** [enum class PassVariant]. *)
Inductive PassVariant : Type :=
| RunStandardPipelineNoInlineProcs
| RunStandardPipelineInlineProcs
| RunChannelLegalizationPassOnly.

(** [PassVariantName]. Its ["<unknown>"] fallback after the switch is
    reached only through an out-of-range cast, which the inductive type
    cannot express. *)
Definition PassVariantName (pass_variant : PassVariant) : string :=
  match pass_variant with
  | RunStandardPipelineNoInlineProcs => "RunStandardPipelineNoInlineProcs"
  | RunStandardPipelineInlineProcs => "RunStandardPipelineInlineProcs"
  | RunChannelLegalizationPassOnly => "RunChannelLegalizationPassOnly"
  end.

Definition StatusCode_eqb (a b : StatusCode) : bool :=
  match a, b with
  | kOk, kOk | kInternal, kInternal | kAborted, kAborted
  | kDeadlineExceeded, kDeadlineExceeded => true
  | _, _ => false
  end.

Definition ChannelStrictness_eqb (a b : ChannelStrictness) : bool :=
  match a, b with
  | kProvenMutuallyExclusive, kProvenMutuallyExclusive | kTotalOrder, kTotalOrder
  | kArbitraryStaticOrder, kArbitraryStaticOrder | kRuntimeOrdered, kRuntimeOrdered
  | kRuntimeMutuallyExclusive, kRuntimeMutuallyExclusive => true
  | _, _ => false
  end.

(** [absl::OkStatus()] and [StatusOr::status()]. *)
Definition status_ok : Status := mkStatus kOk "".

Definition status_of {A : Type} (r : StatusOr A) : Status :=
  match r with Ok _ => status_ok | Err st => st end.

Definition is_ok_status (st : Status) : bool := StatusCode_eqb (status_code st) kOk.

(** [HasSubstr], decided. *)
Fixpoint has_substr (s sub : string) : bool :=
  String.prefix sub s ||
  match s with EmptyString => false | String _ r => has_substr r sub end.

(** [StatusIs(code, HasSubstr(sub))] and [StatusIs(code)]. *)
Definition status_is (code : StatusCode) (sub : string) (st : Status) : bool :=
  StatusCode_eqb (status_code st) code && has_substr (status_message st) sub.

Definition status_is_code (code : StatusCode) (st : Status) : bool :=
  StatusCode_eqb (status_code st) code.

(** The matchers of a [builder_matcher]. *)
Inductive Matcher : Type :=
| IsOk
| IsOkAndHolds (b : bool)
| StatusIs (code : StatusCode) (sub : string).

Definition matches (m : Matcher) (r : StatusOr bool) : bool :=
  match m, r with
  | IsOk, Ok _ => true
  | IsOkAndHolds b, Ok b' => Bool.eqb b b'
  | StatusIs code sub, _ => status_is code sub (status_of r)
  | _, _ => false
  end.

(** [Value] equality ([operator==]). *)
Fixpoint value_eqb (a b : Value) : bool :=
  match a, b with
  | VBits w x, VBits w' y => Z.eqb w w' && Z.eqb x y
  | VToken, VToken => true
  | VTuple xs, VTuple ys =>
      (fix go (xs ys : list Value) : bool :=
         match xs, ys with
         | [], [] => true
         | x :: xs', y :: ys' => value_eqb x y && go xs' ys'
         | _, _ => false
         end) xs ys
  | _, _ => false
  end.

(** [Value(UBits(v, bit_count))]. *)
Definition UBits (v : Z) (bit_count : Z) : Value := VBits bit_count v.

(** [Optional(Eq(v))] on the result of a queue read. *)
Definition read_is (o : option Value) (v : Value) : bool :=
  match o with Some v' => value_eqb v' v | None => false end.

(** [strictness == k] on a [std::optional<ChannelStrictness>]. *)
Definition opt_is (o : option ChannelStrictness) (k : ChannelStrictness) : bool :=
  match o with Some k' => ChannelStrictness_eqb k' k | None => false end.

(** *** The harness monad

    An evaluation function runs against the interpreter's state and
    records whether every [EXPECT_*] held; a [return] (explicit, or through
    [XLS_RETURN_IF_ERROR], [XLS_ASSIGN_OR_RETURN] and [XLS_RET_CHECK*])
    leaves the function with a status. *)

Record TestState : Type := mkTestState {
  ts_net : NetState;
  ts_expect_ok : bool
}.

Inductive HResult (A : Type) : Type :=
| HVal (a : A) (t : TestState)
| HReturn (st : Status) (t : TestState).
Arguments HVal {A} a t.
Arguments HReturn {A} st t.

Definition Harness (A : Type) : Type := TestState -> HResult A.

Definition hret {A : Type} (a : A) : Harness A := fun t => HVal a t.

Definition hbind {A B : Type} (m : Harness A) (k : A -> Harness B) : Harness B :=
  fun t => match m t with
           | HVal a t' => k a t'
           | HReturn st t' => HReturn st t'
           end.

Notation "x <- m ;; k" := (hbind m (fun x => k))
  (at level 61, m at next level, right associativity).

Definition RETURN {A : Type} (st : Status) : Harness A := fun t => HReturn st t.

Definition EXPECT (b : bool) : Harness unit :=
  fun t => HVal tt (mkTestState (ts_net t) (ts_expect_ok t && b)).

(** The status [XLS_RET_CHECK] returns when its condition fails. *)
Definition ret_check_failure : Status := mkStatus kInternal "RET_CHECK failure".

Definition RET_CHECK (b : bool) : Harness unit :=
  if b then hret tt else RETURN ret_check_failure.

Definition RETURN_IF_ERROR (st : Status) : Harness unit :=
  if is_ok_status st then hret tt else RETURN st.

(** A call of a lambda returning [absl::Status]: a [return] inside it
    ends the lambda only. *)
Definition hcall (m : Harness unit) : Harness Status :=
  fun t => match m t with
           | HVal _ t' => HVal status_ok t'
           | HReturn st t' => HVal st t'
           end.

Fixpoint hfor {A : Type} (l : list A) (body : A -> Harness unit) : Harness unit :=
  match l with
  | [] => hret tt
  | i :: r => _ <- body i ;; hfor r body
  end.

(** *** The interpreter as the harness sees it *)

(** [queue_manager().GetQueueByName(name)]; the queue is named by its
    channel id. XLS fails a lookup of a missing name with [NotFound]; the
    status codes of this development stop at the ones the runtime
    produces, and the harness only ever checks this status for being
    non-OK, so [kInternal] stands for it. *)
Definition GetQueueByName (p : Package) (name : string) : Harness nat :=
  match find_channel_by_name (pkg_channels p) name with
  | Some c => hret (ch_id c)
  | None => RETURN (mkStatus kInternal ("No queue for channel " ++ name))
  end.

(** [ChannelQueue::Write]: the harness appends to the queue. *)
Definition Write (q : nat) (v : Value) : Harness Status :=
  fun t => HVal status_ok
             (mkTestState (set_queue (ts_net t) q (queue_of (ts_net t) q ++ [v])%list)
                          (ts_expect_ok t)).

(** [ChannelQueue::Read]. *)
Definition Read (q : nat) : Harness (option Value) :=
  fun t => match queue_pop (ts_net t) q with
           | None => HVal None t
           | Some (v, s') => HVal (Some v) (mkTestState s' (ts_expect_ok t))
           end.

Definition IsEmpty (q : nat) : Harness bool :=
  fun t => HVal (match queue_of (ts_net t) q with [] => true | _ => false end) t.

Definition GetSize (q : nat) : Harness nat :=
  fun t => HVal (List.length (queue_of (ts_net t) q)) t.

(** [interpreter->Tick()]. *)
Definition TickH (p : Package) : Harness Status :=
  fun t => match Tick p (ts_net t) with
           | TickOk _ s' => HVal status_ok (mkTestState s' (ts_expect_ok t))
           | TickAbort st s' => HVal st (mkTestState s' (ts_expect_ok t))
           end.

(** [interpreter->TickUntilOutput(output_count, max_ticks)]. *)
Definition TickUntilOutputH (p : Package) (output_count : list (nat * nat)) (max_ticks : nat)
    : Harness (StatusOr bool) :=
  fun t => let '(r, s') := TickUntilOutput p (ts_net t) output_count max_ticks in
           HVal r (mkTestState s' (ts_expect_ok t)).

(** [read_value = outq->Read(); XLS_RET_CHECK(read_value.has_value())]. *)
Definition ReadChecked (q : nat) : Harness Value :=
  o <- Read q ;;
  match o with Some v => hret v | None => RETURN ret_check_failure end.

(** [while (!q->IsEmpty()) { q->Read(); }]: the queue shrinks by one on
    each turn, so its length bounds the loop. *)
Fixpoint drain_loop (q : nat) (fuel : nat) : Harness unit :=
  match fuel with
  | O => hret tt
  | S f => e <- IsEmpty q ;; if e then hret tt else (_ <- Read q ;; drain_loop q f)
  end.

Definition drain (q : nat) : Harness unit :=
  fun t => drain_loop q (S (List.length (queue_of (ts_net t) q))) t.

(** *** The evaluation functions of [kTestParameters] *)

(** [flip_evens_and_odds] of [SingleProcBackToBackDataSwitchingOps]:
    [i % 2] is C++'s truncating remainder. *)
Definition flip_evens_and_odds (i : Z) : Z :=
  if Z.eqb (Z.rem i 2) 0 then i + 1 else i - 1.

Definition evaluate_SingleProcBackToBackDataSwitchingOps (p : Package)
    (strictness : option ChannelStrictness) : Harness unit :=
  let kMaxTicks := 1000 in
  let kNumInputs := 32 in
  inq <- GetQueueByName p "in" ;;
  outq <- GetQueueByName p "out" ;;
  _ <- hfor (seq 0 kNumInputs) (fun i =>
         st <- Write inq (UBits (Z.of_nat i) 32) ;; RETURN_IF_ERROR st) ;;
  r <- TickUntilOutputH p [(outq, kNumInputs)] kMaxTicks ;;
  let interpreter_status := status_of r in
  if opt_is strictness kRuntimeMutuallyExclusive then
    _ <- EXPECT (status_is kAborted "predicate was not mutually exclusive" interpreter_status) ;;
    RETURN status_ok
  else
    _ <- EXPECT (is_ok_status interpreter_status) ;;
    hfor (seq 0 kNumInputs) (fun i =>
      e <- IsEmpty outq ;;
      _ <- EXPECT (negb e) ;;
      v <- Read outq ;;
      EXPECT (read_is v (UBits (flip_evens_and_odds (Z.of_nat i)) 32))).

Definition evaluate_TwoProcsMutuallyExclusive (p : Package)
    (strictness : option ChannelStrictness) : Harness unit :=
  let kMaxTicks := 1000 in
  let kNumInputs := 32 in
  inq <- GetQueueByName p "in" ;;
  outq <- GetQueueByName p "out" ;;
  _ <- hfor (seq 0 kNumInputs) (fun i =>
         st <- Write inq (UBits (Z.of_nat i) 32) ;; RETURN_IF_ERROR st) ;;
  r <- TickUntilOutputH p [(outq, kNumInputs)] kMaxTicks ;;
  _ <- RETURN_IF_ERROR (status_of r) ;;
  hfor (seq 0 kNumInputs) (fun i =>
    e <- IsEmpty outq ;;
    _ <- EXPECT (negb e) ;;
    v <- Read outq ;;
    EXPECT (read_is v (UBits (Z.of_nat i) 32))).

Definition evaluate_TwoProcsAlwaysFiringCausesError (p : Package)
    (strictness : option ChannelStrictness) : Harness unit :=
  let kMaxTicks := 1000 in
  let kNumInputs := 32 in
  inq <- GetQueueByName p "in" ;;
  _ <- hfor (seq 0 kNumInputs) (fun i =>
         st <- Write inq (UBits (Z.of_nat i) 32) ;; RET_CHECK (is_ok_status st)) ;;
  outq <- GetQueueByName p "out" ;;
  let output_count := [(outq, kNumInputs)] in
  if match strictness with
     | Some k => negb (ChannelStrictness_eqb k kProvenMutuallyExclusive)
     | None => false
     end then
    r <- TickUntilOutputH p output_count kMaxTicks ;;
    _ <- EXPECT (status_is kAborted "predicate was not mutually exclusive" (status_of r)) ;;
    RETURN status_ok
  else
    r <- TickUntilOutputH p output_count kMaxTicks ;;
    _ <- EXPECT (is_ok_status (status_of r)) ;;
    hfor (seq 0 kNumInputs) (fun i =>
      v <- Read outq ;;
      EXPECT (read_is v (UBits (Z.of_nat i) 32))).

(** The predicate word and the output count of [run_with_pred], updated
    as the lambda does ([num_outputs++], [pred |= 1], [pred |= 2]). *)
Definition run_with_pred_counts (fire0 fire1 : bool) : nat * Z :=
  let '(num_outputs, pred) := (1%nat, 0%Z) in
  let '(num_outputs, pred) :=
    if fire0 then (S num_outputs, Z.lor pred 1) else (num_outputs, pred) in
  if fire1 then (S num_outputs, Z.lor pred 2) else (num_outputs, pred).

(** The lambda [run_with_pred] up to its final [TickUntilOutput]: it
    clears [in] and [out], writes [0, 1, 2] to [in] and the predicate word
    to [pred]. *)
Definition run_with_pred_setup (p : Package) (outq : nat) (fire0 fire1 : bool)
    : Harness (nat * nat) :=
  let kNumInputs := 3 in
  inq <- GetQueueByName p "in" ;;
  predq <- GetQueueByName p "pred" ;;
  _ <- drain inq ;;
  _ <- drain outq ;;
  _ <- hfor (seq 0 kNumInputs) (fun i =>
         st <- Write inq (UBits (Z.of_nat i) 32) ;; RETURN_IF_ERROR st) ;;
  let '(num_outputs, pred) := run_with_pred_counts fire0 fire1 in
  st <- Write predq (UBits pred 2) ;;
  _ <- RETURN_IF_ERROR st ;;
  hret (outq, num_outputs).

(** The lambda [run_with_pred]. *)
Definition run_with_pred_lambda (p : Package) (outq : nat) (fire0 fire1 : bool)
    : Harness unit :=
  let kMaxTicks := 20 in
  oc <- run_with_pred_setup p outq fire0 fire1 ;;
  r <- TickUntilOutputH p [oc] kMaxTicks ;;
  RETURN (status_of r).

Definition evaluate_SingleProcWithPartialOrder (p : Package)
    (strictness : option ChannelStrictness) : Harness unit :=
  outq <- GetQueueByName p "out" ;;
  let run_with_pred := fun fire0 fire1 => hcall (run_with_pred_lambda p outq fire0 fire1) in
  run_status <- run_with_pred false false ;;
  _ <- EXPECT (is_ok_status run_status) ;;
  n <- GetSize outq ;;
  _ <- EXPECT (Nat.eqb n 1) ;;
  v <- ReadChecked outq ;;
  _ <- EXPECT (value_eqb v (UBits 0 32)) ;;
  run_status <- run_with_pred true false ;;
  _ <- (if opt_is strictness kRuntimeMutuallyExclusive then
          EXPECT (status_is kAborted "was not mutually exclusive" run_status)
        else
          _ <- EXPECT (is_ok_status run_status) ;;
          v <- ReadChecked outq ;;
          _ <- EXPECT (value_eqb v (UBits 0 32)) ;;
          v <- ReadChecked outq ;;
          EXPECT (value_eqb v (UBits 1 32))) ;;
  run_status <- run_with_pred false true ;;
  _ <- (if opt_is strictness kRuntimeMutuallyExclusive then
          EXPECT (status_is kAborted "was not mutually exclusive" run_status)
        else
          _ <- EXPECT (is_ok_status run_status) ;;
          v <- ReadChecked outq ;;
          _ <- EXPECT (value_eqb v (UBits 0 32)) ;;
          v <- ReadChecked outq ;;
          EXPECT (value_eqb v (UBits 1 32))) ;;
  run_status <- run_with_pred true true ;;
  if opt_is strictness kRuntimeMutuallyExclusive || opt_is strictness kRuntimeOrdered then
    EXPECT (status_is kAborted "was not mutually exclusive" run_status)
  else
    _ <- RET_CHECK (is_ok_status run_status) ;;
    v <- ReadChecked outq ;;
    _ <- EXPECT (value_eqb v (UBits 0 32)) ;;
    v <- ReadChecked outq ;;
    _ <- EXPECT (value_eqb v (UBits 1 32) || value_eqb v (UBits 2 32)) ;;
    let prev_value := v in
    v <- ReadChecked outq ;;
    _ <- EXPECT (value_eqb v (UBits 1 32) || value_eqb v (UBits 2 32)) ;;
    EXPECT (negb (value_eqb v prev_value)).

Definition evaluate_RespectsTokenOrder (p : Package)
    (strictness : option ChannelStrictness) : Harness unit :=
  inq <- GetQueueByName p "in" ;;
  outq <- GetQueueByName p "out" ;;
  predq <- GetQueueByName p "pred_recv" ;;
  let kNumValues := 100 in
  _ <- hfor (seq 0 kNumValues) (fun i =>
         st <- Write inq (UBits (Z.of_nat i) 32) ;; RET_CHECK (is_ok_status st)) ;;
  st <- TickH p ;;
  _ <- EXPECT (is_ok_status st) ;;
  n <- GetSize outq ;;
  _ <- EXPECT (Nat.eqb n 0) ;;
  st <- Write predq (UBits 1 1) ;;
  _ <- EXPECT (is_ok_status st) ;;
  run_status <- TickUntilOutputH p [(outq, 2)] 10 ;;
  if opt_is strictness kRuntimeMutuallyExclusive then
    _ <- EXPECT (status_is kAborted "was not mutually exclusive" (status_of run_status)) ;;
    RETURN status_ok
  else
    _ <- EXPECT (matches (IsOkAndHolds true) run_status) ;;
    v <- Read outq ;; _ <- EXPECT (read_is v (UBits 5 32)) ;;
    v <- Read outq ;; _ <- EXPECT (read_is v (UBits 5 32)) ;;
    n <- GetSize outq ;; _ <- EXPECT (Nat.eqb n 0) ;;
    st <- Write predq (UBits 1 1) ;;
    _ <- EXPECT (is_ok_status st) ;;
    r <- TickUntilOutputH p [(outq, 2)] 10 ;;
    _ <- EXPECT (is_ok_status (status_of r)) ;;
    v <- Read outq ;; _ <- EXPECT (read_is v (UBits 5 32)) ;;
    v <- Read outq ;; _ <- EXPECT (read_is v (UBits 5 32)) ;;
    n <- GetSize outq ;; EXPECT (Nat.eqb n 0).

Definition evaluate_DataDependentReceive (p : Package)
    (strictness : option ChannelStrictness) : Harness unit :=
  inq <- GetQueueByName p "in" ;;
  outq <- GetQueueByName p "out" ;;
  let kNumValues := 100 in
  _ <- hfor (seq 0 kNumValues) (fun i =>
         st <- Write inq (UBits (Z.of_nat i) 32) ;; RET_CHECK (is_ok_status st)) ;;
  r <- TickUntilOutputH p [(outq, kNumValues)] (kNumValues * 2) ;;
  let tick_status := status_of r in
  _ <- (if opt_is strictness kRuntimeMutuallyExclusive then
          EXPECT (status_is kAborted "was not mutually exclusive" tick_status)
        else EXPECT (is_ok_status tick_status)) ;;
  _ <- hfor [0; 1; 2; 3; 4; 5]%Z (fun expected_output =>
         n <- GetSize outq ;;
         _ <- RET_CHECK (Nat.leb 1 n) ;;
         v <- Read outq ;;
         EXPECT (read_is v (UBits expected_output 32))) ;;
  if opt_is strictness kRuntimeMutuallyExclusive then
    n <- GetSize outq ;; _ <- EXPECT (Nat.eqb n 0) ;; RETURN status_ok
  else
    (* [for (i = 6; i < kNumValues; i += 2)] *)
    _ <- hfor (map (fun k => 6 + 2 * Z.of_nat k)%Z (seq 0 47)) (fun i =>
           let expected_value := (i + (i + 1))%Z in
           n <- GetSize outq ;;
           _ <- RET_CHECK (Nat.leb 2 n) ;;
           v <- Read outq ;; _ <- EXPECT (read_is v (UBits expected_value 32)) ;;
           v <- Read outq ;; EXPECT (read_is v (UBits expected_value 32))) ;;
    n <- GetSize outq ;; EXPECT (Nat.eqb n 0).

Definition evaluate_PredicateArrivesOutOfOrder (p : Package)
    (strictness : option ChannelStrictness) : Harness unit :=
  pred0q <- GetQueueByName p "pred0" ;;
  pred1q <- GetQueueByName p "pred1" ;;
  outq <- GetQueueByName p "out" ;;
  let blocked := fun r => status_is_code kDeadlineExceeded (status_of r) ||
                          status_is kInternal "Blocked channels: pred0" (status_of r) in
  st <- TickH p ;;
  _ <- EXPECT (is_ok_status st) ;;
  n <- GetSize outq ;; _ <- EXPECT (Nat.eqb n 0) ;;
  st <- Write pred1q (UBits 1 1) ;; _ <- RETURN_IF_ERROR st ;;
  r <- TickUntilOutputH p [(outq, 1)] 10 ;;
  _ <- EXPECT (blocked r) ;;
  n <- GetSize outq ;; _ <- EXPECT (Nat.eqb n 0) ;;
  st <- Write pred0q (UBits 0 1) ;; _ <- RETURN_IF_ERROR st ;;
  r <- TickUntilOutputH p [(outq, 1)] 10 ;;
  _ <- EXPECT (is_ok_status (status_of r)) ;;
  v <- Read outq ;; _ <- EXPECT (read_is v (UBits 1 32)) ;;
  st <- Write pred1q (UBits 1 1) ;; _ <- RETURN_IF_ERROR st ;;
  r <- TickUntilOutputH p [(outq, 1)] 10 ;;
  _ <- EXPECT (blocked r) ;;
  n <- GetSize outq ;; _ <- EXPECT (Nat.eqb n 0) ;;
  st <- Write pred0q (UBits 1 1) ;; _ <- RETURN_IF_ERROR st ;;
  r <- TickUntilOutputH p [(outq, 2)] 10 ;;
  let tick_status := status_of r in
  if opt_is strictness kRuntimeMutuallyExclusive then
    _ <- EXPECT (status_is kAborted "predicate was not mutually exclusive" tick_status) ;;
    RETURN status_ok
  else
    _ <- EXPECT (is_ok_status tick_status) ;;
    v <- Read outq ;; _ <- EXPECT (read_is v (UBits 0 32)) ;;
    v <- Read outq ;; EXPECT (read_is v (UBits 1 32)).

(** *** [kTestParameters] and the two parameterized tests *)

Record TestParam : Type := mkTestParam {
  test_name : string;
  (** [ir_text] with [$0] substituted and parsed *)
  ir_text : ChannelStrictness -> Package;
  (** [builder_matcher.find(strictness)] *)
  builder_matcher : ChannelStrictness -> option Matcher;
  evaluate : Package -> option ChannelStrictness -> Harness unit
}.

(** The [builder_matcher] shared by all parameters but one. *)
Definition default_builder_matcher (s : ChannelStrictness) : option Matcher :=
  match s with
  | kProvenMutuallyExclusive => Some IsOk
  | kTotalOrder => Some (IsOkAndHolds true)
  | kRuntimeOrdered => Some (IsOkAndHolds true)
  | kRuntimeMutuallyExclusive => Some (IsOkAndHolds true)
  | kArbitraryStaticOrder => Some (IsOkAndHolds true)
  end.

Definition partial_order_builder_matcher (s : ChannelStrictness) : option Matcher :=
  match s with
  | kProvenMutuallyExclusive => Some IsOk
  | kTotalOrder => Some (StatusIs kInternal "is not totally ordered")
  | kRuntimeOrdered => Some (IsOkAndHolds true)
  | kRuntimeMutuallyExclusive => Some (IsOkAndHolds true)
  | kArbitraryStaticOrder => Some (IsOkAndHolds true)
  end.

Definition kTestParameters (default_strictness : ChannelStrictness) : list TestParam :=
  [mkTestParam "SingleProcBackToBackDataSwitchingOps" SingleProcBackToBackDataSwitchingOps
     default_builder_matcher evaluate_SingleProcBackToBackDataSwitchingOps;
   mkTestParam "TwoProcsMutuallyExclusive" TwoProcsMutuallyExclusive
     default_builder_matcher evaluate_TwoProcsMutuallyExclusive;
   mkTestParam "TwoProcsAlwaysFiringCausesError" TwoProcsAlwaysFiringCausesError
     default_builder_matcher evaluate_TwoProcsAlwaysFiringCausesError;
   mkTestParam "SingleProcWithPartialOrder" SingleProcWithPartialOrder
     partial_order_builder_matcher evaluate_SingleProcWithPartialOrder;
   mkTestParam "RespectsTokenOrder" (RespectsTokenOrder default_strictness)
     default_builder_matcher evaluate_RespectsTokenOrder;
   mkTestParam "DataDependentReceive" DataDependentReceive
     default_builder_matcher evaluate_DataDependentReceive;
   mkTestParam "PredicateArrivesOutOfOrder" PredicateArrivesOutOfOrder
     default_builder_matcher evaluate_PredicateArrivesOutOfOrder].

(** [INSTANTIATE_TEST_SUITE_P]: the variants and strictnesses of
    [testing::Combine] (the inlining variant is commented out). *)
Definition InstantiatedPassVariants : list PassVariant :=
  [RunStandardPipelineNoInlineProcs; RunChannelLegalizationPassOnly].

Definition InstantiatedStrictnesses : list ChannelStrictness :=
  [kProvenMutuallyExclusive; kRuntimeMutuallyExclusive; kTotalOrder;
   kRuntimeOrdered; kArbitraryStaticOrder].

Definition instantiation (default_strictness : ChannelStrictness)
    : list (TestParam * PassVariant * ChannelStrictness) :=
  list_prod (list_prod (kTestParameters default_strictness) InstantiatedPassVariants)
            InstantiatedStrictnesses.

(** The name-generator lambda of [INSTANTIATE_TEST_SUITE_P];
    [ChannelStrictnessToString] is not part of this development and is a
    parameter. *)
Definition test_case_name (ChannelStrictnessToString : ChannelStrictness -> string)
    (param : TestParam * PassVariant * ChannelStrictness) : string :=
  let '(tp, v, s) := param in
  test_name tp ++ "_" ++ PassVariantName v ++ "_" ++ ChannelStrictnessToString s.

(** A string without an underscore. *)
Definition no_underscore (s : string) : bool :=
  forallb (fun ch => negb (String.eqb (String ch EmptyString) "_")) (list_ascii_of_string s).

(** The node of a proc with a given name. *)
Definition node_named (pr : Proc) (name : string) : option Node :=
  find (fun n => String.eqb (node_name n) name) (proc_nodes pr).

(** The number of sends on channel [c] among [ns] whose predicate holds
    in [env]. *)
Definition enabled_sends (env : Env) (c : nat) (ns : list Node) : nat :=
  List.length (filter (fun n =>
    match node_op n with
    | OSend _ _ pred c' =>
        Nat.eqb c' c && match pred_enabled env pred with Some b => b | None => false end
    | _ => false
    end) ns).


(** *** Facts about the runtime used by several proofs *)

Lemma run_ticks_fixed (p : Package) (s : NetState) (b : bool) :
  Tick p s = TickOk b s -> forall n, run_ticks p s n = Some s.
Proof.
  intros H n; induction n as [|n IH]; simpl; [reflexivity|].
  rewrite H; exact IH.
Qed.

Lemma scenarioC_facts (st : ChannelStrictness) :
  match legalized (PredicateArrivesOutOfOrder st) with
  | Some p =>
      Tick p (scenarioC_start p) = TickOk true (scenarioC_stuck p) /\
      Tick p (scenarioC_stuck p) = TickOk false (scenarioC_stuck p) /\
      QueueContents p "out" (scenarioC_start p) = [] /\
      QueueContents p "out" (scenarioC_stuck p) = [] /\
      blocked_channels p (scenarioC_stuck p) = ["pred0"] /\
      (let s := QueueWrite p "pred0" (VBits 1 0) (scenarioC_start p) in
       let '(r, s') := TickUntilOutput p s [(2, 1)] 10 in
       r = Ok true /\ QueueContents p "out" s' = [1%Z]) /\
      (let s := QueueWrite p "pred0" (VBits 1 0) (scenarioC_stuck p) in
       let '(r, s') := TickUntilOutput p s [(2, 1)] 10 in
       r = Ok true /\ QueueContents p "out" s' = [1%Z])
  | None => False
  end.
Proof.
  destruct st; vm_compute; repeat split; reflexivity.
Qed.

Lemma nlookup_nupdate {A : Type} (c d : nat) (v : A) (l : list (nat * A)) :
  nlookup c (nupdate d v l) = if Nat.eqb c d then Some v else nlookup c l.
Proof.
  induction l as [|[k w] r IH]; simpl.
  - reflexivity.
  - destruct (Nat.eqb d k) eqn:Edk; simpl.
    + apply Nat.eqb_eq in Edk; subst k. destruct (Nat.eqb c d); reflexivity.
    + destruct (Nat.eqb c k) eqn:Eck.
      * apply Nat.eqb_eq in Eck; subst k.
        destruct (Nat.eqb c d) eqn:Ecd; [|reflexivity].
        apply Nat.eqb_eq in Ecd; subst d. rewrite Nat.eqb_refl in Edk. discriminate.
      * exact IH.
Qed.

Lemma keeps_refl (c : nat) (s : NetState) : keeps c s s.
Proof. split; reflexivity. Qed.

Lemma keeps_trans (c : nat) (s1 s2 s3 : NetState) :
  keeps c s1 s2 -> keeps c s2 s3 -> keeps c s1 s3.
Proof. intros [H1 H2] [H3 H4]; split; congruence. Qed.

Lemma keeps_set_queue (c d : nat) (s : NetState) (q : list Value) :
  d <> c -> keeps c s (set_queue s d q).
Proof.
  intros Hdc; split; unfold queue_of, written_count; simpl; [|reflexivity].
  rewrite nlookup_nupdate. destruct (Nat.eqb c d) eqn:E; [|reflexivity].
  apply Nat.eqb_eq in E; congruence.
Qed.

Lemma keeps_queue_push (c d : nat) (s : NetState) (v : Value) :
  d <> c -> keeps c s (queue_push s d v).
Proof.
  intros Hdc; split; unfold queue_of, written_count; simpl;
    rewrite nlookup_nupdate; destruct (Nat.eqb c d) eqn:E; try reflexivity;
    apply Nat.eqb_eq in E; congruence.
Qed.

Lemma keeps_set_adapter_state (c d : nat) (s : NetState) (a : AdapterState) :
  keeps c s (set_adapter_state s d a).
Proof. split; reflexivity. Qed.

Lemma keeps_set_proc_state (c i : nat) (s : NetState) (ps : ProcState) :
  keeps c s (set_proc_state s i ps).
Proof. split; reflexivity. Qed.

Lemma keeps_reset_adapters (c : nat) (p : Package) (s : NetState) :
  keeps c s (reset_adapters p s).
Proof. split; reflexivity. Qed.

Lemma keeps_grant (c : nat) (s : NetState) (a : Adapter) (x : nat) (l : list Value) :
  keeps c s (grant s a x l).
Proof. apply keeps_set_adapter_state. Qed.

Lemma queue_pop_keeps (c d : nat) (s s' : NetState) (v : Value) :
  d <> c -> queue_pop s d = Some (v, s') -> keeps c s s'.
Proof.
  unfold queue_pop; intros Hdc H.
  destruct (queue_of s d) as [|w q]; [discriminate|].
  inversion H; subst. apply keeps_set_queue; exact Hdc.
Qed.

Lemma exec_node_keeps (p : Package) (c : nat) (env : Env) (n : Node) (s : NetState) :
  node_safe p c n -> node_result_keeps c s (exec_node p env n s).
Proof.
  unfold node_safe, exec_node.
  destruct (node_op n) as [w v|tok pred x|tok d pred x|a i|ts|a|a b|a b|a st w];
    intros Hsafe; simpl.
  - apply keeps_refl.
  - destruct (pred_enabled env pred) as [[|]|];
      destruct (find_channel (pkg_channels p) x); simpl; try apply keeps_refl.
    unfold do_receive. unfold receive_target in Hsafe.
    destruct (find_adapter p x) as [ad|].
    + destruct (adapter_request p ad x s); simpl; [apply keeps_refl|].
      destruct (queue_pop s (ad_channel ad)) as [[v s']|] eqn:Ep; simpl; [|exact I].
      apply keeps_trans with s'; [eapply queue_pop_keeps; eauto|apply keeps_grant].
    + destruct (queue_pop s x) as [[v s']|] eqn:Ep; simpl; [|exact I].
      eapply queue_pop_keeps; eauto.
  - destruct (pred_enabled env pred) as [[|]|];
      destruct (lookup d env) as [v|]; simpl; try apply keeps_refl.
    unfold do_send. destruct (find_adapter p x) as [ad|].
    + destruct (adapter_request p ad x s); simpl; [apply keeps_refl|apply keeps_grant].
    + simpl. apply keeps_queue_push. apply Hsafe; reflexivity.
  - destruct (lookup a env) as [[| |vs]|]; simpl; try apply keeps_refl.
    destruct (nth_error vs i); simpl; apply keeps_refl.
  - apply keeps_refl.
  - destruct (bits_of env a) as [[]|]; simpl; apply keeps_refl.
  - destruct (bits_of env a) as [[]|]; destruct (bits_of env b) as [[]|]; simpl;
      apply keeps_refl.
  - destruct (bits_of env a) as [[]|]; destruct (bits_of env b) as [[]|]; simpl;
      apply keeps_refl.
  - destruct (bits_of env a) as [[]|]; simpl; apply keeps_refl.
Qed.

Lemma run_nodes_keeps (p : Package) (c : nat) (ns : list Node) :
  (forall n, In n ns -> node_safe p c n) ->
  forall pc env s, run_result_keeps c s (run_nodes p ns pc env s).
Proof.
  induction ns as [|n r IH]; intros Hsafe pc env s; simpl.
  - apply keeps_refl.
  - pose proof (exec_node_keeps p c env n s (Hsafe n (or_introl eq_refl))) as Hn.
    destruct (exec_node p env n s) as [v s'| |st s']; simpl in *.
    + pose proof (IH (fun m Hm => Hsafe m (or_intror Hm)) (S pc)
                      ((node_name n, v) :: env) s') as IH'.
      destruct (run_nodes p r (S pc) ((node_name n, v) :: env) s'); simpl in IH' |- *;
        exact (keeps_trans _ _ _ _ Hn IH').
    + apply keeps_refl.
    + exact Hn.
Qed.

Lemma in_skipn_in {A : Type} (k : nat) (l : list A) (x : A) : In x (skipn k l) -> In x l.
Proof.
  revert l; induction k as [|k IH]; intros l H; [exact H|].
  destruct l as [|y l]; [destruct H|]. right; apply IH; exact H.
Qed.

Lemma network_safe (p : Package) (c : nat) :
  network_receives_from p c = false -> network_sends_directly p c = false ->
  forall pr n, In pr (pkg_procs p) -> In n (proc_nodes pr) -> node_safe p c n.
Proof.
  intros Hr Hs pr n Hpr Hn. unfold node_safe.
  destruct (node_op n) as [| tok pred x | tok d pred x | | | | | |] eqn:Eo; auto.
  - intros Heq. apply Bool.not_true_iff_false in Hr. apply Hr.
    apply existsb_exists. exists pr; split; [exact Hpr|].
    apply existsb_exists. exists n; split; [exact Hn|].
    rewrite Eo. apply Nat.eqb_eq; exact Heq.
  - intros Hnone Heq. apply Bool.not_true_iff_false in Hs. apply Hs.
    apply existsb_exists. exists pr; split; [exact Hpr|].
    apply existsb_exists. exists n; split; [exact Hn|].
    rewrite Eo, Hnone, Heq, Nat.eqb_refl. reflexivity.
Qed.

Lemma step_proc_keeps (p : Package) (c : nat) (i : nat) (pr : Proc) (s : NetState) :
  (forall n, In n (proc_nodes pr) -> node_safe p c n) ->
  proc_step_keeps c s (step_proc p i pr s).
Proof.
  intros Hsafe. unfold step_proc.
  destruct (ps_cont (nth i (ns_procs s) default_proc_state)) as [[pc env]|];
  [set (pc0 := pc) | set (pc0 := 0)];
  match goal with
  | |- context [run_nodes p (skipn ?k (proc_nodes pr)) ?k ?e s] =>
      pose proof (run_nodes_keeps p c (skipn k (proc_nodes pr))
                    (fun n Hn => Hsafe n (in_skipn_in _ _ _ Hn)) k e s) as Hr;
      destruct (run_nodes p (skipn k (proc_nodes pr)) k e s) as [env' s'|pc' env' s'|st s'];
      simpl in Hr |- *
  end;
  try (destruct (lookup_all env' (proc_next_state pr)); simpl);
  try (eapply keeps_trans; [exact Hr|apply keeps_set_proc_state]);
  try exact Hr.
Qed.

Lemma tick_pass_keeps (p : Package) (c : nat) (prs : list Proc) :
  (forall pr n, In pr prs -> In n (proc_nodes pr) -> node_safe p c n) ->
  forall i done s progress, pass_keeps c s (tick_pass p prs i done s progress).
Proof.
  induction prs as [|pr prs IH]; intros Hsafe i done s progress.
  - destruct done; simpl; apply keeps_refl.
  - destruct done as [|d done]; simpl; [apply keeps_refl|].
    assert (Hrest : forall pr' n, In pr' prs -> In n (proc_nodes pr') -> node_safe p c n)
      by (intros; eapply Hsafe; [right|]; eassumption).
    destruct d.
    + pose proof (IH Hrest (S i) done s progress) as H.
      destruct (tick_pass p prs (S i) done s progress); exact H.
    + pose proof (step_proc_keeps p c i pr s (fun n Hn => Hsafe pr n (or_introl eq_refl) Hn)) as Hs.
      destruct (step_proc p i pr s) as [s'|pg s'|st s']; simpl in Hs.
      * pose proof (IH Hrest (S i) done s' true) as H.
        destruct (tick_pass p prs (S i) done s' true); simpl in *; eapply keeps_trans; eauto.
      * pose proof (IH Hrest (S i) done s' (progress || pg)) as H.
        destruct (tick_pass p prs (S i) done s' (progress || pg)); simpl in *;
          eapply keeps_trans; eauto.
      * exact Hs.
Qed.

Lemma tick_iterate_keeps (p : Package) (c : nat) :
  network_receives_from p c = false -> network_sends_directly p c = false ->
  forall fuel done s progress, iter_keeps c s (tick_iterate p fuel done s progress).
Proof.
  intros Hr Hs. pose proof (network_safe p c Hr Hs) as Hsafe.
  induction fuel as [|f IH]; intros done s progress; simpl; [apply keeps_refl|].
  pose proof (tick_pass_keeps p c (pkg_procs p) Hsafe 0 done s false) as H.
  destruct (tick_pass p (pkg_procs p) 0 done s false) as [done' s' pg|st s']; simpl in H.
  - destruct pg; [|exact H].
    pose proof (IH done' s' true) as H'.
    destruct (tick_iterate p f done' s' true); simpl in *; eapply keeps_trans; eauto.
  - exact H.
Qed.

(** An aborted tick forwards nothing: a channel fed only through adapters
    and read by no proc keeps exactly the values it had before the tick. *)
Lemma tick_abort_keeps (p : Package) (s : NetState) (st : Status) (s' : NetState) (c : nat) :
  Tick p s = TickAbort st s' ->
  network_receives_from p c = false -> network_sends_directly p c = false ->
  keeps c s s'.
Proof.
  unfold Tick. intros HT Hr Hs.
  pose proof (tick_iterate_keeps p c Hr Hs (tick_fuel p) (map (fun _ => false) (pkg_procs p))
                (reset_adapters p s) false) as H.
  destruct (tick_iterate p (tick_fuel p) (map (fun _ => false) (pkg_procs p))
              (reset_adapters p s) false) as [s1 pg|st1 s1]; [discriminate|].
  inversion HT; subst. simpl in H.
  eapply keeps_trans; [apply keeps_reset_adapters|].
  eapply keeps_trans; [exact H|apply keeps_reset_adapters].
Qed.

Lemma str_append_assoc (a b c : string) : (a ++ b) ++ c = a ++ b ++ c.
Proof. induction a as [|ch a IH]; simpl; [reflexivity|now rewrite IH]. Qed.

(** *** The per-channel step of the pass *)

Lemma legalize_channel_err (c : Channel) (p : Package) (st : Status) :
  legalize_channel c p = Err st ->
  st = not_totally_ordered_error c /\ is_total_order c = true /\
  Nat.ltb (op_count p (ch_id c)) 2 = false /\ is_totally_ordered p (ch_id c) = false.
Proof.
  unfold legalize_channel, is_total_order.
  destruct (Nat.ltb (op_count p (ch_id c)) 2); [discriminate|].
  destruct (ch_strictness c); try discriminate.
  destruct (is_totally_ordered p (ch_id c)); [discriminate|].
  intros H; inversion H; auto.
Qed.

Lemma legalize_channel_pme (c : Channel) (p : Package) :
  is_pme c = true -> legalize_channel c p = Ok (p, false).
Proof.
  unfold is_pme, legalize_channel. intros H.
  destruct (Nat.ltb (op_count p (ch_id c)) 2); [reflexivity|].
  destruct (ch_strictness c); try discriminate; reflexivity.
Qed.


Lemma legalize_channels_all_pme (cs : list Channel) (p : Package) :
  forallb is_pme cs = true -> legalize_channels cs p false = Ok (p, false).
Proof.
  induction cs as [|c cs IH]; simpl; intros H; [reflexivity|].
  apply andb_true_iff in H as [Hc Hcs].
  rewrite (legalize_channel_pme c p Hc). exact (IH Hcs).
Qed.

Lemma tick_until_loop_deadline (p : Package) (start : NetState) (targets : list (nat * nat))
    (s_end : NetState) :
  forall r progress s,
  run_ticks p s r = Some s_end ->
  (forall k sk, k <= r -> run_ticks p s k = Some sk -> targets_met start targets sk = false) ->
  tick_until_loop p start targets r progress s = (Err (deadline_error p s_end), s_end).
Proof.
  induction r as [|r IH]; intros progress s Hrun Hunmet; simpl.
  - simpl in Hrun. inversion Hrun; subst.
    rewrite (Hunmet 0 s_end (le_n 0) eq_refl). reflexivity.
  - rewrite (Hunmet 0 s (Nat.le_0_l _) eq_refl).
    simpl in Hrun. destruct (Tick p s) as [pg s'|st s'] eqn:ET; [|discriminate].
    apply IH; [exact Hrun|].
    intros k sk Hk Hsk. apply (Hunmet (S k) sk); [lia|]. simpl. rewrite ET. exact Hsk.
Qed.

Lemma str_append_nil (a : string) : a ++ "" = a.
Proof. induction a as [|ch a IH]; simpl; [reflexivity|now rewrite IH]. Qed.

(** *** Rewiring *)

Lemma node_on_set_channel (cid d e : nat) (n : Node) :
  node_on cid n = true -> node_on d (set_channel n e) = Nat.eqb e d.
Proof.
  unfold node_on, node_channel, set_channel; simpl.
  destruct (node_op n); simpl; try discriminate; reflexivity.
Qed.

Lemma node_channel_set_channel (cid e : nat) (n : Node) :
  node_on cid n = true -> node_channel (set_channel n e) = Some e.
Proof.
  unfold node_on, node_channel, set_channel; simpl.
  destruct (node_op n); simpl; try discriminate; reflexivity.
Qed.

Lemma node_on_other (cid d : nat) (n : Node) :
  node_on cid n = true -> node_on d n = Nat.eqb cid d.
Proof.
  unfold node_on. destruct (node_channel n) as [e|]; [|discriminate].
  intros H. apply Nat.eqb_eq in H. subst. reflexivity.
Qed.

Lemma node_erase_set_channel (n : Node) (e : nat) :
  node_erase (set_channel n e) = node_erase n.
Proof. unfold node_erase, set_channel; simpl. destruct (node_op n); reflexivity. Qed.

Lemma channel_op_refs_tagged (p : Package) (d : nat) :
  channel_op_refs p d = map tag_ref (filter (tag_on d) (tagged (pkg_procs p))).
Proof.
  unfold channel_op_refs, tagged.
  induction (pkg_procs p) as [|pr prs IH]; simpl; [reflexivity|].
  rewrite filter_app, map_app, IH. f_equal.
  induction (proc_nodes pr) as [|n ns IHn]; simpl; [reflexivity|].
  change (tag_on d (proc_name pr, n)) with (node_on d n).
  destruct (node_on d n); simpl; rewrite IHn; reflexivity.
Qed.

Lemma count_tag_on (q : string) (cid : nat) (ns : list Node) :
  List.length (filter (tag_on cid) (map (fun n => (q, n)) ns)) =
  List.length (filter (node_on cid) ns).
Proof.
  induction ns as [|n ns IH]; simpl; [reflexivity|].
  change (tag_on cid (q, n)) with (node_on cid n).
  destruct (node_on cid n); simpl; rewrite IH; reflexivity.
Qed.

Lemma rewire_nodes_tagged (q : string) (cid base : nat) (ns : list Node) :
  forall k,
  map (fun n => (q, n)) (fst (rewire_nodes cid base k ns)) =
    rewire_tagged cid base k (map (fun n => (q, n)) ns) /\
  snd (rewire_nodes cid base k ns) = k + List.length (filter (node_on cid) ns).
Proof.
  induction ns as [|n ns IH]; intros k; simpl; [split; [reflexivity|lia]|].
  destruct (node_on cid n).
  - destruct (IH (S k)) as [H1 H2].
    destruct (rewire_nodes cid base (S k) ns) as [r' k']; simpl in *.
    split; [rewrite H1; reflexivity|lia].
  - destruct (IH k) as [H1 H2].
    destruct (rewire_nodes cid base k ns) as [r' k']; simpl in *.
    split; [rewrite H1; reflexivity|lia].
Qed.

Lemma rewire_tagged_app (cid base : nat) (l1 l2 : list (string * Node)) :
  forall k,
  rewire_tagged cid base k (l1 ++ l2) =
    (rewire_tagged cid base k l1 ++
     rewire_tagged cid base (k + List.length (filter (tag_on cid) l1)) l2)%list.
Proof.
  induction l1 as [|[q n] l1 IH]; intros k; simpl.
  - rewrite Nat.add_0_r. reflexivity.
  - change (tag_on cid (q, n)) with (node_on cid n).
    destruct (node_on cid n); simpl; rewrite IH; [rewrite Nat.add_succ_r|]; reflexivity.
Qed.

Lemma tagged_rewire_procs (cid base : nat) (prs : list Proc) :
  forall k,
  tagged (rewire_procs cid base k prs) = rewire_tagged cid base k (tagged prs).
Proof.
  induction prs as [|pr prs IH]; intros k; simpl; [reflexivity|].
  unfold rewire_proc.
  destruct (rewire_nodes_tagged (proc_name pr) cid base (proc_nodes pr) k) as [H1 H2].
  destruct (rewire_nodes cid base k (proc_nodes pr)) as [ns k'] eqn:E; simpl in *.
  unfold tagged at 1; simpl. fold (tagged (rewire_procs cid base k' prs)).
  rewrite IH. unfold tagged at 2; simpl. fold (tagged prs).
  rewrite rewire_tagged_app, H1, count_tag_on, H2. reflexivity.
Qed.

Lemma rewire_nodes_erase (cid base : nat) (ns : list Node) :
  forall k, map node_erase (fst (rewire_nodes cid base k ns)) = map node_erase ns.
Proof.
  induction ns as [|n ns IH]; intros k; simpl; [reflexivity|].
  destruct (node_on cid n).
  - specialize (IH (S k)). destruct (rewire_nodes cid base (S k) ns); simpl in *.
    rewrite IH, node_erase_set_channel. reflexivity.
  - specialize (IH k). destruct (rewire_nodes cid base k ns); simpl in *.
    rewrite IH. reflexivity.
Qed.

Lemma rewire_procs_erase (cid base : nat) (prs : list Proc) :
  forall k, map proc_erase (rewire_procs cid base k prs) = map proc_erase prs.
Proof.
  induction prs as [|pr prs IH]; intros k; simpl; [reflexivity|].
  unfold rewire_proc.
  pose proof (rewire_nodes_erase cid base (proc_nodes pr) k) as He.
  destruct (rewire_nodes cid base k (proc_nodes pr)) as [ns k']; simpl in *.
  rewrite IH. unfold proc_erase at 1 3; simpl. rewrite He. reflexivity.
Qed.

Lemma rewire_tagged_other (cid base d : nat) (l : list (string * Node)) :
  forall k, d <> cid -> d < base + k ->
  map tag_ref (filter (tag_on d) (rewire_tagged cid base k l)) =
  map tag_ref (filter (tag_on d) l).
Proof.
  induction l as [|[q n] l IH]; intros k Hd Hlt; simpl; [reflexivity|].
  destruct (node_on cid n) eqn:Ec; simpl.
  - change (tag_on d (q, set_channel n (base + k))) with (node_on d (set_channel n (base + k))).
    change (tag_on d (q, n)) with (node_on d n).
    rewrite (node_on_set_channel cid d _ n Ec), (node_on_other cid d n Ec).
    replace (Nat.eqb (base + k) d) with false by (symmetry; apply Nat.eqb_neq; lia).
    replace (Nat.eqb cid d) with false by (symmetry; apply Nat.eqb_neq; lia).
    apply IH; lia.
  - change (tag_on d (q, n)) with (node_on d n).
    destruct (node_on d n); simpl; rewrite IH by lia; reflexivity.
Qed.

Lemma rewire_tagged_self (cid base : nat) (l : list (string * Node)) :
  forall k, cid < base + k -> filter (tag_on cid) (rewire_tagged cid base k l) = [].
Proof.
  induction l as [|[q n] l IH]; intros k Hlt; simpl; [reflexivity|].
  destruct (node_on cid n) eqn:Ec; simpl.
  - change (tag_on cid (q, set_channel n (base + k))) with (node_on cid (set_channel n (base + k))).
    rewrite (node_on_set_channel cid cid _ n Ec).
    replace (Nat.eqb (base + k) cid) with false by (symmetry; apply Nat.eqb_neq; lia).
    apply IH; lia.
  - change (tag_on cid (q, n)) with (node_on cid n). rewrite Ec. apply IH; lia.
Qed.

Lemma channels_below_none (b d : nat) (l : list (string * Node)) :
  channels_below b l -> b <= d -> filter (tag_on d) l = [].
Proof.
  intros H Hd. induction l as [|t l IH]; simpl; [reflexivity|].
  destruct (tag_on d t) eqn:E.
  - unfold tag_on, node_on in E. destruct (node_channel (snd t)) as [e|] eqn:En; [|discriminate].
    apply Nat.eqb_eq in E. rewrite E in En. specialize (H t d (or_introl eq_refl) En). lia.
  - apply IH. intros t' e Hin. apply H. right; exact Hin.
Qed.

Lemma rewire_tagged_port (cid base : nat) (l : list (string * Node)) (dflt : OpRef) :
  forall k j, channels_below (base + k) l ->
  j < List.length (filter (tag_on cid) l) ->
  map tag_ref (filter (tag_on (base + k + j)) (rewire_tagged cid base k l)) =
  [nth j (map tag_ref (filter (tag_on cid) l)) dflt].
Proof.
  induction l as [|[q n] l IH]; intros k j Hb Hj; simpl in *; [lia|].
  assert (Hb' : channels_below (base + k) l) by (intros t e Hin; apply Hb; right; exact Hin).
  change (tag_on cid (q, n)) with (node_on cid n) in *.
  destruct (node_on cid n) eqn:Ec; simpl in *.
  - assert (Hcid : cid < base + k).
    { unfold node_on in Ec. destruct (node_channel n) as [e|] eqn:En; [|discriminate].
      apply Nat.eqb_eq in Ec. rewrite Ec in En. exact (Hb (q, n) cid (or_introl eq_refl) En). }
    change (tag_on (base + k + j) (q, set_channel n (base + k)))
      with (node_on (base + k + j) (set_channel n (base + k))).
    rewrite (node_on_set_channel cid _ _ n Ec).
    destruct j as [|j].
    + rewrite Nat.add_0_r, Nat.eqb_refl. simpl. f_equal.
      rewrite rewire_tagged_other by lia.
      rewrite (channels_below_none (base + k) (base + k) l Hb' (le_n _)). reflexivity.
    + replace (Nat.eqb (base + k) (base + k + S j)) with false
        by (symmetry; apply Nat.eqb_neq; lia).
      replace (base + k + S j) with (base + S k + j) by lia.
      apply IH; [|lia].
      intros t e Hin He. specialize (Hb' t e Hin He). lia.
  - change (tag_on (base + k + j) (q, n)) with (node_on (base + k + j) n).
    replace (node_on (base + k + j) n) with false.
    + apply IH; assumption.
    + unfold node_on. destruct (node_channel n) as [e|] eqn:En; [|reflexivity].
      specialize (Hb (q, n) e (or_introl eq_refl) En). symmetry; apply Nat.eqb_neq; simpl in Hb; lia.
Qed.

Lemma rewire_tagged_in (cid base : nat) (l : list (string * Node)) :
  forall k t', In t' (rewire_tagged cid base k l) ->
  exists t, In t l /\ fst t' = fst t /\ node_erase (snd t') = node_erase (snd t) /\
    ((node_on cid (snd t) = false /\ t' = t) \/
     (node_on cid (snd t) = true /\
      exists j, j < List.length (filter (tag_on cid) l) /\
                node_channel (snd t') = Some (base + k + j))).
Proof.
  induction l as [|[q n] l IH]; intros k t' Hin; simpl in *; [contradiction|].
  change (tag_on cid (q, n)) with (node_on cid n).
  destruct (node_on cid n) eqn:Ec; simpl in Hin.
  - destruct Hin as [<-|Hin].
    + exists (q, n). simpl. split; [left; reflexivity|]. split; [reflexivity|].
      split; [apply node_erase_set_channel|]. right. split; [exact Ec|].
      exists 0. split; [simpl; lia|].
      rewrite Nat.add_0_r. exact (node_channel_set_channel cid _ n Ec).
    + destruct (IH (S k) t' Hin) as (t & Ht & H1 & H2 & H3).
      exists t. split; [right; exact Ht|]. split; [exact H1|]. split; [exact H2|].
      destruct H3 as [H3|(H3 & j & Hj & Hc)]; [left; exact H3|right].
      split; [exact H3|]. exists (S j). split; [simpl; lia|].
      rewrite Hc. f_equal. lia.
  - destruct Hin as [<-|Hin].
    + exists (q, n). simpl. split; [left; reflexivity|]. split; [reflexivity|].
      split; [reflexivity|]. left. split; [exact Ec|reflexivity].
    + destruct (IH k t' Hin) as (t & Ht & H1 & H2 & H3).
      exists t. split; [right; exact Ht|]. split; [exact H1|]. split; [exact H2|].
      exact H3.
Qed.

(** *** Channel lookup and fresh ids *)

Lemma find_channel_some (cs : list Channel) (e : nat) (ch : Channel) :
  find_channel cs e = Some ch -> In ch cs /\ ch_id ch = e.
Proof.
  induction cs as [|c cs IH]; simpl; [discriminate|].
  destruct (Nat.eqb (ch_id c) e) eqn:E.
  - intros H; inversion H; subst. split; [left; reflexivity|apply Nat.eqb_eq; exact E].
  - intros H. destruct (IH H) as [H1 H2]. split; [right; exact H1|exact H2].
Qed.

Lemma find_channel_app_some (cs cs' : list Channel) (e : nat) (ch : Channel) :
  find_channel cs e = Some ch -> find_channel (cs ++ cs')%list e = Some ch.
Proof.
  induction cs as [|c cs IH]; simpl; [discriminate|].
  destruct (Nat.eqb (ch_id c) e); [tauto|exact IH].
Qed.

Lemma find_channel_app_none (cs cs' : list Channel) (e : nat) :
  (forall c, In c cs -> ch_id c <> e) -> find_channel (cs ++ cs')%list e = find_channel cs' e.
Proof.
  induction cs as [|c cs IH]; simpl; intros H; [reflexivity|].
  replace (Nat.eqb (ch_id c) e) with false by (symmetry; apply Nat.eqb_neq; apply H; left; reflexivity).
  apply IH. intros c' Hc'. apply H. right; exact Hc'.
Qed.

Lemma NoDup_map_inj {A B : Type} (f : A -> B) (l : list A) (x y : A) :
  NoDup (map f l) -> In x l -> In y l -> f x = f y -> x = y.
Proof.
  induction l as [|z l IH]; simpl; [contradiction|].
  intros Hnd Hx Hy Hf. inversion Hnd as [|? ? Hnin Hnd']; subst.
  destruct Hx as [<-|Hx], Hy as [<-|Hy]; [reflexivity| | |exact (IH Hnd' Hx Hy Hf)].
  - exfalso. apply Hnin. rewrite Hf. apply in_map. exact Hy.
  - exfalso. apply Hnin. rewrite <- Hf. apply in_map. exact Hx.
Qed.

Lemma find_channel_in (cs : list Channel) (c : Channel) :
  NoDup (map ch_id cs) -> In c cs -> find_channel cs (ch_id c) = Some c.
Proof.
  intros Hnd Hin. destruct (find_channel cs (ch_id c)) as [ch|] eqn:E.
  - destruct (find_channel_some _ _ _ E) as [H1 H2].
    f_equal. exact (NoDup_map_inj ch_id cs ch c Hnd H1 Hin H2).
  - exfalso. clear Hnd. induction cs as [|c' cs IH]; simpl in *; [contradiction|].
    destruct (Nat.eqb (ch_id c') (ch_id c)) eqn:Ec; [discriminate|].
    destruct Hin as [<-|Hin]; [rewrite Nat.eqb_refl in Ec; discriminate|exact (IH Hin E)].
Qed.

Lemma nodup_nat_NoDup (l : list nat) : nodup_nat l = true <-> NoDup l.
Proof.
  induction l as [|x l IH]; simpl.
  - split; [constructor|reflexivity].
  - rewrite andb_true_iff, negb_true_iff, IH. split.
    + intros [Hx Hl]. constructor; [|exact Hl].
      intros Hin. assert (existsb (Nat.eqb x) l = true)
        by (apply existsb_exists; exists x; split; [exact Hin|apply Nat.eqb_refl]).
      congruence.
    + intros Hnd. inversion Hnd as [|? ? Hnin Hl]; subst. split; [|exact Hl].
      destruct (existsb (Nat.eqb x) l) eqn:E; [|reflexivity].
      apply existsb_exists in E as (y & Hy & Exy). apply Nat.eqb_eq in Exy; subst. contradiction.
Qed.

Lemma NoDup_app_disj {A : Type} (l1 l2 : list A) :
  NoDup l1 -> NoDup l2 -> (forall x, In x l1 -> ~ In x l2) -> NoDup (l1 ++ l2)%list.
Proof.
  induction l1 as [|x l1 IH]; simpl; intros H1 H2 Hd; [exact H2|].
  inversion H1 as [|? ? Hnin H1']; subst. constructor.
  - rewrite in_app_iff. intros [H|H]; [contradiction|exact (Hd x (or_introl eq_refl) H)].
  - apply IH; [exact H1'|exact H2|]. intros y Hy. apply Hd. right; exact Hy.
Qed.

Lemma le_list_max (x : nat) (l : list nat) : In x l -> x <= list_max l.
Proof.
  induction l as [|y l IH]; simpl; [contradiction|].
  intros [<-|H]; [lia|specialize (IH H); lia].
Qed.

Lemma fresh_id_gt (p : Package) (c : Channel) :
  In c (pkg_channels p) -> ch_id c < fresh_id p.
Proof.
  intros H. unfold fresh_id. apply Nat.lt_succ_r. apply le_list_max. apply in_map. exact H.
Qed.

Lemma find_channel_lt (p : Package) (e : nat) (ch : Channel) :
  find_channel (pkg_channels p) e = Some ch -> e < fresh_id p.
Proof.
  intros H. destruct (find_channel_some _ _ _ H) as [H1 H2]. subst. apply fresh_id_gt. exact H1.
Qed.

(** *** Ports of a new adapter *)

Lemma mk_ports_channels (base : nat) (refs : list OpRef) :
  forall k, map port_channel (mk_ports base k refs) = seq (base + k) (List.length refs).
Proof.
  induction refs as [|r refs IH]; intros k; simpl; [reflexivity|].
  rewrite IH. f_equal. f_equal. lia.
Qed.

Lemma mk_ports_in (base : nat) (refs : list OpRef) (dflt : OpRef) :
  forall k pt, In pt (mk_ports base k refs) ->
  exists j, j < List.length refs /\ port_channel pt = base + k + j /\
            port_ref pt = nth j refs dflt.
Proof.
  induction refs as [|r refs IH]; intros k pt; simpl; [contradiction|].
  intros [<-|H].
  - exists 0. simpl. split; [lia|]. split; [lia|]. destruct r; reflexivity.
  - destruct (IH (S k) pt H) as (j & Hj & Hc & Hr).
    exists (S j). split; [lia|]. split; [lia|exact Hr].
Qed.

Lemma mk_ports_nth (base : nat) (refs : list OpRef) (dpt : Port) :
  forall k j, j < List.length refs -> nth j (mk_ports base k refs) dpt =
    mkPort (base + k + j) (op_proc (nth j refs (port_ref dpt))) (op_node (nth j refs (port_ref dpt))).
Proof.
  induction refs as [|r refs IH]; intros k j Hj; simpl in *; [lia|].
  destruct j as [|j]; [rewrite Nat.add_0_r; reflexivity|].
  rewrite IH by lia. f_equal. lia.
Qed.

Lemma find_channel_ports (c : Channel) (ports : list Port) (x : nat) :
  NoDup (map port_channel ports) ->
  forall pt, In pt ports -> port_channel pt = x ->
  find_channel (map (port_decl c) ports) x = Some (port_decl c pt).
Proof.
  intros Hnd pt Hin Hx. subst x.
  change (port_channel pt) with (ch_id (port_decl c pt)).
  apply find_channel_in; [|apply in_map; exact Hin].
  rewrite map_map. exact Hnd.
Qed.

(** *** What inserting an adapter changes *)

Lemma insert_refs_other (c : Channel) (p : Package) (d : nat) :
  d <> ch_id c -> d < fresh_id p ->
  channel_op_refs (insert_adapter c p) d = channel_op_refs p d.
Proof.
  intros H1 H2. rewrite !channel_op_refs_tagged. simpl.
  rewrite tagged_rewire_procs. apply rewire_tagged_other; lia.
Qed.

Lemma insert_refs_self (c : Channel) (p : Package) :
  ch_id c < fresh_id p -> channel_op_refs (insert_adapter c p) (ch_id c) = [].
Proof.
  intros H. rewrite channel_op_refs_tagged. simpl.
  rewrite tagged_rewire_procs, rewire_tagged_self by lia. reflexivity.
Qed.

Lemma insert_refs_port (c : Channel) (p : Package) (j : nat) (dflt : OpRef) :
  channels_below (fresh_id p) (tagged (pkg_procs p)) ->
  j < List.length (channel_op_refs p (ch_id c)) ->
  channel_op_refs (insert_adapter c p) (fresh_id p + j) = [nth j (channel_op_refs p (ch_id c)) dflt].
Proof.
  intros Hb Hj. rewrite !channel_op_refs_tagged in *. cbn [insert_adapter pkg_procs].
  rewrite tagged_rewire_procs. rewrite length_map in Hj.
  replace (fresh_id p + j) with (fresh_id p + 0 + j) by lia.
  apply rewire_tagged_port; [rewrite Nat.add_0_r; exact Hb|exact Hj].
Qed.

Lemma insert_adapters_other (c : Channel) (p : Package) (d : nat) :
  d <> ch_id c -> adapters_on (insert_adapter c p) d = adapters_on p d.
Proof.
  intros H. unfold adapters_on; simpl. rewrite filter_app. simpl.
  replace (Nat.eqb (ch_id c) d) with false by (symmetry; apply Nat.eqb_neq; congruence).
  apply app_nil_r.
Qed.

Lemma insert_adapters_self (c : Channel) (p : Package) :
  List.length (adapters_on (insert_adapter c p) (ch_id c)) =
  S (List.length (adapters_on p (ch_id c))).
Proof.
  unfold adapters_on; simpl. rewrite filter_app, length_app. simpl.
  rewrite Nat.eqb_refl. simpl. lia.
Qed.

Lemma insert_procs_erase (c : Channel) (p : Package) :
  map proc_erase (pkg_procs (insert_adapter c p)) = map proc_erase (pkg_procs p).
Proof. apply rewire_procs_erase. Qed.

Lemma proc_skel_erase (pr : Proc) : proc_skel (proc_erase pr) = proc_skel pr.
Proof.
  unfold proc_skel, proc_erase; simpl. rewrite map_map. apply map_ext.
  intros n. unfold node_skel, node_erase; simpl. destruct (node_op n); reflexivity.
Qed.

Lemma find_proc_erase (prs : list Proc) (q : string) :
  find_proc (map proc_erase prs) q = option_map proc_erase (find_proc prs q).
Proof.
  induction prs as [|pr prs IH]; simpl; [reflexivity|].
  destruct (String.eqb (proc_name pr) q); [reflexivity|exact IH].
Qed.

Lemma op_ordered_erase (p1 p2 : Package) (a b : OpRef) :
  map proc_erase (pkg_procs p1) = map proc_erase (pkg_procs p2) ->
  op_ordered p1 a b = op_ordered p2 a b.
Proof.
  intros H. unfold op_ordered.
  assert (E : option_map proc_erase (find_proc (pkg_procs p1) (op_proc a)) =
              option_map proc_erase (find_proc (pkg_procs p2) (op_proc a)))
    by (rewrite <- !find_proc_erase, H; reflexivity).
  destruct (find_proc (pkg_procs p1) (op_proc a)) as [pr1|],
           (find_proc (pkg_procs p2) (op_proc a)) as [pr2|]; simpl in E;
    try discriminate; [|reflexivity].
  assert (E' : proc_erase pr1 = proc_erase pr2) by congruence.
  rewrite <- (proc_skel_erase pr1), <- (proc_skel_erase pr2), E'.
  reflexivity.
Qed.

Lemma pairwise_ext {A : Type} (f g : A -> A -> bool) (l : list A) :
  (forall a b, f a b = g a b) -> pairwise f l = pairwise g l.
Proof.
  intros H. induction l as [|x l IH]; simpl; [reflexivity|].
  rewrite IH. f_equal. clear IH. induction l as [|y l IHl]; simpl; [reflexivity|].
  rewrite H, IHl. reflexivity.
Qed.

Lemma insert_measures (c : Channel) (p : Package) (d : nat) :
  d <> ch_id c -> d < fresh_id p ->
  op_count (insert_adapter c p) d = op_count p d /\
  is_totally_ordered (insert_adapter c p) d = is_totally_ordered p d.
Proof.
  intros H1 H2. unfold op_count, is_totally_ordered.
  rewrite insert_refs_other, insert_adapters_other by assumption. split; [reflexivity|].
  apply pairwise_ext. intros a b. f_equal. apply op_ordered_erase, insert_procs_erase.
Qed.

Lemma legalize_channel_spec (c : Channel) (p : Package) :
  legalize_channel c p =
  if not_legalizable p c then Err (not_totally_ordered_error c)
  else if gets_adapter p c then Ok (insert_adapter c p, true) else Ok (p, false).
Proof.
  unfold legalize_channel, not_legalizable, gets_adapter, is_total_order, is_pme.
  destruct (Nat.ltb (op_count p (ch_id c)) 2), (ch_strictness c),
           (is_totally_ordered p (ch_id c)); reflexivity.
Qed.

(** *** The pass, channel by channel *)

Lemma legalize_channels_measure (p0 : Package) (cs : list Channel) :
  NoDup (map ch_id cs) ->
  forall p b,
  (forall c, In c cs -> In c (pkg_channels p)) ->
  (forall c, In c cs -> op_count p (ch_id c) = op_count p0 (ch_id c) /\
                        is_totally_ordered p (ch_id c) = is_totally_ordered p0 (ch_id c)) ->
  match legalize_channels cs p b with
  | Ok (_, b') => existsb (not_legalizable p0) cs = false /\
                  b' = b || existsb (gets_adapter p0) cs
  | Err st => existsb (not_legalizable p0) cs = true /\
              exists c, In c cs /\ st = not_totally_ordered_error c
  end.
Proof.
  induction cs as [|c cs IH]; intros Hnd p b Hin Hm; simpl.
  - split; [reflexivity|]. rewrite orb_false_r. reflexivity.
  - inversion Hnd as [|? ? Hnin Hnd']; subst.
    assert (Hnl : not_legalizable p c = not_legalizable p0 c)
      by (unfold not_legalizable; destruct (Hm c (or_introl eq_refl)) as [-> ->]; reflexivity).
    assert (Hga : gets_adapter p c = gets_adapter p0 c)
      by (unfold gets_adapter; destruct (Hm c (or_introl eq_refl)) as [-> _]; reflexivity).
    assert (Hin' : forall c', In c' cs -> In c' (pkg_channels p)) by (intros; apply Hin; right; assumption).
    assert (Hm' : forall c', In c' cs -> op_count p (ch_id c') = op_count p0 (ch_id c') /\
                      is_totally_ordered p (ch_id c') = is_totally_ordered p0 (ch_id c'))
      by (intros; apply Hm; right; assumption).
    rewrite legalize_channel_spec, Hnl, Hga.
    destruct (not_legalizable p0 c); simpl.
    + split; [reflexivity|]. exists c. split; [left; reflexivity|reflexivity].
    + destruct (gets_adapter p0 c); simpl.
      * pose proof (IH Hnd' (insert_adapter c p) (b || true)) as H.
        destruct (legalize_channels cs (insert_adapter c p) (b || true)) as [[p' b']|st].
        -- destruct H as [H1 H2].
           ++ intros c' Hc'. simpl. apply in_or_app. left. apply Hin'. exact Hc'.
           ++ intros c' Hc'. assert (Hne : ch_id c' <> ch_id c)
                by (intros E; apply Hnin; rewrite <- E; apply in_map; exact Hc').
              rewrite (proj1 (insert_measures c p _ Hne (fresh_id_gt p c' (Hin' c' Hc')))),
                      (proj2 (insert_measures c p _ Hne (fresh_id_gt p c' (Hin' c' Hc')))).
              apply Hm'. exact Hc'.
           ++ split; [exact H1|]. rewrite H2. destruct b; reflexivity.
        -- destruct H as [H1 H2].
           ++ intros c' Hc'. simpl. apply in_or_app. left. apply Hin'. exact Hc'.
           ++ intros c' Hc'. assert (Hne : ch_id c' <> ch_id c)
                by (intros E; apply Hnin; rewrite <- E; apply in_map; exact Hc').
              rewrite (proj1 (insert_measures c p _ Hne (fresh_id_gt p c' (Hin' c' Hc')))),
                      (proj2 (insert_measures c p _ Hne (fresh_id_gt p c' (Hin' c' Hc')))).
              apply Hm'. exact Hc'.
           ++ split; [exact H1|]. destruct H2 as (c' & Hc' & ->). exists c'. split; [right; exact Hc'|reflexivity].
      * pose proof (IH Hnd' p (b || false) Hin' Hm') as H.
        destruct (legalize_channels cs p (b || false)) as [[p' b']|st].
        -- destruct H as [H1 H2]. split; [exact H1|]. rewrite H2. destruct b; reflexivity.
        -- destruct H as [H1 (c' & Hc' & ->)]. split; [exact H1|]. exists c'. split; [right; exact Hc'|reflexivity].
Qed.

(** *** The verifier, piece by piece *)

Lemma verify_structure_iff (p : Package) :
  verify_structure p = true <->
  NoDup (map ch_id (pkg_channels p)) /\
  nodup_str (map proc_name (pkg_procs p)) = true /\
  (forall pr, In pr (pkg_procs p) ->
     proc_wellformed pr = true /\ forall n, In n (proc_nodes pr) -> node_dir_ok p n = true) /\
  (forall a, In a (pkg_adapters p) -> adapter_ok p a = true).
Proof.
  unfold verify_structure. rewrite !andb_true_iff, nodup_nat_NoDup, !forallb_forall.
  split.
  - intros (((H1 & H2) & H3) & H4). split; [exact H1|]. split; [exact H2|].
    split; [|exact H4]. intros pr Hpr. specialize (H3 pr Hpr).
    rewrite andb_true_iff, forallb_forall in H3. exact H3.
  - intros (H1 & H2 & H3 & H4). split; [split; [split; assumption|]|exact H4].
    intros pr Hpr. rewrite andb_true_iff, forallb_forall. exact (H3 pr Hpr).
Qed.

Lemma port_ok_iff (p : Package) (c : Channel) (pt : Port) :
  port_ok p c pt = true <->
  (exists ch, find_channel (pkg_channels p) (port_channel pt) = Some ch /\
              ChannelOps_eqb (ch_ops ch) (ch_ops c) = true) /\
  (exists r, channel_op_refs p (port_channel pt) = [r] /\ opref_eqb r (port_ref pt) = true) /\
  List.length (filter (Nat.eqb (port_channel pt)) (all_ports p)) = 1 /\
  adapters_on p (port_channel pt) = [].
Proof.
  unfold port_ok. rewrite !andb_true_iff, !Nat.eqb_eq, length_zero_iff_nil.
  destruct (find_channel (pkg_channels p) (port_channel pt)) as [ch|];
  destruct (channel_op_refs p (port_channel pt)) as [|r [|r' l]]; split;
    try (intros (((H1 & H2) & H3) & H4); try discriminate);
    try (intros ((ch' & H1 & H2) & (r0 & H3 & H4) & H5 & H6); try discriminate);
    try (split; [split; [split|]|]; congruence);
    try (split; [exists ch; split; [reflexivity|exact H1]|];
         split; [exists r; split; [reflexivity|exact H2]|]; split; assumption).
Qed.

Lemma adapter_ok_iff (p : Package) (a : Adapter) :
  adapter_ok p a = true <->
  exists ca, find_channel (pkg_channels p) (ad_channel a) = Some ca /\
    channel_op_refs p (ad_channel a) = [] /\
    List.length (adapters_on p (ad_channel a)) = 1 /\
    ~ In (ad_channel a) (all_ports p) /\
    (forall pt, In pt (ad_ports a) -> port_ok p ca pt = true).
Proof.
  unfold adapter_ok.
  destruct (find_channel (pkg_channels p) (ad_channel a)) as [ca|].
  - rewrite !andb_true_iff, !Nat.eqb_eq, length_zero_iff_nil, negb_true_iff, forallb_forall.
    assert (Hex : existsb (Nat.eqb (ad_channel a)) (all_ports p) = false <->
                  ~ In (ad_channel a) (all_ports p)).
    { split.
      - intros H Hin. assert (existsb (Nat.eqb (ad_channel a)) (all_ports p) = true)
          by (apply existsb_exists; exists (ad_channel a); split; [exact Hin|apply Nat.eqb_refl]).
        congruence.
      - intros H. destruct (existsb (Nat.eqb (ad_channel a)) (all_ports p)) eqn:E; [|reflexivity].
        apply existsb_exists in E as (y & Hy & Ey). apply Nat.eqb_eq in Ey; subst. contradiction. }
    rewrite Hex. split.
    + intros (((H1 & H2) & H3) & H4). exists ca. repeat split; assumption.
    + intros (ca' & E & H1 & H2 & H3 & H4). inversion E; subst.
      split; [split; [split|]|]; assumption.
  - split; [discriminate|]. intros (ca & E & _). discriminate.
Qed.

Lemma in_tagged (prs : list Proc) (q : string) (n : Node) :
  In (q, n) (tagged prs) <-> exists pr, In pr prs /\ q = proc_name pr /\ In n (proc_nodes pr).
Proof.
  unfold tagged. rewrite in_flat_map. split.
  - intros (pr & Hpr & Hin). apply in_map_iff in Hin as (n' & E & Hn). inversion E; subst.
    exists pr. split; [exact Hpr|]. split; [reflexivity|exact Hn].
  - intros (pr & Hpr & -> & Hn). exists pr. split; [exact Hpr|].
    apply in_map_iff. exists n. split; [reflexivity|exact Hn].
Qed.

Lemma proc_wellformed_erase (pr : Proc) : proc_wellformed (proc_erase pr) = proc_wellformed pr.
Proof.
  unfold proc_wellformed, proc_erase; simpl.
  assert (E : map node_sig (map node_erase (proc_nodes pr)) = map node_sig (proc_nodes pr)).
  { rewrite map_map. apply map_ext. intros n. unfold node_sig, node_erase; simpl.
    destruct (node_op n); reflexivity. }
  rewrite E. reflexivity.
Qed.

Lemma filter_eqb_notin (x : nat) (l : list nat) : ~ In x l -> filter (Nat.eqb x) l = [].
Proof.
  induction l as [|y l IH]; simpl; intros H; [reflexivity|].
  replace (Nat.eqb x y) with false by (symmetry; apply Nat.eqb_neq; intros ->; apply H; left; reflexivity).
  apply IH. intros Hin; apply H; right; exact Hin.
Qed.

Lemma filter_eqb_nodup (x : nat) (l : list nat) :
  NoDup l -> In x l -> List.length (filter (Nat.eqb x) l) = 1.
Proof.
  induction l as [|y l IH]; simpl; intros Hnd Hin; [contradiction|].
  inversion Hnd as [|? ? Hnin Hnd']; subst.
  destruct Hin as [<-|Hin].
  - rewrite Nat.eqb_refl, filter_eqb_notin by exact Hnin. reflexivity.
  - replace (Nat.eqb x y) with false by (symmetry; apply Nat.eqb_neq; intros ->; contradiction).
    apply IH; assumption.
Qed.

Lemma node_dir_ok_app (p p' : Package) (extra : list Channel) (n : Node) :
  pkg_channels p' = (pkg_channels p ++ extra)%list ->
  node_dir_ok p n = true -> node_dir_ok p' n = true.
Proof.
  intros Hch. unfold node_dir_ok. rewrite Hch.
  destruct (node_op n); try (intros; reflexivity);
  match goal with |- context [find_channel (pkg_channels p) ?x] =>
    destruct (find_channel (pkg_channels p) x) as [chx|] eqn:E; [|discriminate];
    rewrite (find_channel_app_some _ extra _ _ E); tauto end.
Qed.

Lemma node_dir_ok_rewired (p p' : Package) (n n' : Node) (cid x : nat) (c ch' : Channel) :
  node_dir_ok p n = true -> node_on cid n = true ->
  find_channel (pkg_channels p) cid = Some c ->
  node_erase n' = node_erase n -> node_channel n' = Some x ->
  find_channel (pkg_channels p') x = Some ch' -> ch_ops ch' = ch_ops c ->
  node_dir_ok p' n' = true.
Proof.
  unfold node_dir_ok, node_on, node_channel, node_erase.
  intros Hd Hon Hf He Hx Hf' Hops.
  assert (Eo : op_erase (node_op n') = op_erase (node_op n)) by (apply (f_equal node_op) in He; exact He).
  destruct (node_op n) as [| t pr c0 | t d pr c0 | | | | | |], (node_op n') as [| t' pr' c1 | t' d' pr' c1 | | | | | |];
    simpl in *; try discriminate; inversion Hx; subst;
    apply Nat.eqb_eq in Hon; subst; rewrite Hf in Hd; rewrite Hf', Hops; exact Hd.
Qed.

(** *** Inserting an adapter keeps a package verified *)

Section InsertAdapter.

Variables (c : Channel) (p : Package).
Hypothesis Hv : verify_structure p = true.
Hypothesis Hc : In c (pkg_channels p).
Hypothesis Hcnt : Nat.ltb (op_count p (ch_id c)) 2 = false.

Local Abbreviation ports := (mk_ports (fresh_id p) 0 (channel_op_refs p (ch_id c))).
Local Abbreviation nrefs := (List.length (channel_op_refs p (ch_id c))).

Lemma ia_count_one (x : nat) :
  List.length (channel_op_refs p x) <= 1 -> List.length (adapters_on p x) = 0 -> x <> ch_id c.
Proof.
  intros H1 H2 E. subst x. pose proof Hcnt as H. apply Nat.ltb_ge in H.
  unfold op_count in H. lia.
Qed.

Lemma ia_no_adapter : adapters_on p (ch_id c) = [].
Proof.
  destruct (adapters_on p (ch_id c)) as [|a l] eqn:E; [reflexivity|exfalso].
  assert (Ha : In a (adapters_on p (ch_id c))) by (rewrite E; left; reflexivity).
  unfold adapters_on in Ha. apply filter_In in Ha as [Ha Hch]. apply Nat.eqb_eq in Hch.
  destruct (proj1 (verify_structure_iff p) Hv) as (_ & _ & _ & Had).
  destruct (proj1 (adapter_ok_iff p a) (Had a Ha)) as (ca & _ & Hr & Hl & _).
  pose proof Hcnt as H. apply Nat.ltb_ge in H. unfold op_count in H.
  rewrite <- Hch, Hr, Hl in H. simpl in H. lia.
Qed.

Lemma ia_port_below (x : nat) : In x (all_ports p) -> x < fresh_id p /\ x <> ch_id c.
Proof.
  intros Hx. unfold all_ports in Hx. apply in_flat_map in Hx as (a & Ha & Hx).
  apply in_map_iff in Hx as (pt & <- & Hpt).
  destruct (proj1 (verify_structure_iff p) Hv) as (_ & _ & _ & Had).
  destruct (proj1 (adapter_ok_iff p a) (Had a Ha)) as (ca & _ & _ & _ & _ & Hpts).
  destruct (proj1 (port_ok_iff p ca pt) (Hpts pt Hpt)) as ((chx & Hf & _) & (r & Hr & _) & _ & Hao).
  split; [exact (find_channel_lt p _ chx Hf)|].
  apply ia_count_one; [rewrite Hr; simpl; lia|rewrite Hao; reflexivity].
Qed.

Lemma ia_adapter_below (a : Adapter) :
  In a (pkg_adapters p) -> ad_channel a < fresh_id p /\ ad_channel a <> ch_id c.
Proof.
  intros Ha. destruct (proj1 (verify_structure_iff p) Hv) as (_ & _ & _ & Had).
  destruct (proj1 (adapter_ok_iff p a) (Had a Ha)) as (ca & Hf & _).
  split; [exact (find_channel_lt p _ ca Hf)|].
  intros E. assert (Hin : In a (adapters_on p (ch_id c)))
    by (unfold adapters_on; apply filter_In; split; [exact Ha|apply Nat.eqb_eq; exact E]).
  rewrite ia_no_adapter in Hin. contradiction.
Qed.

Lemma ia_nodes_below : channels_below (fresh_id p) (tagged (pkg_procs p)).
Proof.
  intros [q n] e Hin He. apply in_tagged in Hin as (pr & Hpr & _ & Hn).
  destruct (proj1 (verify_structure_iff p) Hv) as (_ & _ & Hprocs & _).
  destruct (Hprocs pr Hpr) as [_ Hd]. specialize (Hd n Hn).
  unfold node_dir_ok in Hd. unfold node_channel in He. simpl in He.
  destruct (node_op n); inversion He; subst;
    destruct (find_channel (pkg_channels p) e) as [chx|] eqn:Ef;
    try discriminate; exact (find_channel_lt p e chx Ef).
Qed.

Lemma ia_find_c : find_channel (pkg_channels p) (ch_id c) = Some c.
Proof.
  destruct (proj1 (verify_structure_iff p) Hv) as (Hnd & _).
  exact (find_channel_in _ c Hnd Hc).
Qed.

Lemma ia_cid_lt : ch_id c < fresh_id p.
Proof. exact (fresh_id_gt p c Hc). Qed.

Lemma ia_port_channels : map port_channel ports = seq (fresh_id p) nrefs.
Proof. rewrite mk_ports_channels, Nat.add_0_r. reflexivity. Qed.

Lemma ia_all_ports :
  all_ports (insert_adapter c p) = (all_ports p ++ seq (fresh_id p) nrefs)%list.
Proof.
  unfold all_ports. cbn [insert_adapter pkg_adapters]. rewrite flat_map_app. cbn.
  rewrite app_nil_r, ia_port_channels. reflexivity.
Qed.

Lemma ia_old_ids (x : nat) : In x (map ch_id (pkg_channels p)) -> x < fresh_id p.
Proof.
  intros Hx. apply in_map_iff in Hx as (ch & <- & Hch). exact (fresh_id_gt p ch Hch).
Qed.

Lemma ia_find_port (pt : Port) :
  In pt ports ->
  find_channel (pkg_channels (insert_adapter c p)) (port_channel pt) = Some (port_decl c pt).
Proof.
  intros Hpt. cbn [insert_adapter pkg_channels].
  destruct (mk_ports_in (fresh_id p) _ (mkOpRef "" "") 0 pt Hpt) as (j & _ & Hpc & _).
  rewrite find_channel_app_none.
  - apply find_channel_ports; [|exact Hpt|reflexivity].
    rewrite ia_port_channels. apply seq_NoDup.
  - intros ch Hch E. pose proof (fresh_id_gt p ch Hch). lia.
Qed.

Lemma ia_nodup_ids : NoDup (map ch_id (pkg_channels (insert_adapter c p))).
Proof.
  destruct (proj1 (verify_structure_iff p) Hv) as (Hnd & _).
  cbn [insert_adapter pkg_channels]. rewrite map_app, map_map.
  replace (map (fun x => ch_id (port_decl c x)) ports) with (map port_channel ports)
    by (apply map_ext; reflexivity).
  rewrite ia_port_channels. apply NoDup_app_disj; [exact Hnd|apply seq_NoDup|].
  intros x Hx Hs. apply ia_old_ids in Hx. apply in_seq in Hs. lia.
Qed.

Lemma ia_names :
  map proc_name (pkg_procs (insert_adapter c p)) = map proc_name (pkg_procs p).
Proof.
  replace (map proc_name (pkg_procs (insert_adapter c p)))
    with (map proc_name (map proc_erase (pkg_procs (insert_adapter c p))))
    by (rewrite map_map; reflexivity).
  rewrite insert_procs_erase, map_map. reflexivity.
Qed.

Lemma ia_procs (pr' : Proc) :
  In pr' (pkg_procs (insert_adapter c p)) ->
  proc_wellformed pr' = true /\
  forall n', In n' (proc_nodes pr') -> node_dir_ok (insert_adapter c p) n' = true.
Proof.
  intros Hpr'. destruct (proj1 (verify_structure_iff p) Hv) as (Hnd & _ & Hprocs & _).
  split.
  - assert (Hin : In (proc_erase pr') (map proc_erase (pkg_procs p)))
      by (rewrite <- (insert_procs_erase c p); apply in_map; exact Hpr').
    apply in_map_iff in Hin as (pr & He & Hpr).
    rewrite <- proc_wellformed_erase, <- He, proc_wellformed_erase.
    exact (proj1 (Hprocs pr Hpr)).
  - intros n' Hn'.
    assert (Ht : In (proc_name pr', n') (tagged (pkg_procs (insert_adapter c p))))
      by (apply in_tagged; exists pr'; split; [exact Hpr'|split; [reflexivity|exact Hn']]).
    cbn [insert_adapter pkg_procs] in Ht. rewrite tagged_rewire_procs in Ht.
    destruct (rewire_tagged_in _ _ _ 0 _ Ht) as ([q n] & Hin & _ & He & Hcase).
    apply in_tagged in Hin as (pr & Hpr & _ & Hn).
    pose proof (proj2 (Hprocs pr Hpr) n Hn) as Hd.
    destruct Hcase as [(_ & E)|(Hon & j & Hj & Hx)].
    + inversion E; subst. apply (node_dir_ok_app p _ (map (port_decl c) ports)); [reflexivity|exact Hd].
    + simpl in Hon, Hx, He. rewrite Nat.add_0_r in Hx.
      assert (Hjl : j < nrefs) by (rewrite channel_op_refs_tagged, length_map; exact Hj).
      set (pt := nth j ports (mkPort 0 "" "")).
      assert (Hpt : In pt ports) by (apply nth_In; rewrite <- (length_map port_channel), ia_port_channels, length_seq; exact Hjl).
      assert (Hpc : port_channel pt = fresh_id p + j)
        by (unfold pt; rewrite mk_ports_nth by exact Hjl; simpl; lia).
      apply (node_dir_ok_rewired p _ n n' (ch_id c) (fresh_id p + j) c (port_decl c pt));
        [exact Hd|exact Hon|exact ia_find_c|exact He|exact Hx| |reflexivity].
      rewrite <- Hpc. exact (ia_find_port pt Hpt).
Qed.

Lemma ia_not_port_new (x : nat) : x < fresh_id p -> ~ In x (seq (fresh_id p) nrefs).
Proof. intros H Hin. apply in_seq in Hin. lia. Qed.

Lemma ia_old_adapter (a : Adapter) :
  In a (pkg_adapters p) -> adapter_ok (insert_adapter c p) a = true.
Proof.
  intros Ha. destruct (proj1 (verify_structure_iff p) Hv) as (_ & _ & _ & Had).
  destruct (proj1 (adapter_ok_iff p a) (Had a Ha)) as (ca & Hf & Hr & Hl & Hnp & Hpts).
  destruct (ia_adapter_below a Ha) as [Hlt Hne].
  apply adapter_ok_iff. exists ca.
  split; [exact (find_channel_app_some _ _ _ _ Hf)|].
  split; [rewrite insert_refs_other by assumption; exact Hr|].
  split; [rewrite insert_adapters_other by assumption; exact Hl|].
  split.
  - rewrite ia_all_ports, in_app_iff. intros [H|H]; [exact (Hnp H)|exact (ia_not_port_new _ Hlt H)].
  - intros pt Hpt.
    destruct (proj1 (port_ok_iff p ca pt) (Hpts pt Hpt)) as (Hch & (r & Hr' & Heq) & Hcount & Hao).
    assert (Hx : In (port_channel pt) (all_ports p))
      by (unfold all_ports; apply in_flat_map; exists a; split; [exact Ha|apply in_map; exact Hpt]).
    destruct (ia_port_below _ Hx) as [Hxlt Hxne].
    apply port_ok_iff.
    split; [destruct Hch as (chx & Hf' & Hops); exists chx; split;
            [exact (find_channel_app_some _ _ _ _ Hf')|exact Hops]|].
    split; [exists r; split; [rewrite insert_refs_other by assumption; exact Hr'|exact Heq]|].
    split.
    + rewrite ia_all_ports, filter_app, length_app, Hcount,
              (filter_eqb_notin _ _ (ia_not_port_new _ Hxlt)). reflexivity.
    + rewrite insert_adapters_other by assumption. exact Hao.
Qed.

Lemma ia_new_adapter :
  adapter_ok (insert_adapter c p)
    (mkAdapter (ch_id c) (ch_strictness c) ports (ordered_pairs p ports)) = true.
Proof.
  apply adapter_ok_iff. exists c. cbn [ad_channel ad_ports].
  split; [exact (find_channel_app_some _ _ _ _ ia_find_c)|].
  split; [exact (insert_refs_self c p ia_cid_lt)|].
  split; [rewrite insert_adapters_self, ia_no_adapter; reflexivity|].
  split.
  - rewrite ia_all_ports, in_app_iff. intros [H|H].
    + exact (proj2 (ia_port_below _ H) eq_refl).
    + exact (ia_not_port_new _ ia_cid_lt H).
  - intros pt Hpt.
    destruct (mk_ports_in (fresh_id p) _ (mkOpRef "" "") 0 pt Hpt) as (j & Hj & Hpc & Hpr).
    rewrite Nat.add_0_r in Hpc.
    apply port_ok_iff. split; [|split; [|split]].
    + exists (port_decl c pt). split; [exact (ia_find_port pt Hpt)|].
      simpl. destruct (ch_ops c); reflexivity.
    + exists (nth j (channel_op_refs p (ch_id c)) (mkOpRef "" "")).
      split; [rewrite Hpc; exact (insert_refs_port c p j _ ia_nodes_below Hj)|].
      rewrite Hpr. unfold opref_eqb. rewrite !String.eqb_refl. reflexivity.
    + rewrite ia_all_ports, filter_app, length_app, Hpc.
      rewrite filter_eqb_notin.
      * change (0 + List.length (filter (Nat.eqb (fresh_id p + j)) (seq (fresh_id p) nrefs)) = 1).
        apply filter_eqb_nodup; [apply seq_NoDup|apply in_seq; lia].
      * intros H. apply ia_port_below in H. lia.
    + rewrite Hpc, insert_adapters_other by (pose proof ia_cid_lt; lia).
      destruct (adapters_on p (fresh_id p + j)) as [|a l] eqn:E; [reflexivity|exfalso].
      assert (Ha : In a (adapters_on p (fresh_id p + j))) by (rewrite E; left; reflexivity).
      unfold adapters_on in Ha. apply filter_In in Ha as [Ha Hch]. apply Nat.eqb_eq in Hch.
      destruct (ia_adapter_below a Ha) as [Hlt _]. lia.
Qed.

Lemma insert_adapter_verifies : verify_structure (insert_adapter c p) = true.
Proof.
  destruct (proj1 (verify_structure_iff p) Hv) as (_ & Hnames & _ & _).
  apply verify_structure_iff.
  split; [exact ia_nodup_ids|].
  split; [rewrite ia_names; exact Hnames|].
  split; [exact ia_procs|].
  intros a Ha. cbn [insert_adapter pkg_adapters] in Ha. apply in_app_iff in Ha as [Ha|[<-|[]]].
  - exact (ia_old_adapter a Ha).
  - exact ia_new_adapter.
Qed.

End InsertAdapter.

(** *** A run of the pass, channel by channel *)

Lemma gets_adapter_count (p : Package) (c : Channel) :
  gets_adapter p c = true -> Nat.ltb (op_count p (ch_id c)) 2 = false.
Proof.
  unfold gets_adapter. intros H. apply andb_true_iff in H as [_ H].
  apply negb_true_iff. exact H.
Qed.

Lemma legalize_channels_verifies (cs : list Channel) :
  forall p b p' b',
  verify_structure p = true ->
  (forall c, In c cs -> In c (pkg_channels p)) ->
  legalize_channels cs p b = Ok (p', b') ->
  verify_structure p' = true.
Proof.
  induction cs as [|c cs IH]; intros p b p' b' Hv Hin; simpl.
  - intros H; inversion H; subst; exact Hv.
  - rewrite legalize_channel_spec.
    destruct (not_legalizable p c); [discriminate|].
    destruct (gets_adapter p c) eqn:Eg.
    + apply IH.
      * exact (insert_adapter_verifies c p Hv (Hin c (or_introl eq_refl)) (gets_adapter_count p c Eg)).
      * intros c' Hc'. cbn [insert_adapter pkg_channels]. apply in_or_app. left.
        apply Hin. right; exact Hc'.
    + apply IH; [exact Hv|]. intros c' Hc'. apply Hin. right; exact Hc'.
Qed.

Lemma settled_stays (p : Package) (c : Channel) :
  settled p c = true ->
  not_legalizable p c = false /\ gets_adapter p c = false.
Proof.
  unfold settled, not_legalizable, gets_adapter, is_total_order, is_pme.
  destruct (ch_strictness c), (Nat.ltb (op_count p (ch_id c)) 2); simpl;
    intros H; try discriminate; split; reflexivity.
Qed.

Lemma legalize_channels_settles (cs : list Channel) :
  forall p b p' b',
  verify_structure p = true ->
  (forall c, In c cs -> In c (pkg_channels p)) ->
  (forall c, In c (pkg_channels p) -> settled p c = true \/ In c cs) ->
  legalize_channels cs p b = Ok (p', b') ->
  forall c, In c (pkg_channels p') -> settled p' c = true.
Proof.
  induction cs as [|c cs IH]; intros p b p' b' Hv Hin Hset; simpl.
  - intros H; inversion H; subst. intros c Hc. destruct (Hset c Hc) as [H'|[]]. exact H'.
  - rewrite legalize_channel_spec.
    destruct (not_legalizable p c) eqn:En; [discriminate|].
    destruct (gets_adapter p c) eqn:Eg.
    + pose proof (gets_adapter_count p c Eg) as Hcnt.
      pose proof (Hin c (or_introl eq_refl)) as Hc.
      assert (Hnew : settled (insert_adapter c p) c = true).
      { unfold settled, op_count.
        rewrite (insert_refs_self c p (fresh_id_gt p c Hc)), insert_adapters_self,
                (ia_no_adapter c p Hv Hcnt).
        apply orb_true_r. }
      apply IH.
      * exact (insert_adapter_verifies c p Hv Hc Hcnt).
      * intros c' Hc'. cbn [insert_adapter pkg_channels]. apply in_or_app. left.
        apply Hin. right; exact Hc'.
      * intros c' Hc'. cbn [insert_adapter pkg_channels] in Hc'. apply in_app_iff in Hc' as [Hc'|Hc'].
        -- destruct (Hset c' Hc') as [Hs|[<-|Hs]]; [|left; exact Hnew|right; exact Hs].
           destruct (Nat.eq_dec (ch_id c') (ch_id c)) as [E|E].
           ++ destruct (proj1 (verify_structure_iff p) Hv) as (Hnd & _).
              rewrite (NoDup_map_inj ch_id _ c' c Hnd Hc' Hc E). left; exact Hnew.
           ++ left. unfold settled in *.
              rewrite (proj1 (insert_measures c p _ E (fresh_id_gt p c' Hc'))). exact Hs.
        -- left. apply in_map_iff in Hc' as (pt & <- & _). reflexivity.
    + apply IH; [exact Hv| |].
      * intros c' Hc'. apply Hin. right; exact Hc'.
      * intros c' Hc'. destruct (Hset c' Hc') as [Hs|[<-|Hs]]; [left; exact Hs| |right; exact Hs].
        left. unfold settled, gets_adapter in *.
        destruct (is_pme c), (Nat.ltb (op_count p (ch_id c)) 2); simpl in *;
          try reflexivity; discriminate.
Qed.

Lemma legalize_channels_settled (cs : list Channel) (p : Package) :
  (forall c, In c cs -> settled p c = true) ->
  forall b, legalize_channels cs p b = Ok (p, b).
Proof.
  induction cs as [|c cs IH]; intros H b; simpl; [reflexivity|].
  destruct (settled_stays p c (H c (or_introl eq_refl))) as [E1 E2].
  rewrite legalize_channel_spec, E1, E2, orb_false_r.
  apply IH. intros c' Hc'. apply H. right; exact Hc'.
Qed.

(** *** The trace of a tick *)

Lemma run_state_keeps_pc (p : Package) (ns : list Node) (pc pc' : nat) (env : Env) (s : NetState) :
  run_state (run_nodes p ns pc env s) = run_state (run_nodes p ns pc' env s).
Proof.
  revert pc pc' env s; induction ns as [|n r IH]; intros pc pc' env s; simpl; [reflexivity|].
  destruct (exec_node p env n s); simpl; [apply IH|reflexivity|reflexivity].
Qed.

Lemma pass_state_cons_done (d : bool) (r : PassResult) :
  pass_state (cons_done d r) = pass_state r.
Proof. destruct r; reflexivity. Qed.

Section TraceChain.

Variable p : Package.
Variable R : NetState -> NetState -> Prop.
Hypothesis R_refl : forall s, R s s.
Hypothesis R_trans : forall s1 s2 s3, R s1 s2 -> R s2 s3 -> R s1 s3.
Hypothesis R_proc : forall s i ps, R s (set_proc_state s i ps).
Hypothesis R_node : forall pr n env s, In pr (pkg_procs p) -> In n (proc_nodes pr) ->
  R s (ev_post p (mkEvent (proc_name pr) n env s)).

Lemma chain_weaken_start (s0 s : NetState) (l : list Event) (s_end : NetState) :
  R s0 s -> ev_chain R p s l s_end -> ev_chain R p s0 l s_end.
Proof.
  destruct l as [|e r]; simpl; [apply R_trans|].
  intros H (H1 & H2 & H3). split; [eapply R_trans; eassumption|]. split; assumption.
Qed.

Lemma chain_weaken_end (s : NetState) (l : list Event) (s1 s2 : NetState) :
  ev_chain R p s l s1 -> R s1 s2 -> ev_chain R p s l s2.
Proof.
  revert s; induction l as [|e r IH]; simpl; intros s.
  - intros H1 H2; eapply R_trans; eassumption.
  - intros (H1 & H2 & H3) H4. split; [exact H1|]. split; [exact H2|]. apply IH; assumption.
Qed.

Lemma chain_app (s : NetState) (l1 l2 : list Event) (s1 s2 : NetState) :
  ev_chain R p s l1 s1 -> ev_chain R p s1 l2 s2 -> ev_chain R p s (l1 ++ l2) s2.
Proof.
  revert s; induction l1 as [|e r IH]; simpl; intros s.
  - intros H1 H2. exact (chain_weaken_start s s1 l2 s2 H1 H2).
  - intros (H1 & H2 & H3) H4. split; [exact H1|]. split; [exact H2|]. apply IH; assumption.
Qed.

Lemma run_trace_chain (pr : Proc) (ns : list Node) :
  In pr (pkg_procs p) -> (forall n, In n ns -> In n (proc_nodes pr)) ->
  forall pc env s, ev_chain R p s (run_trace p (proc_name pr) ns env s)
                            (run_state (run_nodes p ns pc env s)).
Proof.
  intros Hpr. induction ns as [|n r IH]; intros Hns pc env s; simpl; [apply R_refl|].
  pose proof (R_node pr n env s Hpr (Hns n (or_introl eq_refl))) as Hn.
  split; [apply R_refl|]. split; [exact Hn|].
  unfold ev_post, ev_result in *; cbn [ev_env ev_node ev_state] in *.
  destruct (exec_node p env n s) as [v s'| |st s']; simpl.
  - apply IH. intros m Hm. apply Hns. right; exact Hm.
  - apply R_refl.
  - apply R_refl.
Qed.

Lemma step_trace_chain (i : nat) (pr : Proc) (s : NetState) :
  In pr (pkg_procs p) ->
  ev_chain R p s (step_trace p i pr s) (step_state (step_proc p i pr s)).
Proof.
  intros Hpr. unfold step_trace, step_proc.
  destruct (ps_cont (nth i (ns_procs s) default_proc_state)) as [[pc env]|];
  [set (pc0 := pc) | set (pc0 := 0)];
  match goal with
  | |- context [run_trace p (proc_name pr) (skipn ?k (proc_nodes pr)) ?e s] =>
      pose proof (run_trace_chain pr (skipn k (proc_nodes pr)) Hpr
                    (fun n Hn => in_skipn_in _ _ _ Hn) k e s) as Hr;
      destruct (run_nodes p (skipn k (proc_nodes pr)) k e s) as [env' s'|pc' env' s'|st s'];
      simpl in Hr |- *
  end;
  try (destruct (lookup_all env' (proc_next_state pr)); simpl);
  try (eapply chain_weaken_end; [exact Hr|apply R_proc]);
  exact Hr.
Qed.

Lemma pass_trace_chain (prs : list Proc) :
  (forall pr, In pr prs -> In pr (pkg_procs p)) ->
  forall i done s progress,
  ev_chain R p s (pass_trace p prs i done s) (pass_state (tick_pass p prs i done s progress)).
Proof.
  induction prs as [|pr prs IH]; intros Hprs i done s progress.
  - destruct done; simpl; apply R_refl.
  - destruct done as [|d done]; simpl; [apply R_refl|].
    assert (Hrest : forall pr', In pr' prs -> In pr' (pkg_procs p))
      by (intros; apply Hprs; right; assumption).
    destruct d.
    + rewrite pass_state_cons_done. apply IH. exact Hrest.
    + pose proof (step_trace_chain i pr s (Hprs pr (or_introl eq_refl))) as Hs.
      destruct (step_proc p i pr s) as [s'|pg s'|st s']; simpl in Hs |- *.
      * rewrite pass_state_cons_done. eapply chain_app; [exact Hs|]. apply IH. exact Hrest.
      * rewrite pass_state_cons_done. eapply chain_app; [exact Hs|]. apply IH. exact Hrest.
      * rewrite app_nil_r. exact Hs.
Qed.

Lemma iter_trace_chain (fuel : nat) :
  forall done s progress,
  ev_chain R p s (iter_trace p fuel done s) (iter_state (tick_iterate p fuel done s progress)).
Proof.
  induction fuel as [|f IH]; intros done s progress; simpl; [apply R_refl|].
  pose proof (pass_trace_chain (pkg_procs p) (fun pr H => H) 0 done s false) as Hp.
  destruct (tick_pass p (pkg_procs p) 0 done s false) as [done' s' pg|st s']; simpl in Hp |- *.
  - destruct pg.
    + eapply chain_app; [exact Hp|]. apply IH.
    + rewrite app_nil_r. exact Hp.
  - rewrite app_nil_r. exact Hp.
Qed.

Lemma tick_trace_chain (s : NetState) :
  ev_chain R p (reset_adapters p s) (tick_trace p s)
    (iter_state (tick_iterate p (tick_fuel p) (map (fun _ => false) (pkg_procs p))
                              (reset_adapters p s) false)).
Proof. apply iter_trace_chain. Qed.

Lemma chain_in (s : NetState) (l : list Event) (s_end : NetState) (e : Event) :
  ev_chain R p s l s_end -> In e l -> R s (ev_state e).
Proof.
  revert s; induction l as [|e0 r IH]; simpl; intros s; [contradiction|].
  intros (H1 & H2 & H3) [<-|Hin]; [exact H1|].
  eapply R_trans; [exact H1|]. eapply R_trans; [exact H2|]. exact (IH _ H3 Hin).
Qed.

Lemma chain_order (s : NetState) (l : list Event) (s_end : NetState) :
  ev_chain R p s l s_end ->
  forall i j e1 e2, nth_error l i = Some e1 -> nth_error l j = Some e2 -> i < j ->
  R (ev_post p e1) (ev_state e2).
Proof.
  revert s; induction l as [|e0 r IH]; intros s Hc i j e1 e2 H1 H2 Hij.
  - destruct i; discriminate.
  - destruct Hc as (_ & _ & Hc).
    destruct j as [|j]; [lia|]. simpl in H2.
    destruct i as [|i]; simpl in H1.
    + inversion H1; subst. exact (chain_in _ r s_end e2 Hc (nth_error_In _ _ H2)).
    + exact (IH _ Hc i j e1 e2 H1 H2 ltac:(lia)).
Qed.

End TraceChain.

Lemma run_trace_in (p : Package) (q : string) (ns : list Node) :
  forall env s e, In e (run_trace p q ns env s) -> ev_proc e = q /\ In (ev_node e) ns.
Proof.
  induction ns as [|n r IH]; intros env s e; simpl; [contradiction|].
  intros [<-|H]; [split; [reflexivity|left; reflexivity]|].
  destruct (exec_node p env n s); try contradiction.
  destruct (IH _ _ _ H) as [H1 H2]. split; [exact H1|right; exact H2].
Qed.

Lemma step_trace_in (p : Package) (i : nat) (pr : Proc) (s : NetState) (e : Event) :
  In e (step_trace p i pr s) -> ev_proc e = proc_name pr /\ In (ev_node e) (proc_nodes pr).
Proof.
  unfold step_trace.
  destruct (ps_cont (nth i (ns_procs s) default_proc_state)) as [[pc env]|];
  intros H; destruct (run_trace_in _ _ _ _ _ _ H) as [H1 H2];
  (split; [exact H1|exact (in_skipn_in _ _ _ H2)]).
Qed.

Lemma pass_trace_in (p : Package) (prs : list Proc) :
  forall i done s e, In e (pass_trace p prs i done s) ->
  exists pr, In pr prs /\ ev_proc e = proc_name pr /\ In (ev_node e) (proc_nodes pr).
Proof.
  induction prs as [|pr prs IH]; intros i done s e H.
  - destruct done; contradiction.
  - destruct done as [|d done]; [contradiction|]. simpl in H.
    destruct d.
    + destruct (IH _ _ _ _ H) as (pr' & H1 & H2). exists pr'. split; [right; exact H1|exact H2].
    + apply in_app_iff in H as [H|H].
      * exists pr. split; [left; reflexivity|]. exact (step_trace_in _ _ _ _ _ H).
      * destruct (step_proc p i pr s); try contradiction;
          destruct (IH _ _ _ _ H) as (pr' & H1 & H2); exists pr'; (split; [right; exact H1|exact H2]).
Qed.

Lemma tick_trace_in (p : Package) (s : NetState) (e : Event) :
  In e (tick_trace p s) ->
  exists pr, In pr (pkg_procs p) /\ ev_proc e = proc_name pr /\ In (ev_node e) (proc_nodes pr).
Proof.
  unfold tick_trace. generalize (map (fun _ : Proc => false) (pkg_procs p)) (reset_adapters p s).
  induction (tick_fuel p) as [|f IH]; intros done s0 H; simpl in H; [contradiction|].
  apply in_app_iff in H as [H|H]; [exact (pass_trace_in _ _ _ _ _ _ H)|].
  destruct (tick_pass p (pkg_procs p) 0 done s0 false) as [done' s' [|]|]; try contradiction.
  exact (IH _ _ H).
Qed.

(** An operation of the trace that fails aborts the whole tick, with the
    state it failed in. *)
Lemma run_trace_fail (p : Package) (q : string) (ns : list Node) :
  forall env s e st s2, In e (run_trace p q ns env s) -> ev_result p e = NFail st s2 ->
  forall pc, run_nodes p ns pc env s = RFail st s2.
Proof.
  induction ns as [|n r IH]; intros env s e st s2 H Hf pc; simpl in *; [contradiction|].
  destruct H as [<-|H].
  - unfold ev_result in Hf; simpl in Hf. rewrite Hf. reflexivity.
  - destruct (exec_node p env n s); try contradiction. exact (IH _ _ _ _ _ H Hf _).
Qed.

Lemma step_trace_fail (p : Package) (i : nat) (pr : Proc) (s : NetState) (e : Event)
    (st : Status) (s2 : NetState) :
  In e (step_trace p i pr s) -> ev_result p e = NFail st s2 ->
  step_proc p i pr s = PSFail st s2.
Proof.
  unfold step_trace, step_proc.
  destruct (ps_cont (nth i (ns_procs s) default_proc_state)) as [[pc env]|];
  intros H Hf; rewrite (run_trace_fail _ _ _ _ _ _ _ _ H Hf); reflexivity.
Qed.

Lemma pass_trace_fail (p : Package) (prs : list Proc) :
  forall i done s e st s2, In e (pass_trace p prs i done s) -> ev_result p e = NFail st s2 ->
  forall progress, tick_pass p prs i done s progress = PassFail st s2.
Proof.
  induction prs as [|pr prs IH]; intros i done s e st s2 H Hf progress.
  - destruct done; contradiction.
  - destruct done as [|d done]; [contradiction|]. simpl in H |- *.
    destruct d.
    + rewrite (IH _ _ _ _ _ _ H Hf). reflexivity.
    + apply in_app_iff in H as [H|H].
      * rewrite (step_trace_fail _ _ _ _ _ _ _ H Hf). reflexivity.
      * destruct (step_proc p i pr s); try contradiction;
          rewrite (IH _ _ _ _ _ _ H Hf); reflexivity.
Qed.

Lemma tick_trace_fail (p : Package) (s : NetState) (e : Event) (st : Status) (s2 : NetState) :
  In e (tick_trace p s) -> ev_result p e = NFail st s2 ->
  Tick p s = TickAbort st (reset_adapters p s2).
Proof.
  unfold tick_trace, Tick. intros H Hf.
  assert (Hi : forall fuel done s0 progress, In e (iter_trace p fuel done s0) ->
                 tick_iterate p fuel done s0 progress = IterFail st s2).
  { induction fuel as [|f IH]; intros done s0 progress Hin; simpl in Hin |- *; [contradiction|].
    apply in_app_iff in Hin as [Hin|Hin].
    - rewrite (pass_trace_fail _ _ _ _ _ _ _ _ Hin Hf). reflexivity.
    - destruct (tick_pass p (pkg_procs p) 0 done s0 false) as [done' s' [|]|];
        try contradiction. apply IH. exact Hin. }
  rewrite (Hi _ _ _ false H). reflexivity.
Qed.

(** *** Grants, queues and the trace *)

Lemma adapter_state_set (s : NetState) (c d : nat) (a : AdapterState) :
  adapter_state (set_adapter_state s d a) c =
  if Nat.eqb c d then a else adapter_state s c.
Proof.
  unfold adapter_state, set_adapter_state; cbn [ns_adapters].
  rewrite nlookup_nupdate. destruct (Nat.eqb c d); reflexivity.
Qed.

Lemma granted_le_refl (s : NetState) : granted_le s s.
Proof. intros c. exists []. rewrite app_nil_r. reflexivity. Qed.

Lemma granted_le_trans (s1 s2 s3 : NetState) :
  granted_le s1 s2 -> granted_le s2 s3 -> granted_le s1 s3.
Proof.
  intros H1 H2 c. destruct (H1 c) as [l1 E1], (H2 c) as [l2 E2].
  exists (l1 ++ l2)%list. rewrite E2, E1, app_assoc. reflexivity.
Qed.

Lemma granted_le_same (s s' : NetState) : ns_adapters s' = ns_adapters s -> granted_le s s'.
Proof.
  intros E c. exists []. unfold adapter_state. rewrite E, app_nil_r. reflexivity.
Qed.

Lemma granted_le_grant (s : NetState) (a : Adapter) (x : nat) (l : list Value) :
  granted_le s (grant s a x l).
Proof.
  intros c. unfold grant. rewrite adapter_state_set.
  destruct (Nat.eqb c (ad_channel a)) eqn:E; cbn [as_granted].
  - apply Nat.eqb_eq in E; subst. exists [x]. reflexivity.
  - exists []. rewrite app_nil_r. reflexivity.
Qed.

Lemma queue_pop_adapters (s s' : NetState) (c : nat) (v : Value) :
  queue_pop s c = Some (v, s') -> ns_adapters s' = ns_adapters s.
Proof.
  unfold queue_pop. destruct (queue_of s c); intros H; inversion H; reflexivity.
Qed.

Lemma exec_node_granted (p : Package) (env : Env) (n : Node) (s : NetState) :
  granted_le s (ev_post p (mkEvent "" n env s)).
Proof.
  unfold ev_post, ev_result, exec_node; cbn [ev_env ev_node ev_state].
  destruct (node_op n) as [w v|tok pred x|tok d pred x|a i|ts|a|a b|a b|a st w];
    try apply granted_le_refl.
  - destruct (pred_enabled env pred) as [[|]|];
      destruct (find_channel (pkg_channels p) x); try apply granted_le_refl.
    unfold do_receive. destruct (find_adapter p x) as [ad|].
    + destruct (adapter_request p ad x s); [apply granted_le_refl|].
      destruct (queue_pop s (ad_channel ad)) as [[v s']|] eqn:Ep; [|apply granted_le_refl].
      eapply granted_le_trans; [apply granted_le_same; exact (queue_pop_adapters _ _ _ _ Ep)|].
      apply granted_le_grant.
    + destruct (queue_pop s x) as [[v s']|] eqn:Ep; [|apply granted_le_refl].
      apply granted_le_same; exact (queue_pop_adapters _ _ _ _ Ep).
  - destruct (pred_enabled env pred) as [[|]|];
      destruct (lookup d env) as [v|]; try apply granted_le_refl.
    unfold do_send. destruct (find_adapter p x) as [ad|].
    + destruct (adapter_request p ad x s); [apply granted_le_refl|apply granted_le_grant].
    + apply granted_le_same. reflexivity.
  - destruct (lookup a env) as [[| |vs]|]; try apply granted_le_refl.
    destruct (nth_error vs i); apply granted_le_refl.
  - destruct (bits_of env a) as [[]|]; apply granted_le_refl.
  - destruct (bits_of env a) as [[]|]; destruct (bits_of env b) as [[]|]; apply granted_le_refl.
  - destruct (bits_of env a) as [[]|]; destruct (bits_of env b) as [[]|]; apply granted_le_refl.
  - destruct (bits_of env a) as [[]|]; apply granted_le_refl.
Qed.

Lemma ev_post_proc (p : Package) (q q' : string) (n : Node) (env : Env) (s : NetState) :
  ev_post p (mkEvent q n env s) = ev_post p (mkEvent q' n env s).
Proof. reflexivity. Qed.

Lemma tick_trace_granted (p : Package) (s : NetState) :
  forall i j e1 e2, nth_error (tick_trace p s) i = Some e1 ->
  nth_error (tick_trace p s) j = Some e2 -> i < j ->
  granted_le (ev_post p e1) (ev_state e2).
Proof.
  eapply (chain_order p granted_le granted_le_trans (reset_adapters p s)).
  apply tick_trace_chain.
  - apply granted_le_refl.
  - exact granted_le_trans.
  - intros s0 i ps. apply granted_le_same. reflexivity.
  - intros pr n env s0 _ _. rewrite (ev_post_proc p _ ""). apply exec_node_granted.
Qed.

(** *** Two operations on one adapter in one tick *)

Lemma fires_grants (p : Package) (e : Event) (y : nat) (a : Adapter) :
  node_channel (ev_node e) = Some y -> find_adapter p y = Some a ->
  op_enabled (ev_env e) (ev_node e) = true -> ev_fires p e = true ->
  In y (as_granted (adapter_state (ev_post p e) (ad_channel a))).
Proof.
  destruct e as [q n env s].
  unfold ev_fires, ev_post, ev_result, op_enabled, node_channel, exec_node;
    cbn [ev_node ev_env ev_state].
  destruct (node_op n) as [w v|tok pred x|tok d pred x|a0 i|ts|a0|a0 b|a0 b|a0 st w];
    intros Hc Ha Hen Hf; try discriminate; inversion Hc; subst x.
  - destruct (pred_enabled env pred) as [[|]|]; try discriminate.
    destruct (find_channel (pkg_channels p) y); [|discriminate].
    unfold do_receive in *. rewrite Ha in *.
    destruct (adapter_request p a y s); [discriminate|].
    destruct (queue_pop s (ad_channel a)) as [[v s']|]; [|discriminate].
    unfold grant. rewrite adapter_state_set, Nat.eqb_refl. cbn [as_granted].
    apply in_or_app. right. left. reflexivity.
  - destruct (pred_enabled env pred) as [[|]|]; destruct (lookup d env) as [v|]; try discriminate.
    unfold do_send in *. rewrite Ha in *.
    destruct (adapter_request p a y s); [discriminate|].
    unfold grant. rewrite adapter_state_set, Nat.eqb_refl. cbn [as_granted].
    apply in_or_app. right. left. reflexivity.
Qed.

Lemma request_conflict (p : Package) (e : Event) (x y : nat) (a : Adapter) :
  node_channel (ev_node e) = Some x -> find_adapter p x = Some a ->
  op_enabled (ev_env e) (ev_node e) = true -> node_dir_ok p (ev_node e) = true ->
  In y (as_granted (adapter_state (ev_state e) (ad_channel a))) ->
  adapter_conflict a x y = true ->
  ev_result p e = NFail (not_mutually_exclusive_error p a) (ev_state e).
Proof.
  destruct e as [q n env s]. cbn [ev_node ev_env ev_state].
  intros Hc Ha Hen Hd Hy Hcf.
  assert (Hreq : adapter_request p a x s = Some (not_mutually_exclusive_error p a)).
  { unfold adapter_request.
    replace (existsb (adapter_conflict a x) (as_granted (adapter_state s (ad_channel a))))
      with true; [reflexivity|].
    symmetry. apply existsb_exists. exists y. split; assumption. }
  unfold ev_result, op_enabled, node_dir_ok, node_channel, exec_node in *;
    cbn [ev_node ev_env ev_state] in *.
  destruct (node_op n) as [w v|tok pred x'|tok d pred x'|a0 i|ts|a0|a0 b|a0 b|a0 st w];
    try discriminate; inversion Hc; subst x'.
  - destruct (pred_enabled env pred) as [[|]|]; try discriminate.
    destruct (find_channel (pkg_channels p) x); [|discriminate].
    unfold do_receive. rewrite Ha, Hreq. reflexivity.
  - destruct (pred_enabled env pred) as [[|]|]; destruct (lookup d env) as [v|]; try discriminate.
    unfold do_send. rewrite Ha, Hreq. reflexivity.
Qed.

Lemma trace_node_dir_ok (p : Package) (s : NetState) (e : Event) :
  verify_structure p = true -> In e (tick_trace p s) -> node_dir_ok p (ev_node e) = true.
Proof.
  intros Hv Hin. destruct (tick_trace_in p s e Hin) as (pr & Hpr & _ & Hn).
  destruct (proj1 (verify_structure_iff p) Hv) as (_ & _ & Hprocs & _).
  exact (proj2 (Hprocs pr Hpr) _ Hn).
Qed.

(** Once an operation on a port of adapter [a] has fired in a tick, a
    later enabled operation on a port of [a] that conflicts with it aborts
    the tick, in the state it was attempted in. *)
Lemma tick_conflict_aborts (p : Package) (s : NetState) (a : Adapter) (i j : nat)
    (e1 e2 : Event) (y x : nat) :
  verify_structure p = true ->
  nth_error (tick_trace p s) i = Some e1 -> nth_error (tick_trace p s) j = Some e2 -> i < j ->
  node_channel (ev_node e1) = Some y -> find_adapter p y = Some a ->
  op_enabled (ev_env e1) (ev_node e1) = true -> ev_fires p e1 = true ->
  node_channel (ev_node e2) = Some x -> find_adapter p x = Some a ->
  op_enabled (ev_env e2) (ev_node e2) = true ->
  adapter_conflict a x y = true ->
  Tick p s = TickAbort (not_mutually_exclusive_error p a) (reset_adapters p (ev_state e2)).
Proof.
  intros Hv H1 H2 Hij Hc1 Ha1 Hen1 Hf1 Hc2 Ha2 Hen2 Hcf.
  pose proof (fires_grants p e1 y a Hc1 Ha1 Hen1 Hf1) as Hy.
  destruct (tick_trace_granted p s i j e1 e2 H1 H2 Hij (ad_channel a)) as [l El].
  assert (Hy2 : In y (as_granted (adapter_state (ev_state e2) (ad_channel a))))
    by (rewrite El; apply in_or_app; left; exact Hy).
  pose proof (nth_error_In _ _ H2) as Hin2.
  apply (tick_trace_fail p s e2); [exact Hin2|].
  exact (request_conflict p e2 x y a Hc2 Ha2 Hen2 (trace_node_dir_ok p s e2 Hv Hin2) Hy2 Hcf).
Qed.


Lemma not_mutually_exclusive_error_msg (p : Package) (a : Adapter) :
  status_code (not_mutually_exclusive_error p a) = kAborted /\
  HasSubstr (status_message (not_mutually_exclusive_error p a))
            "predicate was not mutually exclusive".
Proof.
  split; [reflexivity|].
  exists ("Assertion failure on channel " ++ channel_name p (ad_channel a) ++ ": ").
  exists ".". unfold not_mutually_exclusive_error; cbn [status_message].
  rewrite !str_append_assoc. reflexivity.
Qed.

(** *** What an aborted tick leaves on the channels *)









(** *** Ports and the operations they carry *)

Lemma find_adapter_port (p : Package) (x : nat) (a : Adapter) :
  find_adapter p x = Some a ->
  In a (pkg_adapters p) /\
  exists px, port_of a x = Some px /\ In px (ad_ports a) /\ port_channel px = x.
Proof.
  unfold find_adapter. intros H. apply find_some in H as [Ha Hx].
  split; [exact Ha|]. apply existsb_exists in Hx as (pt & Hpt & Ept).
  unfold port_of. destruct (find (fun pt => Nat.eqb (port_channel pt) x) (ad_ports a)) as [px|] eqn:E.
  - apply find_some in E as [E1 E2]. apply Nat.eqb_eq in E2.
    exists px. split; [reflexivity|]. split; assumption.
  - exfalso. pose proof (find_none _ _ E pt Hpt) as E'. simpl in E'. congruence.
Qed.

Lemma in_channel_op_refs (p : Package) (pr : Proc) (n : Node) (x : nat) :
  In pr (pkg_procs p) -> In n (proc_nodes pr) -> node_channel n = Some x ->
  In (mkOpRef (proc_name pr) (node_name n)) (channel_op_refs p x).
Proof.
  intros Hpr Hn Hx. unfold channel_op_refs. apply in_flat_map. exists pr. split; [exact Hpr|].
  apply (in_map (fun n0 => mkOpRef (proc_name pr) (node_name n0))).
  apply filter_In. split; [exact Hn|]. unfold node_on. rewrite Hx. apply Nat.eqb_refl.
Qed.

Lemma opref_eqb_eq (a b : OpRef) : opref_eqb a b = true -> a = b.
Proof.
  destruct a as [a1 a2], b as [b1 b2]. unfold opref_eqb; cbn.
  rewrite andb_true_iff, !String.eqb_eq. intros [-> ->]. reflexivity.
Qed.

(** In a verified package, the port an operation of the trace talks
    through is the port created for that operation. *)
Lemma event_port (p : Package) (s : NetState) (e : Event) (x : nat) (a : Adapter) :
  verify_structure p = true -> In e (tick_trace p s) ->
  node_channel (ev_node e) = Some x -> find_adapter p x = Some a ->
  exists px, port_of a x = Some px /\ In px (ad_ports a) /\ port_channel px = x /\
             port_ref px = ev_ref e.
Proof.
  intros Hv Hin Hx Ha.
  destruct (find_adapter_port p x a Ha) as (Hain & px & Hpo & Hpx & Hpc).
  exists px. split; [exact Hpo|]. split; [exact Hpx|]. split; [exact Hpc|].
  destruct (proj1 (verify_structure_iff p) Hv) as (_ & _ & _ & Had).
  destruct (proj1 (adapter_ok_iff p a) (Had a Hain)) as (ca & _ & _ & _ & _ & Hpts).
  destruct (proj1 (port_ok_iff p ca px) (Hpts px Hpx)) as (_ & (r & Hr & Heq) & _).
  destruct (tick_trace_in p s e Hin) as (pr & Hpr & Hq & Hn).
  pose proof (in_channel_op_refs p pr (ev_node e) x Hpr Hn Hx) as Hin'.
  rewrite <- Hpc, Hr in Hin'. destruct Hin' as [Hin'|[]].
  apply opref_eqb_eq in Heq. unfold ev_ref. rewrite <- Heq, Hq. exact Hin'.
Qed.



(** *** Where the adapters of a legalized package come from *)


Lemma fresh_id_insert (c : Channel) (p : Package) : fresh_id p <= fresh_id (insert_adapter c p).
Proof.
  unfold fresh_id. cbn [insert_adapter pkg_channels]. rewrite map_app, list_max_app. lia.
Qed.

Lemma insert_adapters_self_eq (c : Channel) (p : Package) :
  adapters_on (insert_adapter c p) (ch_id c) =
  (adapters_on p (ch_id c) ++
   [mkAdapter (ch_id c) (ch_strictness c) (mk_ports (fresh_id p) 0 (channel_op_refs p (ch_id c)))
              (ordered_pairs p (mk_ports (fresh_id p) 0 (channel_op_refs p (ch_id c))))])%list.
Proof.
  unfold adapters_on; cbn [insert_adapter pkg_adapters]. rewrite filter_app. simpl.
  rewrite Nat.eqb_refl. reflexivity.
Qed.

(** Every adapter the pass adds is built for one of the channels it
    visited, with that channel's strictness, ports on distinct channels,
    and the token order of a package whose procs differ from the input's
    only in the channels they name. *)
Lemma legalize_channels_origin (cs : list Channel) :
  forall p b p' b', legalize_channels cs p b = Ok (p', b') ->
  map proc_erase (pkg_procs p') = map proc_erase (pkg_procs p) /\
  (forall c, In c (pkg_channels p) -> In c (pkg_channels p')) /\
  forall a, In a (pkg_adapters p') -> In a (pkg_adapters p) \/
    exists c pk, In c cs /\ ad_channel a = ch_id c /\ ad_strictness a = ch_strictness c /\
      map proc_erase (pkg_procs pk) = map proc_erase (pkg_procs p) /\
      NoDup (map port_channel (ad_ports a)) /\ ad_ordered a = ordered_pairs pk (ad_ports a).
Proof.
  induction cs as [|c cs IH]; intros p b p' b'; simpl.
  - intros H; inversion H; subst. split; [reflexivity|]. split; [auto|]. auto.
  - rewrite legalize_channel_spec.
    destruct (not_legalizable p c); [discriminate|].
    destruct (gets_adapter p c); intros H.
    + destruct (IH _ _ _ _ H) as (He & Hc & Ha). split; [|split].
      * rewrite He. apply insert_procs_erase.
      * intros c' Hc'. apply Hc. cbn [insert_adapter pkg_channels]. apply in_or_app. left. exact Hc'.
      * intros a Hin. destruct (Ha a Hin) as [Hin'|(c' & pk & H1 & H2 & H3 & H4 & H5)].
        -- cbn [insert_adapter pkg_adapters] in Hin'. apply in_app_or in Hin' as [Hin'|[<-|[]]].
           ++ left. exact Hin'.
           ++ right. exists c, p. cbn [ad_channel ad_strictness ad_ports ad_ordered].
              split; [left; reflexivity|]. split; [reflexivity|]. split; [reflexivity|].
              split; [reflexivity|]. split; [|reflexivity].
              rewrite mk_ports_channels. apply seq_NoDup.
        -- right. exists c', pk. split; [right; exact H1|]. split; [exact H2|]. split; [exact H3|].
           split; [rewrite H4; apply insert_procs_erase|exact H5].
    + destruct (IH _ _ _ _ H) as (He & Hc & Ha). split; [exact He|]. split; [exact Hc|].
      intros a Hin. destruct (Ha a Hin) as [Hin'|(c' & pk & H1 & H2)]; [left; exact Hin'|].
      right. exists c', pk. split; [right; exact H1|exact H2].
Qed.


Lemma legalize_channels_other (cs : list Channel) :
  forall p b p' b', legalize_channels cs p b = Ok (p', b') ->
  forall d, ~ In d (map ch_id cs) -> d < fresh_id p ->
  adapters_on p' d = adapters_on p d /\ channel_op_refs p' d = channel_op_refs p d.
Proof.
  induction cs as [|c cs IH]; intros p b p' b'; simpl.
  - intros H; inversion H; subst. auto.
  - rewrite legalize_channel_spec.
    destruct (not_legalizable p c); [discriminate|].
    destruct (gets_adapter p c); intros H d Hd Hlt.
    + assert (Hne : d <> ch_id c) by (intros E; apply Hd; left; congruence).
      destruct (IH _ _ _ _ H d (fun h => Hd (or_intror h))
                   (Nat.lt_le_trans _ _ _ Hlt (fresh_id_insert c p))) as [H1 H2].
      rewrite H1, H2, insert_adapters_other, insert_refs_other by assumption. auto.
    + exact (IH _ _ _ _ H d (fun h => Hd (or_intror h)) Hlt).
Qed.

(** Per channel: the pass appends exactly one adapter, with the channel's
    strictness, to a channel that gets one, and leaves the adapters and
    operations of every other channel it visits as they were. *)
Lemma legalize_channels_on (p0 : Package) (cs : list Channel) :
  NoDup (map ch_id cs) ->
  forall p b p' b',
  (forall c, In c cs -> In c (pkg_channels p)) ->
  (forall c, In c cs -> op_count p (ch_id c) = op_count p0 (ch_id c) /\
                        is_totally_ordered p (ch_id c) = is_totally_ordered p0 (ch_id c)) ->
  legalize_channels cs p b = Ok (p', b') ->
  forall d, In d cs ->
  (gets_adapter p0 d = false ->
     adapters_on p' (ch_id d) = adapters_on p (ch_id d) /\
     channel_op_refs p' (ch_id d) = channel_op_refs p (ch_id d)) /\
  (gets_adapter p0 d = true ->
     exists a, adapters_on p' (ch_id d) = (adapters_on p (ch_id d) ++ [a])%list /\
               ad_channel a = ch_id d /\ ad_strictness a = ch_strictness d).
Proof.
  induction cs as [|c cs IH]; intros Hnd p b p' b' Hin Hm; simpl; [intros _ d []|].
  inversion Hnd as [|? ? Hnin Hnd']; subst.
  assert (Hnl : not_legalizable p c = not_legalizable p0 c)
    by (unfold not_legalizable; destruct (Hm c (or_introl eq_refl)) as [-> ->]; reflexivity).
  assert (Hga : gets_adapter p c = gets_adapter p0 c)
    by (unfold gets_adapter; destruct (Hm c (or_introl eq_refl)) as [-> _]; reflexivity).
  assert (Hin' : forall c', In c' cs -> In c' (pkg_channels p)) by (intros; apply Hin; right; assumption).
  assert (Hm' : forall c', In c' cs -> op_count p (ch_id c') = op_count p0 (ch_id c') /\
                    is_totally_ordered p (ch_id c') = is_totally_ordered p0 (ch_id c'))
    by (intros; apply Hm; right; assumption).
  assert (Hclt : ch_id c < fresh_id p) by (apply fresh_id_gt, Hin; left; reflexivity).
  rewrite legalize_channel_spec, Hnl, Hga.
  destruct (not_legalizable p0 c); [discriminate|].
  destruct (gets_adapter p0 c) eqn:Eg; intros H d Hd.
  - assert (Hin1 : forall c', In c' cs -> In c' (pkg_channels (insert_adapter c p)))
      by (intros c' Hc'; cbn [insert_adapter pkg_channels]; apply in_or_app; left; apply Hin'; exact Hc').
    assert (Hne : forall c', In c' cs -> ch_id c' <> ch_id c)
      by (intros c' Hc' E; apply Hnin; rewrite <- E; apply in_map; exact Hc').
    destruct Hd as [<-|Hd].
    + destruct (legalize_channels_other cs _ _ _ _ H (ch_id c) Hnin
                  (Nat.lt_le_trans _ _ _ Hclt (fresh_id_insert c p))) as [H1 _].
      split; [congruence|]. intros _. rewrite H1, insert_adapters_self_eq.
      eexists. split; [reflexivity|]. split; reflexivity.
    + assert (Hm1 : forall c', In c' cs ->
                op_count (insert_adapter c p) (ch_id c') = op_count p0 (ch_id c') /\
                is_totally_ordered (insert_adapter c p) (ch_id c') = is_totally_ordered p0 (ch_id c')).
      { intros c' Hc'.
        rewrite (proj1 (insert_measures c p _ (Hne c' Hc') (fresh_id_gt p c' (Hin' c' Hc')))),
                (proj2 (insert_measures c p _ (Hne c' Hc') (fresh_id_gt p c' (Hin' c' Hc')))).
        apply Hm'. exact Hc'. }
      destruct (IH Hnd' _ _ _ _ Hin1 Hm1 H d Hd) as [H1 H2].
      rewrite insert_adapters_other in H1, H2 by auto.
      rewrite insert_refs_other in H1 by (try apply fresh_id_gt, Hin'; auto).
      split; assumption.
  - destruct Hd as [<-|Hd].
    + destruct (legalize_channels_other cs _ _ _ _ H (ch_id c) Hnin Hclt) as [H1 H2].
      split; [auto|congruence].
    + exact (IH Hnd' _ _ _ _ Hin' Hm' H d Hd).
Qed.

Lemma legalize_channels_err_channel (cs : list Channel) :
  forall p b st, legalize_channels cs p b = Err st ->
  exists c, In c cs /\ is_total_order c = true /\ st = not_totally_ordered_error c.
Proof.
  induction cs as [|c cs IH]; intros p b st; simpl; [discriminate|].
  destruct (legalize_channel c p) as [[p1 b1]|st1] eqn:E; intros H.
  - destruct (IH _ _ _ H) as (c' & H1 & H2). exists c'. split; [right; exact H1|exact H2].
  - inversion H; subst. apply legalize_channel_err in E as (-> & Ht & _).
    exists c. split; [left; reflexivity|]. split; [exact Ht|reflexivity].
Qed.

Lemma pairwise_false {A : Type} (f : A -> A -> bool) (l : list A) :
  pairwise f l = false <->
  exists i j a b, i < j /\ nth_error l i = Some a /\ nth_error l j = Some b /\ f a b = false.
Proof.
  induction l as [|x l IH]; simpl.
  - split; [discriminate|]. intros (i & j & a & b & _ & H & _). destruct i; discriminate.
  - rewrite andb_false_iff, IH. split.
    + intros [H|(i & j & a & b & Hij & Hi & Hj & Hf)].
      * apply Bool.not_true_iff_false in H. rewrite forallb_forall in H.
        destruct (existsb (fun b => negb (f x b)) l) eqn:E.
        -- apply existsb_exists in E as (b & Hb & Eb). apply In_nth_error in Hb as (k & Hk).
           exists 0, (S k), x, b. simpl. split; [lia|]. split; [reflexivity|]. split; [exact Hk|].
           destruct (f x b); [discriminate|reflexivity].
        -- exfalso. apply H. intros b Hb. destruct (f x b) eqn:Eb; [reflexivity|].
           assert (existsb (fun b => negb (f x b)) l = true)
             by (apply existsb_exists; exists b; rewrite Eb; auto). congruence.
      * exists (S i), (S j), a, b. simpl. split; [lia|]. auto.
    + intros (i & j & a & b & Hij & Hi & Hj & Hf). destruct j as [|j]; [lia|].
      destruct i as [|i].
      * left. inversion Hi; subst a. apply Bool.not_true_iff_false. rewrite forallb_forall.
        intros H. simpl in Hj. apply nth_error_In in Hj. rewrite (H b Hj) in Hf. discriminate.
      * right. exists i, j, a, b. split; [lia|]. auto.
Qed.

(** Reading the ports of an adapter the pass added, for two operations of
    a tick. *)
Lemma legalized_adapter (p0 p : Package) (changed : bool) (a : Adapter) :
  verify_structure p0 = true -> pkg_adapters p0 = [] ->
  ChannelLegalizationPass p0 = Ok (p, changed) -> In a (pkg_adapters p) ->
  exists c pk, In c (pkg_channels p0) /\ In c (pkg_channels p) /\
    ad_channel a = ch_id c /\ ad_strictness a = ch_strictness c /\
    map proc_erase (pkg_procs pk) = map proc_erase (pkg_procs p0) /\
    NoDup (map port_channel (ad_ports a)) /\ ad_ordered a = ordered_pairs pk (ad_ports a).
Proof.
  intros Hv Hnone H Ha. unfold ChannelLegalizationPass in H.
  destruct (legalize_channels_origin _ _ _ _ _ H) as (_ & Hc & Horig).
  destruct (Horig a Ha) as [Ha'|(c & pk & H1 & H2)]; [rewrite Hnone in Ha'; destruct Ha'|].
  exists c, pk. split; [exact H1|]. split; [apply Hc; exact H1|exact H2].
Qed.

Lemma not_legalizable_pair (p : Package) (c : Channel) :
  not_legalizable p c = true <->
  ch_strictness c = kTotalOrder /\
  exists i j r1 r2, i < j /\ nth_error (channel_op_refs p (ch_id c)) i = Some r1 /\
    nth_error (channel_op_refs p (ch_id c)) j = Some r2 /\
    op_proc r1 = op_proc r2 /\ op_ordered p r1 r2 = false.
Proof.
  unfold not_legalizable, is_total_order, is_totally_ordered.
  rewrite !andb_true_iff, !negb_true_iff, pairwise_false. split.
  - intros ((Ht & _) & (i & j & r1 & r2 & Hij & Hi & Hj & Hf)).
    split; [destruct (ch_strictness c); congruence|].
    apply orb_false_iff in Hf as [H1 H2]. apply negb_false_iff, String.eqb_eq in H1.
    exists i, j, r1, r2. auto.
  - intros (Ht & (i & j & r1 & r2 & Hij & Hi & Hj & Hp & Ho)).
    rewrite Ht. split; [split; [reflexivity|]|].
    + apply Nat.ltb_ge. unfold op_count.
      assert (j < List.length (channel_op_refs p (ch_id c))) by (apply nth_error_Some; congruence).
      lia.
    + exists i, j, r1, r2. repeat split; try assumption.
      rewrite Hp, String.eqb_refl, Ho. reflexivity.
Qed.

Lemma event_port_proc (p : Package) (s : NetState) (e : Event) (x : nat) (a : Adapter) :
  verify_structure p = true -> In e (tick_trace p s) ->
  node_channel (ev_node e) = Some x -> find_adapter p x = Some a ->
  exists px, port_of a x = Some px /\ port_proc px = ev_proc e.
Proof.
  intros Hv Hin Hx Ha. destruct (event_port p s e x a Hv Hin Hx Ha) as (px & H1 & _ & _ & H2).
  exists px. split; [exact H1|]. unfold port_ref, ev_ref in H2. congruence.
Qed.

Lemma legalized_verifies (p p' : Package) (changed : bool) :
  verify_structure p = true -> ChannelLegalizationPass p = Ok (p', changed) ->
  verify_structure p' = true.
Proof.
  intros Hv H. exact (legalize_channels_verifies _ _ _ _ _ Hv (fun c' H => H) H).
Qed.

(** The adapter the pass built for a channel [c] of a package with no
    adapters has the strictness of [c]. *)
Lemma legalized_adapter_strictness (p0 p : Package) (changed : bool) (c : Channel) (a : Adapter) :
  verify_structure p0 = true -> pkg_adapters p0 = [] ->
  ChannelLegalizationPass p0 = Ok (p, changed) -> In a (pkg_adapters p) ->
  In c (pkg_channels p0) -> ad_channel a = ch_id c ->
  ad_strictness a = ch_strictness c /\ In c (pkg_channels p).
Proof.
  intros Hv0 Hnone Hpass Ha Hc Hac.
  destruct (legalized_adapter p0 p changed a Hv0 Hnone Hpass Ha)
    as (c' & pk & Hc0' & Hcp & Hac' & Hst & _).
  assert (Ec : c' = c).
  { apply (NoDup_map_inj ch_id (pkg_channels p0)); auto.
    - exact (proj1 (proj1 (verify_structure_iff p0) Hv0)).
    - congruence. }
  subst c'. split; assumption.
Qed.

(** ** Claims *)



(** C5: scenario A. With [0..31] written to [in], the legalized network of
    [SingleProcBackToBackDataSwitchingOps] yields on [out] the inputs with
    each adjacent pair swapped under [TotalOrder], [RuntimeOrdered] and
    [ArbitraryStaticOrder]; under [RuntimeMutuallyExclusive] the run aborts
    with the exclusivity-violation message. *)
Theorem C5_scenario_A :
  scenario_in_out (SingleProcBackToBackDataSwitchingOps kTotalOrder) =
    Some (Ok true, swap_pairs (iota32 32)) /\
  scenario_in_out (SingleProcBackToBackDataSwitchingOps kRuntimeOrdered) =
    Some (Ok true, swap_pairs (iota32 32)) /\
  scenario_in_out (SingleProcBackToBackDataSwitchingOps kArbitraryStaticOrder) =
    Some (Ok true, swap_pairs (iota32 32)) /\
  match scenario_in_out (SingleProcBackToBackDataSwitchingOps kRuntimeMutuallyExclusive) with
  | Some (Err st, _) =>
      status_code st = kAborted /\
      HasSubstr (status_message st) "predicate was not mutually exclusive"
  | _ => False
  end.
Proof.
  split; [vm_compute; reflexivity|].
  split; [vm_compute; reflexivity|].
  split; [vm_compute; reflexivity|].
  vm_compute. split; [reflexivity|].
  exists "Assertion failure on channel in: ", ".". reflexivity.
Qed.

(** C6: scenario B. For every strictness, the two alternating procs of
    [TwoProcsMutuallyExclusive], fed [0..31], yield [0..31] on [out] in
    order. *)
Theorem C6_scenario_B (st : ChannelStrictness) :
  scenario_in_out (TwoProcsMutuallyExclusive st) = Some (Ok true, iota32 32).
Proof.
  destruct st; vm_compute; reflexivity.
Qed.

(** C7: scenario C. For every strictness, once only [pred1] is supplied,
    no number of ticks produces anything on [out]; supplying [pred0] at any
    of those points then lets the dependent send complete. *)
Theorem C7_scenario_C (st : ChannelStrictness) :
  match legalized (PredicateArrivesOutOfOrder st) with
  | Some p =>
      forall n, exists s,
        run_ticks p (scenarioC_start p) n = Some s /\
        QueueContents p "out" s = [] /\
        (let s2 := QueueWrite p "pred0" (VBits 1 0) s in
         let '(r, s') := TickUntilOutput p s2 [(2, 1)] 10 in
         r = Ok true /\ QueueContents p "out" s' = [1%Z])
  | None => False
  end.
Proof.
  pose proof (scenarioC_facts st) as F.
  destruct (legalized (PredicateArrivesOutOfOrder st)) as [p|]; [|contradiction].
  destruct F as (H1 & H2 & H3 & H4 & _ & H6 & H7).
  intros [|n].
  - exists (scenarioC_start p). split; [reflexivity|]. split; assumption.
  - exists (scenarioC_stuck p). split.
    + simpl. rewrite H1. exact (run_ticks_fixed p _ false H2 n).
    + split; assumption.
Qed.

(** C2 (counterexample): the two unconditional receives on [in] of
    [TwoProcsAlwaysFiringCausesError] under [TotalOrder] sit in two procs,
    so the token graph does not linearize them; legalization nevertheless
    succeeds and inserts an adapter. *)
Lemma C2_counterexample :
  ch_strictness (hd (chan "" 0 0 ReceiveOnly kProvenMutuallyExclusive)
                   (pkg_channels (TwoProcsAlwaysFiringCausesError kTotalOrder))) = kTotalOrder /\
  op_count (TwoProcsAlwaysFiringCausesError kTotalOrder) 0 = 2 /\
  all_ops_linearized (TwoProcsAlwaysFiringCausesError kTotalOrder) 0 = false /\
  match ChannelLegalizationPass (TwoProcsAlwaysFiringCausesError kTotalOrder) with
  | Ok (p', changed) => changed = true /\ List.length (adapters_on p' 0) = 1
  | Err _ => False
  end.
Proof.
  vm_compute. repeat split; reflexivity.
Qed.

(** C3 (counterexample): the receives on [in] of
    [TwoProcsAlwaysFiringCausesError] under [ProvenMutuallyExclusive] are
    unconditional and in two different procs, yet legalization succeeds
    and leaves the package unchanged. *)
Lemma C3_counterexample :
  map op_proc (channel_op_refs (TwoProcsAlwaysFiringCausesError kProvenMutuallyExclusive) 0)
    = ["proc_a"; "proc_b"] /\
  ChannelLegalizationPass (TwoProcsAlwaysFiringCausesError kProvenMutuallyExclusive)
    = Ok (TwoProcsAlwaysFiringCausesError kProvenMutuallyExclusive, false).
Proof.
  split; vm_compute; reflexivity.
Qed.

(** C3 (amended): legalization skips [ProvenMutuallyExclusive] channels.
    In a package with distinct channel ids, for a channel [c] declared
    [ProvenMutuallyExclusive]: the per-channel step attempts no proof and
    returns any package unchanged, reporting no change; when the pass
    fails, it fails on a [TotalOrder] channel, never on [c]; when it
    succeeds, [c] has no new adapter and the operations on [c] are where
    they were. A package whose channels are all [ProvenMutuallyExclusive]
    comes out unchanged, with no change reported. *)
Theorem C3_pme_channels_skipped (p : Package) (c : Channel) :
  nodup_nat (map ch_id (pkg_channels p)) = true ->
  In c (pkg_channels p) -> ch_strictness c = kProvenMutuallyExclusive ->
  (forall q, legalize_channel c q = Ok (q, false)) /\
  (forall st, ChannelLegalizationPass p = Err st ->
     exists c', In c' (pkg_channels p) /\ ch_strictness c' = kTotalOrder /\
                st = not_totally_ordered_error c') /\
  (forall p' changed, ChannelLegalizationPass p = Ok (p', changed) ->
     adapters_on p' (ch_id c) = adapters_on p (ch_id c) /\
     channel_op_refs p' (ch_id c) = channel_op_refs p (ch_id c)) /\
  (forallb is_pme (pkg_channels p) = true -> ChannelLegalizationPass p = Ok (p, false)).
Proof.
  intros Hnd Hc Hpme. apply nodup_nat_NoDup in Hnd.
  assert (Hp : is_pme c = true) by (unfold is_pme; rewrite Hpme; reflexivity).
  split; [intros q; exact (legalize_channel_pme c q Hp)|]. split; [|split].
  - intros st Hst. destruct (legalize_channels_err_channel _ _ _ _ Hst) as (c' & H1 & H2 & H3).
    exists c'. split; [exact H1|]. split; [|exact H3].
    unfold is_total_order in H2. destruct (ch_strictness c'); congruence.
  - intros p' changed Hpass.
    refine (proj1 (legalize_channels_on p (pkg_channels p) Hnd p false p' changed
                     (fun c H => H) (fun c _ => conj eq_refl eq_refl) Hpass c Hc) _).
    unfold gets_adapter. rewrite Hp. reflexivity.
  - intros H. unfold ChannelLegalizationPass. exact (legalize_channels_all_pme _ p H).
Qed.

Lemma C3_pme_channels_skipped_witness :
  ChannelLegalizationPass (TwoProcsAlwaysFiringCausesError kProvenMutuallyExclusive)
    = Ok (TwoProcsAlwaysFiringCausesError kProvenMutuallyExclusive, false) /\
  legalize_channel (chan "in" 32 0 ReceiveOnly kProvenMutuallyExclusive)
                   (TwoProcsAlwaysFiringCausesError kTotalOrder)
    = Ok (TwoProcsAlwaysFiringCausesError kTotalOrder, false).
Proof.
  destruct (C3_pme_channels_skipped (TwoProcsAlwaysFiringCausesError kProvenMutuallyExclusive)
              (chan "in" 32 0 ReceiveOnly kProvenMutuallyExclusive))
    as (Hstep & _ & _ & Hall); [vm_compute; reflexivity|simpl; left; reflexivity|reflexivity|].
  split; [apply Hall; vm_compute; reflexivity|apply Hstep].
Defined.




(** C8: when [TickUntilOutput] runs its [max_ticks] ticks without an
    abort and the targets are unmet after each of them, it fails with a
    [kDeadlineExceeded] status whose message contains "Blocked channels: "
    followed by the names of the channels the procs are blocked on. *)
Theorem C8_deadline_names_blocked (p : Package) (s : NetState) (targets : list (nat * nat))
    (max_ticks : nat) (s_end : NetState) :
  run_ticks p s max_ticks = Some s_end ->
  forallb (fun k => match run_ticks p s k with
                    | Some sk => negb (targets_met s targets sk)
                    | None => true
                    end) (seq 0 (S max_ticks)) = true ->
  TickUntilOutput p s targets max_ticks = (Err (deadline_error p s_end), s_end) /\
  status_code (deadline_error p s_end) = kDeadlineExceeded /\
  HasSubstr (status_message (deadline_error p s_end))
            ("Blocked channels: " ++ String.concat ", " (blocked_channels p s_end)).
Proof.
  intros Hrun Hall. split; [|split; [reflexivity|]].
  - apply tick_until_loop_deadline; [exact Hrun|].
    intros k sk Hk Hsk. rewrite forallb_forall in Hall.
    assert (Hin : In k (seq 0 (S max_ticks))) by (apply in_seq; lia).
    specialize (Hall k Hin). rewrite Hsk in Hall. apply negb_true_iff. exact Hall.
  - exists deadline_prefix, "". unfold deadline_error; cbn [status_message].
    rewrite str_append_nil. reflexivity.
Qed.

Lemma C8_deadline_names_blocked_witness :
  run_ticks scenarioC_net (scenarioC_start scenarioC_net) 10 = Some (scenarioC_stuck scenarioC_net) /\
  blocked_channels scenarioC_net (scenarioC_stuck scenarioC_net) = ["pred0"] /\
  TickUntilOutput scenarioC_net (scenarioC_start scenarioC_net) [(2, 1)] 10 =
    (Err (deadline_error scenarioC_net (scenarioC_stuck scenarioC_net)),
     scenarioC_stuck scenarioC_net) /\
  status_code (deadline_error scenarioC_net (scenarioC_stuck scenarioC_net)) = kDeadlineExceeded /\
  HasSubstr (status_message (deadline_error scenarioC_net (scenarioC_stuck scenarioC_net)))
    ("Blocked channels: " ++
     String.concat ", " (blocked_channels scenarioC_net (scenarioC_stuck scenarioC_net))).
Proof.
  split; [vm_compute; reflexivity|]. split; [vm_compute; reflexivity|].
  apply C8_deadline_names_blocked; vm_compute; reflexivity.
Defined.

(** C2 (amended): on a verified package, legalization fails exactly when
    some [TotalOrder] channel has two operations in the same proc that the
    token graph leaves unordered ([is_totally_ordered] compares only
    operations of one proc); the failure message then contains "is not
    totally ordered". Operations in different procs never make it fail.
    On success, the pass reports a change exactly when some channel that
    is not [ProvenMutuallyExclusive] has two or more operations, and every
    [TotalOrder] channel with two or more operations gets exactly one new
    adapter, of strictness [TotalOrder]. At run time (for a package that
    had no adapters), that adapter asserts that only one proc fires on the
    channel per tick: when an enabled operation on the channel has fired
    in a tick and an enabled operation of another proc on the channel is
    attempted later in the same tick, the tick aborts with a [kAborted]
    status whose message contains "predicate was not mutually
    exclusive". *)
Theorem C2_total_order_amended (p : Package) :
  verify_structure p = true ->
  (is_ok (ChannelLegalizationPass p) = false <->
   exists c, In c (pkg_channels p) /\ ch_strictness c = kTotalOrder /\
     exists i j r1 r2, i < j /\ nth_error (channel_op_refs p (ch_id c)) i = Some r1 /\
       nth_error (channel_op_refs p (ch_id c)) j = Some r2 /\
       op_proc r1 = op_proc r2 /\ op_ordered p r1 r2 = false) /\
  (forall st, ChannelLegalizationPass p = Err st ->
     existsb (not_legalizable p) (pkg_channels p) = true /\
     HasSubstr (status_message st) "is not totally ordered") /\
  (forall p' changed, ChannelLegalizationPass p = Ok (p', changed) ->
     existsb (not_legalizable p) (pkg_channels p) = false /\
     changed = existsb (gets_adapter p) (pkg_channels p) /\
     (forall c, In c (pkg_channels p) -> ch_strictness c = kTotalOrder ->
        2 <= op_count p (ch_id c) ->
        exists a, adapters_on p' (ch_id c) = (adapters_on p (ch_id c) ++ [a])%list /\
                  ad_strictness a = kTotalOrder) /\
     (pkg_adapters p = [] ->
      forall c a s i j e1 e2 y x,
        In c (pkg_channels p) -> ch_strictness c = kTotalOrder ->
        find_adapter p' y = Some a -> find_adapter p' x = Some a -> ad_channel a = ch_id c ->
        nth_error (tick_trace p' s) i = Some e1 -> nth_error (tick_trace p' s) j = Some e2 ->
        i < j ->
        node_channel (ev_node e1) = Some y -> op_enabled (ev_env e1) (ev_node e1) = true ->
        ev_fires p' e1 = true ->
        node_channel (ev_node e2) = Some x -> op_enabled (ev_env e2) (ev_node e2) = true ->
        ev_proc e1 <> ev_proc e2 ->
        Tick p' s = TickAbort (not_mutually_exclusive_error p' a) (reset_adapters p' (ev_state e2)) /\
        status_code (not_mutually_exclusive_error p' a) = kAborted /\
        HasSubstr (status_message (not_mutually_exclusive_error p' a))
                  "predicate was not mutually exclusive")).
Proof.
  intros Hv. pose proof (proj1 (proj1 (verify_structure_iff p) Hv)) as Hnd.
  pose proof (legalize_channels_measure p (pkg_channels p) Hnd p false
                (fun c H => H) (fun c _ => conj eq_refl eq_refl)) as Hm.
  fold (ChannelLegalizationPass p) in Hm.
  assert (Hex : existsb (not_legalizable p) (pkg_channels p) = true <->
    exists c, In c (pkg_channels p) /\ ch_strictness c = kTotalOrder /\
     exists i j r1 r2, i < j /\ nth_error (channel_op_refs p (ch_id c)) i = Some r1 /\
       nth_error (channel_op_refs p (ch_id c)) j = Some r2 /\
       op_proc r1 = op_proc r2 /\ op_ordered p r1 r2 = false).
  { rewrite existsb_exists. split.
    - intros (c & Hc & Hn). exists c. split; [exact Hc|]. apply not_legalizable_pair. exact Hn.
    - intros (c & Hc & Hp). exists c. split; [exact Hc|]. apply not_legalizable_pair. exact Hp. }
  split; [|split].
  - rewrite <- Hex. destruct (ChannelLegalizationPass p) as [[p' b']|st]; simpl.
    + destruct Hm as [-> _]. split; discriminate.
    + destruct Hm as [-> _]. split; reflexivity.
  - intros st Hst. rewrite Hst in Hm. destruct Hm as [H1 (c & _ & ->)]. split; [exact H1|].
    exists ("Channel " ++ ch_name c ++ " "), ".".
    unfold not_totally_ordered_error; cbn [status_message].
    rewrite !str_append_assoc. reflexivity.
  - intros p' changed Hpass. rewrite Hpass in Hm. destruct Hm as [H1 H2].
    split; [exact H1|]. split; [exact H2|]. split.
    + intros c Hc Ht Hcount.
      assert (Hg : gets_adapter p c = true).
      { unfold gets_adapter, is_pme. rewrite Ht. simpl. apply negb_true_iff, Nat.ltb_ge. exact Hcount. }
      destruct (proj2 (legalize_channels_on p (pkg_channels p) Hnd p false p' changed
                         (fun c H => H) (fun c _ => conj eq_refl eq_refl) Hpass c Hc) Hg)
        as (a & Ea & _ & Hs).
      exists a. rewrite Ht in Hs. split; assumption.
    + intros Hnone c a s i j e1 e2 y x Hc Ht Hay Hax Hac H1' H2' Hij Hy Hen1 Hf1 Hx Hen2 Hproc.
      pose proof (legalized_verifies p p' changed Hv Hpass) as Hv'.
      assert (Ha : In a (pkg_adapters p')) by exact (proj1 (find_adapter_port p' x a Hax)).
      destruct (legalized_adapter_strictness p p' changed c a Hv Hnone Hpass Ha Hc Hac) as [Hst _].
      destruct (event_port_proc p' s e1 y a Hv' (nth_error_In _ _ H1') Hy Hay) as (py & Epy & Ppy).
      destruct (event_port_proc p' s e2 x a Hv' (nth_error_In _ _ H2') Hx Hax) as (px & Epx & Ppx).
      split; [|exact (not_mutually_exclusive_error_msg p' a)].
      apply (tick_conflict_aborts p' s a i j e1 e2 y x); auto.
      unfold adapter_conflict, same_proc_ports. rewrite Hst, Ht, Epx, Epy, Ppx, Ppy.
      destruct (String.eqb (ev_proc e2) (ev_proc e1)) eqn:E; [|reflexivity].
      apply String.eqb_eq in E. congruence.
Qed.

Lemma C2_total_order_amended_witness :
  ChannelLegalizationPass (TwoProcsAlwaysFiringCausesError kTotalOrder) =
    Ok (TwoProcsAlwaysFiring_to, true) /\
  ev_proc (trace_at TwoProcsAlwaysFiring_to TwoProcsAlwaysFiring_start 0) = "proc_a" /\
  ev_proc (trace_at TwoProcsAlwaysFiring_to TwoProcsAlwaysFiring_start 4) = "proc_b" /\
  Tick TwoProcsAlwaysFiring_to TwoProcsAlwaysFiring_start =
    TickAbort (not_mutually_exclusive_error TwoProcsAlwaysFiring_to TwoProcsAlwaysFiring_in_adapter)
      (reset_adapters TwoProcsAlwaysFiring_to
         (ev_state (trace_at TwoProcsAlwaysFiring_to TwoProcsAlwaysFiring_start 4))).
Proof.
  split; [vm_compute; reflexivity|].
  split; [vm_compute; reflexivity|]. split; [vm_compute; reflexivity|].
  destruct (C2_total_order_amended (TwoProcsAlwaysFiringCausesError kTotalOrder))
    as (_ & _ & Hok); [vm_compute; reflexivity|].
  destruct (Hok TwoProcsAlwaysFiring_to true) as (_ & _ & _ & Hrt); [vm_compute; reflexivity|].
  destruct (Hrt ltac:(vm_compute; reflexivity)
              (nth 0 (pkg_channels (TwoProcsAlwaysFiringCausesError kTotalOrder))
                 (chan "" 0 0 ReceiveOnly kProvenMutuallyExclusive))
              TwoProcsAlwaysFiring_in_adapter TwoProcsAlwaysFiring_start 0 4
              (trace_at TwoProcsAlwaysFiring_to TwoProcsAlwaysFiring_start 0)
              (trace_at TwoProcsAlwaysFiring_to TwoProcsAlwaysFiring_start 4) 2 3)
    as [HT _]; [..|exact HT].
  all: try (vm_compute; reflexivity); try (simpl; left; reflexivity); try lia;
    try (vm_compute; intros Hbad; discriminate Hbad).
Defined.

(** C9: legalization is idempotent. After a successful run of the pass on
    a verified package, a second run leaves every channel alone (no
    second adapter and no new internal channel for any of them) and
    reports no change. *)
Theorem C9_legalization_idempotent (p p' : Package) (changed : bool) :
  verify_structure p = true ->
  ChannelLegalizationPass p = Ok (p', changed) ->
  (forall c, In c (pkg_channels p') -> legalize_channel c p' = Ok (p', false)) /\
  ChannelLegalizationPass p' = Ok (p', false).
Proof.
  intros Hv Hrun. unfold ChannelLegalizationPass in *.
  assert (Hs : forall c, In c (pkg_channels p') -> settled p' c = true).
  { apply (legalize_channels_settles (pkg_channels p) p false p' changed Hv);
      [intros c Hc; exact Hc|intros c Hc; right; exact Hc|exact Hrun]. }
  split.
  - intros c Hc. destruct (settled_stays p' c (Hs c Hc)) as [E1 E2].
    rewrite legalize_channel_spec, E1, E2. reflexivity.
  - apply legalize_channels_settled. exact Hs.
Qed.

Lemma C9_legalization_idempotent_witness :
  match ChannelLegalizationPass (SingleProcBackToBackDataSwitchingOps kRuntimeOrdered) with
  | Ok (p', changed) =>
      verify_structure (SingleProcBackToBackDataSwitchingOps kRuntimeOrdered) = true /\
      changed = true /\
      (forall c, In c (pkg_channels p') -> legalize_channel c p' = Ok (p', false)) /\
      ChannelLegalizationPass p' = Ok (p', false)
  | Err _ => False
  end.
Proof.
  pose proof (C9_legalization_idempotent (SingleProcBackToBackDataSwitchingOps kRuntimeOrdered))
    as H.
  destruct (ChannelLegalizationPass (SingleProcBackToBackDataSwitchingOps kRuntimeOrdered))
    as [[p' changed]|st] eqn:E.
  - assert (Hv : verify_structure (SingleProcBackToBackDataSwitchingOps kRuntimeOrdered) = true)
      by (vm_compute; reflexivity).
    split; [exact Hv|]. split.
    + vm_compute in E. inversion E. reflexivity.
    + exact (H p' changed Hv eq_refl).
  - vm_compute in E. discriminate.
Defined.


(** *** Facts about the test harness used by the properties below *)

(** *** Facts about the harness and the runtime calls it makes *)

Lemma nodup_str_NoDup (l : list string) : nodup_str l = true -> NoDup l.
Proof.
  induction l as [|x l IH]; simpl; [constructor|].
  intros H. apply andb_true_iff in H as [H1 H2]. constructor; [|exact (IH H2)].
  intros Hin. apply negb_true_iff in H1. apply Bool.not_true_iff_false in H1. apply H1.
  apply existsb_exists. exists x. split; [exact Hin|apply String.eqb_refl].
Qed.

Lemma NoDup_map_on {A B : Type} (f : A -> B) (l : list A) :
  (forall x y, In x l -> In y l -> f x = f y -> x = y) -> NoDup l -> NoDup (map f l).
Proof.
  induction l as [|x l IH]; simpl; intros Hinj Hnd; [constructor|].
  inversion Hnd as [|? ? Hnin Hnd']; subst. constructor.
  - intros Hin. apply in_map_iff in Hin as (y & Hy & Hyl).
    apply Hnin. rewrite (Hinj x y (or_introl eq_refl) (or_intror Hyl) (eq_sym Hy)). exact Hyl.
  - apply IH; [|exact Hnd']. intros a b Ha Hb. apply Hinj; right; assumption.
Qed.

Lemma NoDup_list_prod {A B : Type} (l1 : list A) (l2 : list B) :
  NoDup l1 -> NoDup l2 -> NoDup (list_prod l1 l2).
Proof.
  induction l1 as [|x l1 IH]; simpl; intros H1 H2; [constructor|].
  inversion H1 as [|? ? Hnin H1']; subst.
  apply NoDup_app_disj.
  - apply NoDup_map_on; [|exact H2]. intros a b _ _ E. inversion E. reflexivity.
  - exact (IH H1' H2).
  - intros [a b] Hab Hin. apply in_map_iff in Hab as (b' & E & _). inversion E; subst.
    apply in_prod_iff in Hin as [Ha _]. contradiction.
Qed.

Lemma underscore_split (a a' r r' : string) :
  no_underscore a = true -> no_underscore a' = true ->
  (a ++ "_" ++ r = a' ++ "_" ++ r')%string -> a = a' /\ r = r'.
Proof.
  revert a'. induction a as [|ch a IH]; intros [|ch' a'] Ha Ha' E; simpl in E.
  - inversion E. split; reflexivity.
  - inversion E; subst. unfold no_underscore in Ha'. simpl in Ha'. discriminate.
  - inversion E; subst. unfold no_underscore in Ha. simpl in Ha. discriminate.
  - inversion E as [[Ech E']]; subst.
    unfold no_underscore in Ha, Ha'. simpl in Ha, Ha'.
    apply andb_true_iff in Ha as [_ Ha]. apply andb_true_iff in Ha' as [_ Ha'].
    destruct (IH a' Ha Ha' E') as [-> ->]. split; reflexivity.
Qed.

Lemma PassVariantName_inj (v v' : PassVariant) :
  PassVariantName v = PassVariantName v' -> v = v'.
Proof. destruct v, v'; simpl; intros E; first [reflexivity | discriminate]. Qed.

Lemma flip_pairs (n m : nat) :
  map flip_evens_and_odds (map Z.of_nat (seq (2 * m) (2 * n))) =
  swap_pairs (map Z.of_nat (seq (2 * m) (2 * n))).
Proof.
  revert m. induction n as [|n IH]; intros m; [reflexivity|].
  replace (2 * S n) with (S (S (2 * n))) by lia.
  cbn [seq map swap_pairs].
  replace (S (S (2 * m))) with (2 * S m) by lia.
  rewrite IH. f_equal; [|f_equal].
  - unfold flip_evens_and_odds.
    replace (Z.rem (Z.of_nat (2 * m)) 2) with 0%Z
      by (rewrite Nat2Z.inj_mul, Z.mul_comm; symmetry; apply Z.rem_mul; lia).
    rewrite Z.eqb_refl, Nat2Z.inj_succ. lia.
  - unfold flip_evens_and_odds.
    replace (Z.rem (Z.of_nat (S (2 * m))) 2) with 1%Z.
    + change (1 =? 0)%Z with false. cbv iota. rewrite Nat2Z.inj_succ. lia.
    + rewrite Z.rem_mod_nonneg by lia. rewrite Nat2Z.inj_succ, Nat2Z.inj_mul.
      rewrite <- Z.add_1_r, Z.add_comm, Z.mul_comm, Z_mod_plus_full. reflexivity.
Qed.

Lemma queue_of_set_queue (s : NetState) (c d : nat) (q : list Value) :
  queue_of (set_queue s d q) c = if Nat.eqb c d then q else queue_of s c.
Proof.
  unfold queue_of, set_queue; simpl. rewrite nlookup_nupdate. destruct (Nat.eqb c d); reflexivity.
Qed.

Lemma written_count_set_queue (s : NetState) (c d : nat) (q : list Value) :
  written_count (set_queue s d q) c = written_count s c.
Proof. reflexivity. Qed.

Lemma drain_loop_spec (q : nat) (n : nat) :
  forall t, List.length (queue_of (ts_net t) q) < n ->
  exists t', drain_loop q n t = HVal tt t' /\
    queue_of (ts_net t') q = [] /\
    (forall c, c <> q -> queue_of (ts_net t') c = queue_of (ts_net t) c) /\
    (forall c, written_count (ts_net t') c = written_count (ts_net t) c) /\
    ts_expect_ok t' = ts_expect_ok t.
Proof.
  induction n as [|n IH]; intros t Hlt; [lia|].
  cbn [drain_loop]. unfold hbind, IsEmpty at 1.
  destruct (queue_of (ts_net t) q) as [|v r] eqn:Eq.
  - exists t. split; [reflexivity|]. split; [exact Eq|]. repeat split; reflexivity.
  - unfold Read, queue_pop. rewrite Eq.
    set (t1 := mkTestState (set_queue (ts_net t) q r) (ts_expect_ok t)).
    assert (Hlen : List.length (queue_of (ts_net t1) q) < n).
    { simpl. rewrite queue_of_set_queue, Nat.eqb_refl. simpl in Hlt. lia. }
    destruct (IH t1 Hlen) as (t' & E & H1 & H2 & H3 & H4).
    exists t'. split; [exact E|]. split; [exact H1|]. split; [|split].
    + intros c Hc. rewrite (H2 c Hc). simpl. rewrite queue_of_set_queue.
      destruct (Nat.eqb c q) eqn:Ec; [apply Nat.eqb_eq in Ec; contradiction|reflexivity].
    + intros c. rewrite H3. reflexivity.
    + exact H4.
Qed.

Lemma drain_spec (q : nat) (t : TestState) :
  exists t', drain q t = HVal tt t' /\
    queue_of (ts_net t') q = [] /\
    (forall c, c <> q -> queue_of (ts_net t') c = queue_of (ts_net t) c) /\
    (forall c, written_count (ts_net t') c = written_count (ts_net t) c) /\
    ts_expect_ok t' = ts_expect_ok t.
Proof. apply drain_loop_spec. lia. Qed.


(** ** Further properties of the test harness, the runtime and the pass *)

(** X1: for any [ChannelStrictnessToString] that prints the five
    strictnesses differently, the name generator of
    [INSTANTIATE_TEST_SUITE_P] gives the 70 instantiated test cases
    pairwise distinct names (test and variant names carry no underscore). *)
Theorem X1_test_case_names_distinct (ChannelStrictnessToString : ChannelStrictness -> string)
    (default_strictness : ChannelStrictness) :
  nodup_str (map ChannelStrictnessToString InstantiatedStrictnesses) = true ->
  NoDup (map (test_case_name ChannelStrictnessToString) (instantiation default_strictness)).
Proof.
  intros Hs.
  pose (name3 := fun (x : string * PassVariant * ChannelStrictness) =>
                   let '(n, v, s) := x in
                   (n ++ "_" ++ PassVariantName v ++ "_" ++ ChannelStrictnessToString s)%string).
  pose (L := list_prod (list_prod (map test_name (kTestParameters default_strictness))
                                  InstantiatedPassVariants) InstantiatedStrictnesses).
  replace (map (test_case_name ChannelStrictnessToString) (instantiation default_strictness))
    with (map name3 L) by reflexivity.
  assert (Hnames : forallb no_underscore (map test_name (kTestParameters default_strictness)) = true)
    by reflexivity.
  assert (Hv : forall v, no_underscore (PassVariantName v) = true) by (intros []; reflexivity).
  assert (Hall : forall s, In s InstantiatedStrictnesses) by (intros []; simpl; tauto).
  apply NoDup_map_on.
  - intros [[n v] s] [[n' v'] s'] Hx Hy E. unfold name3 in E.
    apply in_prod_iff in Hx as [Hx _]. apply in_prod_iff in Hx as [Hx _].
    apply in_prod_iff in Hy as [Hy _]. apply in_prod_iff in Hy as [Hy _].
    rewrite forallb_forall in Hnames.
    destruct (underscore_split _ _ _ _ (Hnames n Hx) (Hnames n' Hy) E) as [-> E'].
    destruct (underscore_split _ _ _ _ (Hv v) (Hv v') E') as [Ev Es].
    rewrite (PassVariantName_inj v v' Ev).
    rewrite (NoDup_map_inj ChannelStrictnessToString InstantiatedStrictnesses s s'
               (nodup_str_NoDup _ Hs) (Hall s) (Hall s') Es).
    reflexivity.
  - apply NoDup_list_prod; [apply NoDup_list_prod|].
    + apply nodup_str_NoDup. reflexivity.
    + repeat constructor; simpl; intuition discriminate.
    + repeat constructor; simpl; intuition discriminate.
Qed.

Lemma X1_test_case_names_distinct_witness :
  nodup_str (map (fun s => match s with
                           | kProvenMutuallyExclusive => "proven_mutually_exclusive"
                           | kRuntimeMutuallyExclusive => "runtime_mutually_exclusive"
                           | kTotalOrder => "total_order"
                           | kRuntimeOrdered => "runtime_ordered"
                           | kArbitraryStaticOrder => "arbitrary_static_order"
                           end) InstantiatedStrictnesses) = true /\
  NoDup (map (test_case_name (fun s => match s with
                           | kProvenMutuallyExclusive => "proven_mutually_exclusive"
                           | kRuntimeMutuallyExclusive => "runtime_mutually_exclusive"
                           | kTotalOrder => "total_order"
                           | kRuntimeOrdered => "runtime_ordered"
                           | kArbitraryStaticOrder => "arbitrary_static_order"
                           end)) (instantiation kProvenMutuallyExclusive)).
Proof.
  split; [vm_compute; reflexivity|].
  apply X1_test_case_names_distinct. vm_compute. reflexivity.
Defined.

(** X2: the value [SingleProcBackToBackDataSwitchingOps] expects from its
    i-th read, [flip_evens_and_odds(i)], is the i-th element of the
    inputs with each adjacent pair swapped whenever the number of inputs is
    even (32 in the test); with an odd number of inputs the last expected
    value is one that was never written. *)
Theorem X2_flip_evens_and_odds_expectation (n : nat) :
  map flip_evens_and_odds (iota32 (2 * n)) = swap_pairs (iota32 (2 * n)) /\
  In (Z.of_nat (2 * n + 1)) (map flip_evens_and_odds (iota32 (2 * n + 1))) /\
  ~ In (Z.of_nat (2 * n + 1)) (iota32 (2 * n + 1)).
Proof.
  split; [exact (flip_pairs n 0)|]. split.
  - apply in_map_iff. exists (Z.of_nat (2 * n)). split.
    + unfold flip_evens_and_odds.
      replace (Z.rem (Z.of_nat (2 * n)) 2) with 0%Z
        by (rewrite Nat2Z.inj_mul, Z.mul_comm; symmetry; apply Z.rem_mul; lia).
      rewrite Z.eqb_refl. lia.
    + unfold iota32. apply in_map. apply in_seq. lia.
  - unfold iota32. intros H. apply in_map_iff in H as (x & Ex & Hx).
    apply in_seq in Hx. lia.
Qed.

(** X3: the predicate word [run_with_pred] writes to [pred] is
    [fire0 + 2 * fire1]; the proc's [pred0] and [pred1] bit slices decode it
    back to [fire0] and [fire1]; and the output count the lambda waits for,
    [num_outputs], is exactly the number of sends on [out] whose predicate
    then holds. *)
Theorem X3_run_with_pred_word (st : ChannelStrictness) (fire0 fire1 : bool) (env : Env)
    (s : NetState) :
  match pkg_procs (SingleProcWithPartialOrder st) with
  | [pr] =>
      let '(num_outputs, pred) := run_with_pred_counts fire0 fire1 in
      let env0 := ("pred_data", UBits pred 2) :: env in
      let env1 := ("pred1", VBits 1 (Z.b2z fire1)) :: ("pred0", VBits 1 (Z.b2z fire0)) :: env0 in
      pred = ((if fire0 then 1 else 0) + (if fire1 then 2 else 0))%Z /\
      option_map (fun n => exec_node (SingleProcWithPartialOrder st) env0 n s)
                 (node_named pr "pred0") = Some (NOk (VBits 1 (Z.b2z fire0)) s) /\
      option_map (fun n => exec_node (SingleProcWithPartialOrder st) env0 n s)
                 (node_named pr "pred1") = Some (NOk (VBits 1 (Z.b2z fire1)) s) /\
      num_outputs = enabled_sends env1 1 (proc_nodes pr)
  | _ => False
  end.
Proof.
  destruct fire0, fire1; repeat split; reflexivity.
Qed.

(** X4: whatever earlier runs left behind, the set-up part of
    [run_with_pred] leaves exactly [0, 1, 2] on [in] and nothing on [out],
    appends the predicate word to [pred] (which it does not clear), changes
    no output count and fails no expectation. *)
Theorem X4_run_with_pred_clears (p : Package) (outq : nat) (fire0 fire1 : bool)
    (t : TestState) (cin cpred : Channel) :
  find_channel_by_name (pkg_channels p) "in" = Some cin ->
  find_channel_by_name (pkg_channels p) "pred" = Some cpred ->
  nodup_nat [ch_id cin; ch_id cpred; outq] = true ->
  exists t',
    run_with_pred_setup p outq fire0 fire1 t
      = HVal (outq, fst (run_with_pred_counts fire0 fire1)) t' /\
    queue_of (ts_net t') (ch_id cin) = [UBits 0 32; UBits 1 32; UBits 2 32] /\
    queue_of (ts_net t') outq = [] /\
    queue_of (ts_net t') (ch_id cpred)
      = (queue_of (ts_net t) (ch_id cpred) ++ [UBits (snd (run_with_pred_counts fire0 fire1)) 2])%list /\
    (forall c, written_count (ts_net t') c = written_count (ts_net t) c) /\
    ts_expect_ok t' = ts_expect_ok t.
Proof.
  intros Hin Hpred Hnd. apply nodup_nat_NoDup in Hnd.
  inversion Hnd as [|? ? Hn1 Hnd1]; subst. inversion Hnd1 as [|? ? Hn2 _]; subst.
  simpl in Hn1, Hn2.
  assert (E1 : ch_id cpred <> outq) by (intros E; apply Hn2; left; congruence).
  assert (E2 : ch_id cin <> ch_id cpred) by (intros E; apply Hn1; left; congruence).
  assert (E3 : ch_id cin <> outq) by (intros E; apply Hn1; right; left; congruence).
  assert (E1' : Nat.eqb outq (ch_id cpred) = false) by (apply Nat.eqb_neq; congruence).
  assert (E2' : Nat.eqb (ch_id cpred) (ch_id cin) = false) by (apply Nat.eqb_neq; congruence).
  assert (E3' : Nat.eqb outq (ch_id cin) = false) by (apply Nat.eqb_neq; congruence).
  assert (E1'' : Nat.eqb (ch_id cpred) outq = false) by (apply Nat.eqb_neq; congruence).
  assert (E2'' : Nat.eqb (ch_id cin) (ch_id cpred) = false) by (apply Nat.eqb_neq; congruence).
  assert (E3'' : Nat.eqb (ch_id cin) outq = false) by (apply Nat.eqb_neq; congruence).
  unfold run_with_pred_setup, GetQueueByName. rewrite Hin, Hpred. unfold hbind, hret.
  destruct (drain_spec (ch_id cin) t) as (t1 & D1 & Q1 & O1 & W1 & X1).
  rewrite D1.
  destruct (drain_spec outq t1) as (t2 & D2 & Q2 & O2 & W2 & X2).
  rewrite D2.
  destruct (run_with_pred_counts fire0 fire1) as [num_outputs pred].
  cbn [hfor seq Write RETURN_IF_ERROR is_ok_status status_ok status_code StatusCode_eqb
       ts_net ts_expect_ok hbind hret fst snd].
  eexists. split; [reflexivity|]. cbn [ts_net ts_expect_ok].
  rewrite !queue_of_set_queue, !Nat.eqb_refl, ?E1', ?E2', ?E3', ?E1'', ?E2'', ?E3''.
  split; [rewrite (O2 _ E3), Q1; reflexivity|].
  split; [exact Q2|].
  split; [rewrite (O2 _ E1), (O1 _ (not_eq_sym E2)); reflexivity|].
  split; [|congruence].
  intros c. unfold written_count at 1; simpl. rewrite <- W1, <- W2. reflexivity.
Qed.

Lemma X4_run_with_pred_clears_witness :
  find_channel_by_name (pkg_channels (SingleProcWithPartialOrder kTotalOrder)) "in"
    = Some (chan "in" 32 0 ReceiveOnly kTotalOrder) /\
  find_channel_by_name (pkg_channels (SingleProcWithPartialOrder kTotalOrder)) "pred"
    = Some (chan "pred" 2 2 ReceiveOnly kTotalOrder) /\
  nodup_nat [0; 2; 1] = true /\
  exists t',
    run_with_pred_setup (SingleProcWithPartialOrder kTotalOrder) 1 true false
      (mkTestState (CreateRuntime (SingleProcWithPartialOrder kTotalOrder)) true)
      = HVal (1, fst (run_with_pred_counts true false)) t' /\
    queue_of (ts_net t') 0 = [UBits 0 32; UBits 1 32; UBits 2 32] /\
    queue_of (ts_net t') 1 = [] /\
    queue_of (ts_net t') 2
      = (queue_of (CreateRuntime (SingleProcWithPartialOrder kTotalOrder)) 2 ++
         [UBits (snd (run_with_pred_counts true false)) 2])%list /\
    (forall c, written_count (ts_net t') c
               = written_count (CreateRuntime (SingleProcWithPartialOrder kTotalOrder)) c) /\
    ts_expect_ok t' = true.
Proof.
  split; [reflexivity|]. split; [reflexivity|]. split; [reflexivity|].
  apply (X4_run_with_pred_clears (SingleProcWithPartialOrder kTotalOrder) 1 true false
           (mkTestState (CreateRuntime (SingleProcWithPartialOrder kTotalOrder)) true)
           (chan "in" 32 0 ReceiveOnly kTotalOrder) (chan "pred" 2 2 ReceiveOnly kTotalOrder));
    reflexivity.
Defined.

